(** * NamespaceToClass: the layout-synthesis pipeline of [main.py]

    A shallow embedding of [main.py] and the properties of its five stages:
    the type normaliser ([normalize_type]), the class extractor
    ([parse_classes]), the dependency orderer ([order_classes]), the layout
    computer ([compute_class_sizes]) and the code emitter ([convert_file]).

    Conventions of the embedding.
    - A Python [str] is a [string]; a character of the model is a code point
      below 256, and the character classes of [re] and of [str.strip] /
      [str.splitlines] are given for exactly that range.
    - A Python [int] is a [Z].  The conversions between [int] and decimal
      [str] are taken without the digit limit of CPython, except in the
      functions named [_lim], which model that limit and the [ValueError]
      it raises.
    - A [dict] is a [gmap]; where the program relies on the insertion order
      of a dict (the keys of [indegree]) the order is computed next to it.
    - A raised exception ([KeyError] on a subscript) is [None]; the theorems
      show that no stage raises one.
    - The program iterates over a Python [set] of strings, whose order the
      language leaves open; the embedding takes the enumeration as a
      parameter [set_iter] and the theorems hold for every enumeration. *)

From Stdlib Require Import ZArith Ascii String List Permutation Lia.
From stdpp Require Import gmap strings.

Local Open Scope Z_scope.

#[local] Set Warnings "-clear-no-such-hyp".

(** ** Characters and the character classes of [re] *)

Definition code (c : ascii) : N := N_of_ascii c.

Definition in_range (lo hi : N) (c : ascii) : bool :=
  ((lo <=? code c) && (code c <=? hi))%N.

Definition chr (n : N) : ascii := ascii_of_N n.

Definition LF : ascii := chr 10.
Definition CR : ascii := chr 13.

(** [\d]: the decimal digits (no other code point below 256 is in Nd). *)
Definition is_digit (c : ascii) : bool := in_range 48 57 c.

Definition is_upper (c : ascii) : bool := in_range 65 90 c.
Definition is_lower (c : ascii) : bool := in_range 97 122 c.

(** [[0-9A-Fa-f]] *)
Definition is_hex (c : ascii) : bool :=
  is_digit c || in_range 65 70 c || in_range 97 102 c.

(** [\w] on a [str] pattern: alphanumeric code points and the underscore. *)
Definition is_word (c : ascii) : bool :=
  is_digit c || is_upper c || is_lower c || (code c =? 95)%N
  || (code c =? 170)%N || in_range 178 179 c || (code c =? 181)%N
  || in_range 185 186 c || in_range 188 190 c
  || in_range 192 214 c || in_range 216 246 c || in_range 248 255 c.

(** [\s] on a [str] pattern, which is also what [str.strip()] removes. *)
Definition is_space (c : ascii) : bool :=
  in_range 9 13 c || in_range 28 32 c || (code c =? 133)%N || (code c =? 160)%N.

(** [[A-Za-z0-9_<>:]] *)
Definition is_base_char (c : ascii) : bool :=
  is_upper c || is_lower c || is_digit c || (code c =? 95)%N
  || (code c =? 60)%N || (code c =? 62)%N || (code c =? 58)%N.

(** [[^}]] *)
Definition not_rbrace (c : ascii) : bool := negb (code c =? 125)%N.

(** [.] under [re.DOTALL] and without it. *)
Definition any_char (c : ascii) : bool := true.
Definition not_newline (c : ascii) : bool := negb (code c =? 10)%N.

(** The line boundaries of [str.splitlines()] below 256, [\r\n] apart. *)
Definition is_linebreak (c : ascii) : bool :=
  in_range 10 13 c || in_range 28 30 c || (code c =? 133)%N.

(** ** Strings *)

Fixpoint str_all (p : ascii -> bool) (s : string) : bool :=
  match s with
  | EmptyString => true
  | String c s' => p c && str_all p s'
  end.

Fixpoint lstrip (s : string) : string :=
  match s with
  | EmptyString => EmptyString
  | String c s' => if is_space c then lstrip s' else s
  end.

Definition rstrip (s : string) : string := String.rev (lstrip (String.rev s)).

(** [s.strip()] *)
Definition strip (s : string) : string := rstrip (lstrip s).

(** [s.splitlines()]: [cur] is the current line, reversed. *)
Fixpoint splitlines_go (cur : string) (s : string) : list string :=
  match s with
  | EmptyString =>
      match cur with EmptyString => [] | _ => [String.rev cur] end
  | String c s' =>
      if (code c =? 13)%N then
        match s' with
        | String c' s'' =>
            if (code c' =? 10)%N then String.rev cur :: splitlines_go EmptyString s''
            else String.rev cur :: splitlines_go EmptyString s'
        | EmptyString => String.rev cur :: splitlines_go EmptyString s'
        end
      else if is_linebreak c then String.rev cur :: splitlines_go EmptyString s'
      else splitlines_go (String c cur) s'
  end.

Definition splitlines (s : string) : list string := splitlines_go EmptyString s.

(** [''.join(chunks)] *)
Definition join (chunks : list string) : string :=
  foldr String.append EmptyString chunks.

(** [sub in s] for strings: [sub] occurs in [s]. *)
Definition occurs (sub s : string) : Prop :=
  exists pre post, s = pre +:+ sub +:+ post.

(** ** Integers: [int(s)], [int(s, 16)] and the format specifications *)

Definition digit_val (c : ascii) : Z :=
  if is_digit c then Z.of_N (code c) - 48
  else if in_range 65 70 c then Z.of_N (code c) - 55
  else if in_range 97 102 c then Z.of_N (code c) - 87
  else 0.

Fixpoint int_go (base : Z) (acc : Z) (s : string) : Z :=
  match s with
  | EmptyString => acc
  | String c s' => int_go base (acc * base + digit_val c) s'
  end.

(** [int(s)] on a string of decimal digits. *)
Definition int_dec (s : string) : Z := int_go 10 0 s.

(** [int(s, 16)] on a string [0x] followed by hexadecimal digits. *)
Definition int_hex (s : string) : Z :=
  match s with
  | String _ (String _ ds) => int_go 16 0 ds
  | _ => 0
  end.

Definition digit_chr (d : Z) : ascii :=
  if d <? 10 then chr (Z.to_N (48 + d)) else chr (Z.to_N (55 + d)).

Fixpoint digits_go (fuel : nat) (base n : Z) (acc : string) : string :=
  match fuel with
  | O => acc
  | S fuel' =>
      let acc' := String (digit_chr (n mod base)) acc in
      if n / base =? 0 then acc' else digits_go fuel' base (n / base) acc'
  end.

(** The digits of [n >= 0] in [base], most significant first. *)
Definition digits (base n : Z) : string :=
  digits_go (S (Z.to_nat (Z.log2 n))) base n EmptyString.

Fixpoint zeros (k : nat) : string :=
  match k with O => EmptyString | S k' => String (chr 48) (zeros k') end.

Definition zfill (width : nat) (s : string) : string :=
  zeros (width - String.length s) +:+ s.

(** [f"{n}"] *)
Definition fmt_d (n : Z) : string :=
  if n <? 0 then String (chr 45) (digits 10 (- n)) else digits 10 n.

(** [f"{n:04X}"]: the sign counts in the width. *)
Definition fmt_04X (n : Z) : string :=
  if n <? 0 then String (chr 45) (zfill 3 (digits 16 (- n)))
  else zfill 4 (digits 16 n).

(** ** A backtracking matcher for the patterns of the program

    The three patterns are sequences of literal characters, repeated
    character classes and capture groups that are not nested.  The matcher
    follows the priorities of [re]: a greedy repetition tries the longest
    run first and gives characters back, a lazy one tries the shortest. *)

Inductive item : Type :=
  | Lit (c : ascii)              (* one literal character *)
  | Star (cls : ascii -> bool)   (* cls*  *)
  | Plus (cls : ascii -> bool)   (* cls+  *)
  | LazyStar (cls : ascii -> bool) (* cls*? *)
  | Open                         (* ( *)
  | Close.                       (* ) *)

Definition regex : Type := list item.

Fixpoint lit (s : string) : regex :=
  match s with
  | EmptyString => []
  | String c s' => Lit c :: lit s'
  end.

(** A match: the groups in order and the text after the match. *)
Definition matched : Type := list string * string.

Fixpoint rep_greedy (cls : ascii -> bool) (k : string -> option matched)
    (s : string) : option matched :=
  match s with
  | String c s' =>
      if cls c then
        match rep_greedy cls k s' with
        | Some r => Some r
        | None => k s
        end
      else k s
  | EmptyString => k s
  end.

Fixpoint rep_lazy (cls : ascii -> bool) (k : string -> option matched)
    (s : string) : option matched :=
  match k s with
  | Some r => Some r
  | None =>
      match s with
      | String c s' => if cls c then rep_lazy cls k s' else None
      | EmptyString => None
      end
  end.

(** The text between the opening of a group, where the input was [opened],
    and its closing, where the input is [s]. *)
Definition captured (opened s : string) : string :=
  String.substring 0 (String.length opened - String.length s) opened.

(** [match_items re opened caps s]: match [re] at the start of [s];
    [opened] is the input at the last [(] and [caps] the groups closed so
    far, last first. *)
Fixpoint match_items (re : regex) (opened : string) (caps : list string)
    (s : string) : option matched :=
  match re with
  | [] => Some (rev caps, s)
  | Lit c :: re' =>
      match s with
      | String c' s' =>
          if Ascii.eqb c c' then match_items re' opened caps s' else None
      | EmptyString => None
      end
  | Star cls :: re' => rep_greedy cls (match_items re' opened caps) s
  | Plus cls :: re' =>
      match s with
      | String c s' =>
          if cls c then rep_greedy cls (match_items re' opened caps) s'
          else None
      | EmptyString => None
      end
  | LazyStar cls :: re' => rep_lazy cls (match_items re' opened caps) s
  | Open :: re' => match_items re' s caps s
  | Close :: re' => match_items re' opened (captured opened s :: caps) s
  end.

(** The number of groups of a pattern. *)
Fixpoint closes (re : regex) : nat :=
  match re with
  | [] => O
  | Close :: re' => S (closes re')
  | _ :: re' => closes re'
  end.

(** [pattern.match(s)]: the groups of a match at the start of [s]. *)
Definition re_match (re : regex) (s : string) : option matched :=
  match_items re EmptyString [] s.

(** [pattern.search(s)]: the leftmost match. *)
Fixpoint re_search (re : regex) (s : string) : option matched :=
  match re_match re s with
  | Some r => Some r
  | None =>
      match s with
      | String _ s' => re_search re s'
      | EmptyString => None
      end
  end.

(** [pattern.finditer(s)]: the matches from left to right, none overlapping
    the one before; [skip] characters of [s] belong to the last match.
    (The one pattern the program iterates, [class_pattern], matches no
    empty text, so the rule of [re] for empty matches plays no part.) *)
Fixpoint finditer_go (re : regex) (skip : nat) (s : string) : list (list string) :=
  match s with
  | EmptyString =>
      match skip, re_match re s with
      | O, Some (groups, _) => [groups]
      | _, _ => []
      end
  | String _ s' =>
      match skip with
      | S skip' => finditer_go re skip' s'
      | O =>
          match re_match re s with
          | Some (groups, rest) =>
              groups :: finditer_go re
                          (Nat.pred (String.length s - String.length rest)) s'
          | None => finditer_go re O s'
          end
      end
  end.

Definition finditer (re : regex) (s : string) : list (list string) :=
  finditer_go re O s.

(** ** The tables of the program *)

Definition type_map : gmap string string :=
  list_to_map
    [ ("bool", "bool"); ("uint8", "uint8_t"); ("uint16", "uint16_t");
      ("int16", "int16_t"); ("int32", "int32_t"); ("uint32", "uint32_t");
      ("int64", "int64_t"); ("uint64", "uint64_t"); ("float32", "float");
      ("float", "float"); ("Vector", "Vector3"); ("Vector2", "Vector2");
      ("Vector2D", "Vector2"); ("Vector3", "Vector3"); ("Vector4", "Vector4");
      ("QAngle", "Vector3"); ("Quaternion", "Vector4"); ("char", "char");
      ("CUtlStringToken", "uint32_t"); ("CModelState", "void*") ].

Definition array_map : gmap string string :=
  list_to_map
    [ ("Vector2D", "Vector2"); ("float[2]", "Vector2");
      ("float[3]", "Vector3"); ("float[4]", "Vector4") ].

Definition pointer_size : Z := 8.

Definition size_map : gmap string Z :=
  list_to_map
    [ ("bool", 1); ("int", 4); ("uint8_t", 1); ("int16_t", 2);
      ("uint16_t", 2); ("int32_t", 4); ("uint32_t", 4); ("float", 4);
      ("int64_t", 8); ("uint64_t", 8); ("uintptr_t", pointer_size);
      ("void*", pointer_size); ("char", 1); ("Vector2", 8); ("Vector3", 12);
      ("QAngle", 12); ("Vector4", 16) ].

Definition special_map : gmap string (string * Z) :=
  list_to_map
    [ ("CHandle<C_BaseEntity>", ("uint32_t", 4));
      ("CHandle<C_BaseModelEntity>", ("uint32_t", 4));
      ("CUtlStringToken", ("uint32_t", 4)); ("GameTime_t", ("float", 4));
      ("GameTick_t", ("int32_t", 4)); ("AttachmentHandle_t", ("uint8_t", 1)) ].

(** [k in d] and [v in d.values()] *)
Definition in_keys {V} (k : string) (d : gmap string V) : bool :=
  bool_decide (is_Some (d !! k)).

Definition in_values (v : string) (d : gmap string string) : bool :=
  bool_decide (v ∈ (map_to_list d).*2).

(** [([A-Za-z0-9_<>:]+)\[(\d+)\]] *)
Definition array_pattern : regex :=
  [Open; Plus is_base_char; Close; Lit (chr 91);
   Open; Plus is_digit; Close; Lit (chr 93)].

(** [// Parent:\s*(\w+).*?namespace\s+(\w+)\s*\{(G)\}] under [re.DOTALL],
    where the third group [G] is the class [[^}]] repeated, greedily. *)
Definition class_pattern : regex :=
  lit "// Parent:" ++
  [Star is_space; Open; Plus is_word; Close; LazyStar any_char] ++
  lit "namespace" ++
  [Plus is_space; Open; Plus is_word; Close; Star is_space; Lit (chr 123);
   Open; Star not_rbrace; Close; Lit (chr 125)].

(** [constexpr std::ptrdiff_t\s+(\w+)\s*=\s*(0x[0-9A-Fa-f]+);\s*//\s*(.+)] *)
Definition offset_pattern : regex :=
  lit "constexpr std::ptrdiff_t" ++
  [Plus is_space; Open; Plus is_word; Close; Star is_space; Lit (chr 61);
   Star is_space; Open] ++
  lit "0x" ++
  [Plus is_hex; Close; Lit (chr 59); Star is_space] ++
  lit "//" ++
  [Star is_space; Open; Plus not_newline; Close].

(** ** Type normaliser *)

(** [m.group(k)], [k >= 1]; every match of the three patterns has all its
    groups (lemma [match_items_groups]), so the default is never used. *)
Definition group (k : nat) (groups : list string) : string :=
  nth (Nat.pred k) groups EmptyString.

(** What [normalize_type] returns: a [str], or a tuple of a base type and a
    count ([isinstance(nt, tuple)] tells them apart). *)
Inductive ntype : Type :=
  | NScalar (name : string)
  | NArray (base : string) (count : Z).

Definition normalize_type (ctype : string) : option ntype :=
  let ctype := strip ctype in
  match re_match array_pattern ctype with
  | Some (groups, _) =>
      let base := strip (group 1 groups) in
      let count := int_dec (group 2 groups) in
      if in_keys base type_map then
        t ← type_map !! base; Some (NArray t count)
      else if in_values base type_map then Some (NArray base count)
      else Some (NArray "uint32_t" count)
  | None =>
      if in_keys ctype array_map then
        t ← array_map !! ctype; Some (NScalar t)
      else if in_keys ctype type_map then
        t ← type_map !! ctype; Some (NScalar t)
      else if in_values ctype type_map then Some (NScalar ctype)
      else if in_keys ctype special_map then
        e ← special_map !! ctype; Some (NScalar e.1)
      else Some (NScalar "uint32_t")
  end.

(** [size_map.get(name, 4)] *)
Definition size_of (name : string) : Z := default 4 (size_map !! name).

(** The byte size the two passes give a normalised type. *)
Definition nt_size (nt : ntype) : Z :=
  match nt with
  | NScalar name => size_of name
  | NArray base count => size_of base * count
  end.

(** ** Class extractor *)

(** A class as extracted: name, parent name and the field lines. *)
Abbreviation class_rec := (string * string * list string)%type.

Definition parse_class (groups : list string) : class_rec :=
  let parent := group 1 groups in
  let name := group 2 groups in
  let content := splitlines (strip (group 3 groups)) in
  let fields :=
    strip <$> filter (fun line => is_Some (re_search offset_pattern line)) content in
  (name, parent, fields).

Definition parse_classes (text : string) : list class_rec :=
  parse_class <$> finditer class_pattern text.

(** [m = offset_re.search(line)], [var, offset_hex, ctype = m.groups()] and
    [offset = int(offset_hex, 16)]; [None] when the line does not match. *)
Definition field_of_line (line : string) : option (string * Z * string) :=
  match re_search offset_pattern line with
  | None => None
  | Some (groups, _) =>
      Some (group 1 groups, int_hex (group 2 groups), group 3 groups)
  end.

(** ** Dependency orderer *)

(** A class as ordered: the parent is [None] when it is not a class. *)
Abbreviation ordered_rec := (string * option string * list string)%type.

(** The keys of a dict built by inserting [names] one after the other:
    each key stays where it was first inserted. *)
Definition dict_keys (names : list string) : list string :=
  foldl (fun keys n => if bool_decide (n ∈ keys) then keys else keys ++ [n])
        [] names.

(** [{name: (name, parent, body) for name, parent, body in classes}] *)
Definition name_to_class_of (classes : list class_rec) : gmap string class_rec :=
  foldl (fun m c => <[c.1.1 := c]> m) ∅ classes.

(** [d[k]] on a [defaultdict(set)] *)
Definition set_of (d : gmap string (gset string)) (k : string) : gset string :=
  default ∅ (d !! k).

(** [d[k].add(v)] on a [defaultdict(set)] *)
Definition add_to (d : gmap string (gset string)) (k v : string) :
    gmap string (gset string) :=
  <[k := {[v]} ∪ set_of d k]> d.

Definition deps_step (name_to_class : gmap string class_rec)
    (acc : gmap string (gset string) * gmap string (gset string))
    (c : class_rec) : gmap string (gset string) * gmap string (gset string) :=
  let '(name, parent, _) := c in
  if bool_decide (parent ≠ EmptyString) && in_keys parent name_to_class
  then (add_to acc.1 name parent, add_to acc.2 parent name)
  else acc.

(** The first loop of [order_classes]: [(deps, rev_deps)]. *)
Definition build_deps (name_to_class : gmap string class_rec)
    (classes : list class_rec) :
    gmap string (gset string) * gmap string (gset string) :=
  foldl (deps_step name_to_class) (∅, ∅) classes.

(** The edges of the dependency graph, which the first loop records in [deps] and [rev_deps]. *)
Definition edge (M : gmap string class_rec) (classes : list class_rec)
    (n p : string) : Prop :=
  (exists b, (n, p, b) ∈ classes) /\ p <> EmptyString /\ is_Some (M !! p).

(** [{name: len(deps[name]) for name, _, _ in classes}] *)
Definition indegree_of (deps : gmap string (gset string))
    (classes : list class_rec) : gmap string Z :=
  foldl (fun m c => <[c.1.1 := Z.of_nat (size (set_of deps c.1.1))]> m) ∅ classes.

(** [indegree[dep] -= 1] and the test that appends [dep] to the queue. *)
Definition relax (st : gmap string Z * list string) (dep : string) :
    option (gmap string Z * list string) :=
  d ← st.1 !! dep;
  Some (<[dep := d - 1]> st.1,
        if bool_decide (d - 1 = 0) then st.2 ++ [dep] else st.2).

Fixpoint relax_all (st : gmap string Z * list string) (ds : list string) :
    option (gmap string Z * list string) :=
  match ds with
  | [] => Some st
  | dep :: ds' => st' ← relax st dep; relax_all st' ds'
  end.

Section Orderer.
(** The order in which [for dep in rev_deps[name]] visits a set. *)
Variable set_iter : gset string -> list string.

(** The [while queue] loop.  [None] is a [KeyError], or a loop that has
    not ended within [fuel] iterations. *)
Fixpoint order_loop (fuel : nat) (name_to_class : gmap string class_rec)
    (rev_deps : gmap string (gset string)) (indegree : gmap string Z)
    (queue : list string) (ordered : list ordered_rec) :
    option (list ordered_rec) :=
  match queue with
  | [] => Some ordered
  | name :: queue' =>
      match fuel with
      | O => None
      | S fuel' =>
          c ← name_to_class !! name;
          let parent :=
            if in_keys c.1.2 name_to_class then Some c.1.2 else None in
          let ordered' := ordered ++ [(name, parent, c.2)] in
          st ← relax_all (indegree, queue') (set_iter (set_of rev_deps name));
          order_loop fuel' name_to_class rev_deps st.1 st.2 ordered'
      end
  end.

Definition order_classes (classes : list class_rec) : option (list ordered_rec) :=
  let name_to_class := name_to_class_of classes in
  let '(deps, rev_deps) := build_deps name_to_class classes in
  let indegree := indegree_of deps classes in
  let queue :=
    filter (fun n => indegree !! n = Some 0) (dict_keys (classes.*1.*1)) in
  order_loop (length classes) name_to_class rev_deps indegree queue [].
End Orderer.

(** The names already appended to [ordered]. *)
Definition done_set (ordered : list ordered_rec) : gset string :=
  list_to_set (ordered.*1.*1).

(** The parents of [n] not yet appended to [ordered]. *)
Definition remaining (deps : gmap string (gset string)) (D : gset string)
    (n : string) : Z :=
  Z.of_nat (size (set_of deps n ∖ D)).

(** The invariant of the [while queue] loop: no name is queued or appended
    twice, [indegree] counts the parents of a class that are not appended
    yet, a class is queued or appended exactly when all its parents are
    appended, every appended record is the one [name_to_class] holds, and
    every parent of an appended class stands before it. *)
Record loop_inv (M : gmap string class_rec) (deps : gmap string (gset string))
    (indegree : gmap string Z) (queue : list string)
    (ordered : list ordered_rec) : Prop := {
  inv_nodup : NoDup (ordered.*1.*1 ++ queue);
  inv_names : forall n, n ∈ ordered.*1.*1 ++ queue -> n ∈ dom M;
  inv_indeg : forall n, n ∈ dom M ->
    indegree !! n = Some (remaining deps (done_set ordered) n);
  inv_ready : forall n, n ∈ dom M ->
    (n ∈ ordered.*1.*1 ++ queue <-> set_of deps n ⊆ done_set ordered);
  inv_recs : forall n op b, (n, op, b) ∈ ordered ->
    exists c, M !! n = Some c /\ b = c.2 /\
      op = (if in_keys c.1.2 M then Some c.1.2 else None);
  inv_prec : forall l1 x l2, ordered = l1 ++ x :: l2 ->
    set_of deps x.1.1 ⊆ done_set l1
}.

(** ** Layout computer *)

(** The field loop of [compute_class_sizes], from [last_offset]. *)
Fixpoint size_walk (last_offset : Z) (fields : list string) : option Z :=
  match fields with
  | [] => Some last_offset
  | line :: rest =>
      match field_of_line line with
      | None => size_walk last_offset rest
      | Some (_, offset, ctype) =>
          nt ← normalize_type ctype;
          let size := nt_size nt in
          let end_ := offset + size in
          size_walk (if bool_decide (end_ > last_offset) then end_ else last_offset) rest
      end
  end.

(** [sizes.get(parent, 0)]; [None] is never a key. *)
Definition size_get (sizes : gmap string Z) (parent : option string) : Z :=
  default 0 (parent ≫= (sizes !!.)).

Definition class_size (sizes : gmap string Z) (c : ordered_rec) : option Z :=
  last_offset ← size_walk 0 c.2;
  Some (Z.max last_offset (size_get sizes c.1.2)).

Fixpoint compute_sizes_from (sizes : gmap string Z) (ordered : list ordered_rec) :
    option (gmap string Z) :=
  match ordered with
  | [] => Some sizes
  | c :: rest =>
      size ← class_size sizes c;
      compute_sizes_from (<[c.1.1 := size]> sizes) rest
  end.

Definition compute_class_sizes (ordered : list ordered_rec) : option (gmap string Z) :=
  compute_sizes_from ∅ ordered.

(** ** Code emitter *)

Definition NL : string := String LF EmptyString.

(** What the field loop of [convert_file] appends to the output. *)
Inductive member : Type :=
  | MPad (last_offset pad_size : Z)
  | MArray (base_type var : string) (count offset : Z) (ctype : string)
  | MField (nt var : string) (offset : Z) (ctype : string).

(** The bytes by which the loop moves its cursor over a member. *)
Definition member_size (m : member) : Z :=
  match m with
  | MPad _ pad_size => pad_size
  | MArray base_type _ count _ _ => size_of base_type * count
  | MField nt _ _ _ => size_of nt
  end.

(** The text appended for a member. *)
Definition render (m : member) : string :=
  match m with
  | MPad last_offset pad_size =>
      "    char pad_" +:+ fmt_04X last_offset +:+ "[" +:+ fmt_d pad_size
        +:+ "];" +:+ NL
  | MArray base_type var count offset ctype =>
      "    " +:+ base_type +:+ " " +:+ var +:+ "[" +:+ fmt_d count
        +:+ "]; // 0x" +:+ fmt_04X offset +:+ " " +:+ ctype +:+ NL
  | MField nt var offset ctype =>
      "    " +:+ nt +:+ " " +:+ var +:+ "; // 0x" +:+ fmt_04X offset
        +:+ " " +:+ ctype +:+ NL
  end.

(** The field loop of [convert_file], from [last_offset]: the members
    appended and the final [last_offset]. *)
Fixpoint emit_walk (last_offset : Z) (fields : list string) :
    option (list member * Z) :=
  match fields with
  | [] => Some ([], last_offset)
  | line :: rest =>
      match field_of_line line with
      | None => emit_walk last_offset rest
      | Some (var, offset, ctype) =>
          if bool_decide (offset < last_offset) then emit_walk last_offset rest
          else
            let pad :=
              if bool_decide (offset > last_offset)
              then [MPad last_offset (offset - last_offset)] else [] in
            nt ← normalize_type ctype;
            let m :=
              match nt with
              | NArray base_type count => MArray base_type var count offset ctype
              | NScalar name => MField name var offset ctype
              end in
            r ← emit_walk (offset + nt_size nt) rest;
            Some (pad ++ m :: r.1, r.2)
      end
  end.

(** [sizes.get(parent, 0) if parent else 0] *)
Definition parent_size_of (sizes : gmap string Z) (parent : option string) : Z :=
  match parent with
  | Some p => if bool_decide (p ≠ EmptyString) then default 0 (sizes !! p) else 0
  | None => 0
  end.

(** [f" : public {parent}" if parent else ""] *)
Definition parent_decl (parent : option string) : string :=
  match parent with
  | Some p => if bool_decide (p ≠ EmptyString) then " : public " +:+ p else ""
  | None => ""
  end.

Definition class_header (c : ordered_rec) : string :=
  "class " +:+ c.1.1 +:+ parent_decl c.1.2 +:+ NL +:+ "{" +:+ NL
    +:+ "public:" +:+ NL.

Definition class_members (sizes : gmap string Z) (c : ordered_rec) :
    option (list member * Z) :=
  emit_walk (parent_size_of sizes c.1.2) c.2.

(** The chunks appended for one full declaration. *)
Definition class_chunks (sizes : gmap string Z) (c : ordered_rec) :
    option (list string) :=
  r ← class_members sizes c;
  Some (class_header c :: (render <$> r.1) ++ ["};" +:+ NL +:+ NL]).

Definition preamble : list string :=
  [ "#pragma once" +:+ NL; "#include <cstdint>" +:+ NL;
    "#include <cstddef>" +:+ NL +:+ NL;
    "struct Vector2 { float x, y; };" +:+ NL;
    "struct Vector3 { float x, y, z; };" +:+ NL;
    "struct Vector4 { float x, y, z, w; };" +:+ NL;
    "using QAngle = Vector3;" +:+ NL +:+ NL ].

Definition forward_decl (c : ordered_rec) : string :=
  "class " +:+ c.1.1 +:+ ";" +:+ NL.

(** What the loop over the full declarations appends to [output]. *)
Fixpoint decl_chunks (sizes : gmap string Z) (ordered : list ordered_rec) :
    option (list string) :=
  match ordered with
  | [] => Some []
  | c :: rest =>
      d ← class_chunks sizes c;
      ds ← decl_chunks sizes rest;
      Some (d ++ ds)
  end.

(** The list [output] at the end of [convert_file]. *)
Definition output_chunks (sizes : gmap string Z) (ordered : list ordered_rec) :
    option (list string) :=
  decls ← decl_chunks sizes ordered;
  Some (preamble ++ (forward_decl <$> ordered) ++ [NL] ++ decls).

(** ** Vocabulary of the layout properties *)

(** The declared offset of an emitted field; a padding member has none. *)
Definition member_offset (m : member) : option Z :=
  match m with
  | MPad _ _ => None
  | MArray _ _ _ offset _ => Some offset
  | MField _ _ offset _ => Some offset
  end.

Definition sum_sizes (ms : list member) : Z :=
  foldr (fun m acc => member_size m + acc) 0 ms.

(** [lands cur ms]: laid out from byte [cur], every field of [ms] starts at
    its declared offset, and every padding member is named after the byte
    it starts at, has a positive size and ends where the field after it
    starts. *)
Fixpoint lands (cur : Z) (ms : list member) : Prop :=
  match ms with
  | [] => True
  | MPad last_offset pad_size :: ms' =>
      last_offset = cur /\ 0 < pad_size /\
      (exists f ms'', ms' = f :: ms'' /\ member_offset f = Some (cur + pad_size)) /\
      lands (cur + pad_size) ms'
  | m :: ms' => member_offset m = Some cur /\ lands (cur + member_size m) ms'
  end.

(** The field lines among [fields], and the fields among [ms]. *)
Definition field_lines (fields : list string) : list string :=
  filter (fun line => is_Some (field_of_line line)) fields.

Definition emitted_fields (ms : list member) : list member :=
  filter (fun m => is_Some (member_offset m)) ms.

(** [ordered] names no class twice, and the parent of a record stands
    before it. *)
Definition well_ordered (ordered : list ordered_rec) : Prop :=
  NoDup (ordered.*1.*1) /\
  forall l1 n p b l2,
    ordered = l1 ++ (n, Some p, b) :: l2 -> p <> EmptyString /\ p ∈ l1.*1.*1.

Section Pipeline.
Variable set_iter : gset string -> list string.

Definition convert_file (text : string) : option string :=
  let classes := parse_classes text in
  ordered ← order_classes set_iter classes;
  sizes ← compute_class_sizes ordered;
  output ← output_chunks sizes ordered;
  Some (join output).
End Pipeline.

(** ** Example dumps *)

Definition line_health : string :=
  "constexpr std::ptrdiff_t m_flHealth = 0x0; // float32".
Definition line_pos : string :=
  "constexpr std::ptrdiff_t m_vecPos = 0x10; // Vector".

(** One class with no parent among the classes. *)
Definition dump_health : string :=
  "// Parent: None" +:+ NL +:+ "namespace C_Foo {" +:+ NL +:+
  "    " +:+ line_health +:+ NL +:+ "    " +:+ line_pos +:+ NL +:+ "}" +:+ NL.

Definition line_a : string := "constexpr std::ptrdiff_t a = 0x0; // int64".
Definition line_b : string := "constexpr std::ptrdiff_t b = 0x4; // Vector4".

(** One class whose second field starts inside the first. *)
Definition dump_overlap : string :=
  "// Parent: None" +:+ NL +:+ "namespace C {" +:+ NL +:+
  "    " +:+ line_a +:+ NL +:+ "    " +:+ line_b +:+ NL +:+ "}" +:+ NL.

Definition line_m : string := "constexpr std::ptrdiff_t m_a = 0x0; // int32".

(** Two blocks with the same class name. *)
Definition dump_twice : string :=
  "// Parent: X" +:+ NL +:+ "namespace A {" +:+ NL +:+ "}" +:+ NL +:+
  "// Parent: Y" +:+ NL +:+ "namespace A {" +:+ NL +:+
  "    " +:+ line_m +:+ NL +:+ "}" +:+ NL.

(** A parent after its child in the dump, and a class block with no parent
    annotation at the end. *)
Definition dump_family : string :=
  "// Parent: Base" +:+ NL +:+ "namespace Derived {" +:+ NL +:+
  "    " +:+ line_pos +:+ NL +:+ "}" +:+ NL +:+
  "// Parent: None" +:+ NL +:+ "namespace Base {" +:+ NL +:+
  "    " +:+ line_health +:+ NL +:+ "}" +:+ NL +:+
  "namespace Orphan {" +:+ NL +:+ "    " +:+ line_m +:+ NL +:+ "}" +:+ NL.

(** A parent and its child that name each other. *)
Definition dump_cycle : string :=
  "// Parent: B" +:+ NL +:+ "namespace A {" +:+ NL +:+ "}" +:+ NL +:+
  "// Parent: A" +:+ NL +:+ "namespace B {" +:+ NL +:+ "}" +:+ NL +:+
  "// Parent: None" +:+ NL +:+ "namespace Root {" +:+ NL +:+ "}" +:+ NL.

(** ** Vocabulary of the further properties *)

(** The name, offset and raw type an emitted field was read from; a
    padding member has none. *)
Definition member_source (m : member) : option (string * Z * string) :=
  match m with
  | MPad _ _ => None
  | MArray _ var _ offset ctype => Some (var, offset, ctype)
  | MField _ var offset ctype => Some (var, offset, ctype)
  end.

(** The emitted type of a field is the normalised raw type. *)
Definition member_typed (m : member) : Prop :=
  match m with
  | MPad _ _ => True
  | MArray base_type _ count _ ctype =>
      normalize_type ctype = Some (NArray base_type count)
  | MField nt _ _ ctype => normalize_type ctype = Some (NScalar nt)
  end.

(** [in_order cur fields]: from byte [cur] on, every field line starts at
    or after the end of the field line before it. *)
Fixpoint in_order (cur : Z) (fields : list string) : Prop :=
  match fields with
  | [] => True
  | line :: rest =>
      match field_of_line line with
      | None => in_order cur rest
      | Some (_, offset, ctype) =>
          cur <= offset /\
          forall nt, normalize_type ctype = Some nt ->
                     in_order (offset + nt_size nt) rest
      end
  end.

(** The type name of a normalised type: the string itself, or the base
    type of the tuple. *)
Definition ntype_name (nt : ntype) : string :=
  match nt with
  | NScalar name => name
  | NArray base _ => base
  end.

(** The names of the padding members of a class body. *)
Definition pad_name (m : member) : option string :=
  match m with
  | MPad last_offset _ => Some ("pad_" +:+ fmt_04X last_offset)
  | _ => None
  end.

(** The numbers printed for a member, read back with [int]: the offset of
    the comment in base 16, the array count and the padding size in base
    10. *)
Definition reads_back (m : member) : Prop :=
  match m with
  | MPad last_offset pad_size =>
      int_hex ("0x" +:+ fmt_04X last_offset) = last_offset /\
      int_dec (fmt_d pad_size) = pad_size
  | MArray _ _ count offset _ =>
      int_hex ("0x" +:+ fmt_04X offset) = offset /\
      int_dec (fmt_d count) = count
  | MField _ _ offset _ => int_hex ("0x" +:+ fmt_04X offset) = offset
  end.

(** [parent_in ordered n p]: the record of [n] in [ordered] has parent
    [p]. *)
Definition parent_in (ordered : list ordered_rec) (n p : string) : Prop :=
  exists body, (n, Some p, body) ∈ ordered.

(** [sub in s], computed: [sub] starts [s], or occurs further on. *)
Fixpoint starts_with (sub s : string) : bool :=
  match sub, s with
  | EmptyString, _ => true
  | String a sub', String b s' => if Ascii.eqb a b then starts_with sub' s' else false
  | String _ _, EmptyString => false
  end.

Fixpoint occurs_b (sub s : string) : bool :=
  starts_with sub s ||
  match s with
  | EmptyString => false
  | String _ s' => occurs_b sub s'
  end.

(** [ancestry_wf classes n]: no chain of child-to-parent edges that starts
    at [n] goes on for ever; among finitely many classes, no class on a
    cycle of the dependency graph can be reached from [n]. *)
Definition ancestry_wf (classes : list class_rec) (n : string) : Prop :=
  Acc (fun p c => edge (name_to_class_of classes) classes c p) n.


(** ** The program under the digit limit of [int] and [str]

    From version 3.11 on, CPython refuses to convert between [int] and a
    decimal [str] of more than [sys.int_info.default_max_str_digits] digits:
    [int(s)] and [str(n)], hence [f"{n}"], raise [ValueError].  Base 16 has no
    such limit, neither for [int(s, 16)] nor for [f"{n:04X}"].  The
    functions above are the program with the limit lifted
    ([sys.set_int_max_str_digits(0)]); the functions below, named with
    [_lim], are the program under the default limit, and tell the two
    exceptions apart. *)

Inductive exn : Type := KeyError | ValueError.

(** A computation that returns a value or raises. *)
Inductive result (A : Type) : Type :=
  | Ok (a : A)
  | Raise (e : exn).
Arguments Ok {A} a.
Arguments Raise {A} e.

#[global] Instance result_bind : MBind result := fun A B k r =>
  match r with
  | Ok a => k a
  | Raise e => Raise e
  end.

(** [d[k]] *)
Definition subscript {V} (d : gmap string V) (k : string) : result V :=
  match d !! k with
  | Some v => Ok v
  | None => Raise KeyError
  end.

Definition max_str_digits : Z := 4300.

(** [int(s)] on a string of decimal digits; leading zeros count as
    digits. *)
Definition int_dec_lim (s : string) : result Z :=
  if max_str_digits <? Z.of_nat (String.length s) then Raise ValueError
  else Ok (int_dec s).

(** [f"{n}"]: [n] has more than [max_str_digits] decimal digits exactly
    when [10 ^ max_str_digits <= |n|]. *)
Definition fmt_d_lim (n : Z) : result string :=
  if 10 ^ max_str_digits <=? Z.abs n then Raise ValueError else Ok (fmt_d n).

Definition normalize_type_lim (ctype : string) : result ntype :=
  let ctype := strip ctype in
  match re_match array_pattern ctype with
  | Some (groups, _) =>
      let base := strip (group 1 groups) in
      count ← int_dec_lim (group 2 groups);
      if in_keys base type_map then
        t ← subscript type_map base; Ok (NArray t count)
      else if in_values base type_map then Ok (NArray base count)
      else Ok (NArray "uint32_t" count)
  | None =>
      if in_keys ctype array_map then
        t ← subscript array_map ctype; Ok (NScalar t)
      else if in_keys ctype type_map then
        t ← subscript type_map ctype; Ok (NScalar t)
      else if in_values ctype type_map then Ok (NScalar ctype)
      else if in_keys ctype special_map then
        e ← subscript special_map ctype; Ok (NScalar e.1)
      else Ok (NScalar "uint32_t")
  end.

(** The field loop of [compute_class_sizes]. *)
Fixpoint size_walk_lim (last_offset : Z) (fields : list string) : result Z :=
  match fields with
  | [] => Ok last_offset
  | line :: rest =>
      match field_of_line line with
      | None => size_walk_lim last_offset rest
      | Some (_, offset, ctype) =>
          nt ← normalize_type_lim ctype;
          let size := nt_size nt in
          let end_ := offset + size in
          size_walk_lim
            (if bool_decide (end_ > last_offset) then end_ else last_offset) rest
      end
  end.

Definition class_size_lim (sizes : gmap string Z) (c : ordered_rec) : result Z :=
  last_offset ← size_walk_lim 0 c.2;
  Ok (Z.max last_offset (size_get sizes c.1.2)).

Fixpoint compute_sizes_from_lim (sizes : gmap string Z)
    (ordered : list ordered_rec) : result (gmap string Z) :=
  match ordered with
  | [] => Ok sizes
  | c :: rest =>
      size ← class_size_lim sizes c;
      compute_sizes_from_lim (<[c.1.1 := size]> sizes) rest
  end.

Definition compute_class_sizes_lim (ordered : list ordered_rec) :
    result (gmap string Z) :=
  compute_sizes_from_lim ∅ ordered.

(** The padding member appended, if any, when the cursor is at
    [last_offset] and the next field at [offset]. *)
Definition pad_chunk_lim (last_offset offset : Z) : result (list string) :=
  if bool_decide (offset > last_offset) then
    pad_size ← fmt_d_lim (offset - last_offset);
    Ok ["    char pad_" +:+ fmt_04X last_offset +:+ "[" +:+ pad_size
          +:+ "];" +:+ NL]
  else Ok [].

(** The line appended for a field. *)
Definition field_chunk_lim (nt : ntype) (var : string) (offset : Z)
    (ctype : string) : result string :=
  match nt with
  | NArray base_type count =>
      count_str ← fmt_d_lim count;
      Ok ("    " +:+ base_type +:+ " " +:+ var +:+ "[" +:+ count_str
            +:+ "]; // 0x" +:+ fmt_04X offset +:+ " " +:+ ctype +:+ NL)
  | NScalar name =>
      Ok ("    " +:+ name +:+ " " +:+ var +:+ "; // 0x"
            +:+ fmt_04X offset +:+ " " +:+ ctype +:+ NL)
  end.

(** The field loop of [convert_file]: the chunks appended to [output], in
    the order in which the loop formats them, and the final
    [last_offset]. *)
Fixpoint emit_walk_lim (last_offset : Z) (fields : list string) :
    result (list string * Z) :=
  match fields with
  | [] => Ok ([], last_offset)
  | line :: rest =>
      match field_of_line line with
      | None => emit_walk_lim last_offset rest
      | Some (var, offset, ctype) =>
          if bool_decide (offset < last_offset) then emit_walk_lim last_offset rest
          else
            pad ← pad_chunk_lim last_offset offset;
            nt ← normalize_type_lim ctype;
            chunk ← field_chunk_lim nt var offset ctype;
            r ← emit_walk_lim (offset + nt_size nt) rest;
            Ok (pad ++ chunk :: r.1, r.2)
      end
  end.

Definition class_chunks_lim (sizes : gmap string Z) (c : ordered_rec) :
    result (list string) :=
  r ← emit_walk_lim (parent_size_of sizes c.1.2) c.2;
  Ok (class_header c :: r.1 ++ ["};" +:+ NL +:+ NL]).

Fixpoint decl_chunks_lim (sizes : gmap string Z) (ordered : list ordered_rec) :
    result (list string) :=
  match ordered with
  | [] => Ok []
  | c :: rest =>
      d ← class_chunks_lim sizes c;
      ds ← decl_chunks_lim sizes rest;
      Ok (d ++ ds)
  end.

Definition output_chunks_lim (sizes : gmap string Z) (ordered : list ordered_rec) :
    result (list string) :=
  decls ← decl_chunks_lim sizes ordered;
  Ok (preamble ++ (forward_decl <$> ordered) ++ [NL] ++ decls).

(** [convert_file]; a [None] of [order_classes] is a [KeyError] there (or
    a loop that does not end). *)
Definition convert_file_lim (set_iter : gset string -> list string)
    (text : string) : result string :=
  let classes := parse_classes text in
  ordered ←
    match order_classes set_iter classes with
    | Some ordered => Ok ordered
    | None => Raise KeyError
    end;
  sizes ← compute_class_sizes_lim ordered;
  output ← output_chunks_lim sizes ordered;
  Ok (join output).

(** Every field line of [fields] has an offset that prints in decimal and
    a raw type whose array count, if any, [int] accepts. *)
Definition within_limit (fields : list string) : Prop :=
  forall line var offset ctype,
    line ∈ fields -> field_of_line line = Some (var, offset, ctype) ->
    offset < 10 ^ max_str_digits /\
    normalize_type_lim ctype <> Raise ValueError.

(** A raw type of [k] zeros between brackets. *)
Definition long_count (k : nat) : string := "a[" +:+ zeros k +:+ "]".

(** A class with a field whose array count has 4301 digits, and a class
    with one field at offset [16 ^ 3600], which is more than
    [10 ^ 4300]. *)
Definition dump_long_count : string :=
  "// Parent: None" +:+ NL +:+ "namespace C {" +:+ NL +:+
  "    constexpr std::ptrdiff_t a = 0x0; // " +:+ long_count 4301 +:+ NL +:+
  "}" +:+ NL.

Definition dump_far_field : string :=
  "// Parent: None" +:+ NL +:+ "namespace C {" +:+ NL +:+
  "    constexpr std::ptrdiff_t b = 0x1" +:+ zeros 3600 +:+ "; // int32" +:+ NL +:+
  "}" +:+ NL.


(** * Properties *)

(** ** Strings *)

Lemma app_cons_s (c : ascii) (s t : string) :
  String c s +:+ t = String c (s +:+ t).
Proof. reflexivity. Qed.

Lemma app_nil_l_s (s : string) : "" +:+ s = s.
Proof. reflexivity. Qed.

Lemma app_nil_r_s (s : string) : s +:+ "" = s.
Proof.
  induction s as [|c s IH]; [done|]. by rewrite app_cons_s, IH.
Qed.

Lemma app_assoc_s (s1 s2 s3 : string) : (s1 +:+ s2) +:+ s3 = s1 +:+ s2 +:+ s3.
Proof.
  induction s1 as [|c s1 IH]; [done|]. by rewrite !app_cons_s, IH.
Qed.

Lemma app_length_s (s1 s2 : string) :
  String.length (s1 +:+ s2) = (String.length s1 + String.length s2)%nat.
Proof.
  induction s1 as [|c s1 IH]; [done|]. rewrite app_cons_s. simpl. by rewrite IH.
Qed.

Lemma substring_app_s (w s : string) :
  String.substring 0 (String.length w) (w +:+ s) = w.
Proof.
  induction w as [|c w IH]; [by destruct s|].
  rewrite app_cons_s. simpl. by rewrite IH.
Qed.

Lemma captured_app (w s : string) : captured (w +:+ s) s = w.
Proof.
  unfold captured. rewrite app_length_s.
  replace (String.length w + String.length s - String.length s)%nat
    with (String.length w) by lia.
  apply substring_app_s.
Qed.

(** ** The tables *)

Lemma in_keys_true {V} (k : string) (d : gmap string V) :
  in_keys k d = true -> exists v, d !! k = Some v.
Proof. unfold in_keys. intros H%bool_decide_eq_true. exact H. Qed.

Lemma size_of_uint32 : size_of "uint32_t" = 4.
Proof. vm_compute. reflexivity. Qed.

Lemma array_map_keys (k v : string) :
  array_map !! k = Some v ->
  k = "Vector2D" \/ k = "float[2]" \/ k = "float[3]" \/ k = "float[4]".
Proof.
  intros H. apply elem_of_list_to_map_2 in H.
  repeat (apply elem_of_cons in H as [H|H]; [injection H as -> ->; tauto|]).
  by apply elem_of_nil in H.
Qed.

(** ** Type normaliser *)

Lemma normalize_type_is_Some (ctype : string) : is_Some (normalize_type ctype).
Proof.
  unfold normalize_type.
  destruct (re_match array_pattern (strip ctype)) as [[groups rest]|].
  - destruct (in_keys _ type_map) eqn:Hk.
    + apply in_keys_true in Hk as [t ->]. by eexists.
    + destruct (in_values _ type_map); by eexists.
  - destruct (in_keys _ array_map) eqn:Ha.
    { apply in_keys_true in Ha as [t ->]. by eexists. }
    destruct (in_keys _ type_map) eqn:Hk.
    { apply in_keys_true in Hk as [t ->]. by eexists. }
    destruct (in_values _ type_map); [by eexists|].
    destruct (in_keys _ special_map) eqn:Hs; [|by eexists].
    apply in_keys_true in Hs as [t ->]. by eexists.
Qed.

Lemma array_map_keys_shadowed (k : string) :
  in_keys k array_map = true ->
  in_keys k type_map = true \/ is_Some (re_match array_pattern k).
Proof.
  intros [v Hv]%in_keys_true.
  apply array_map_keys in Hv as [E|[E|[E|E]]]; subst k;
    [left | right | right | right]; vm_compute; eauto.
Qed.

(** With the digit limit lifted, [normalize_type] returns on every string
    (no subscript raises); a string that, once trimmed as the function does
    first, matches no array pattern and is no key of [type_map], no value
    of it and no key of [special_map] gives the scalar [uint32_t] of 4
    bytes; an array pattern whose base is no key and no value of
    [type_map] gives an array of [uint32_t], 4 bytes each, with the count
    of the pattern. *)
Lemma normalize_type_fallback (ctype : string) :
  exists nt, normalize_type ctype = Some nt /\
    (re_match array_pattern (strip ctype) = None ->
     in_keys (strip ctype) type_map = false ->
     in_values (strip ctype) type_map = false ->
     in_keys (strip ctype) special_map = false ->
     nt = NScalar "uint32_t" /\ nt_size nt = 4) /\
    (forall groups rest,
     re_match array_pattern (strip ctype) = Some (groups, rest) ->
     in_keys (strip (group 1 groups)) type_map = false ->
     in_values (strip (group 1 groups)) type_map = false ->
     nt = NArray "uint32_t" (int_dec (group 2 groups)) /\
     nt_size nt = 4 * int_dec (group 2 groups)).
Proof.
  destruct (normalize_type_is_Some ctype) as [nt Hnt].
  exists nt. split; [done|]. unfold normalize_type in Hnt. split.
  - intros Hno Hk Hv Hs. rewrite Hno, Hk, Hv, Hs in Hnt.
    destruct (in_keys _ array_map) eqn:Ha.
    + apply array_map_keys_shadowed in Ha as [Ha|[r Ha]]; congruence.
    + injection Hnt as <-. split; [done|]. unfold nt_size. apply size_of_uint32.
  - intros groups rest Hm Hk Hv. rewrite Hm, Hk, Hv in Hnt.
    injection Hnt as <-. split; [done|]. unfold nt_size. by rewrite size_of_uint32.
Qed.

(** C9. The raw type [float[3]] is normalised by the bracketed-array rule,
    to an array of 3 [float] of 4 bytes each, 12 bytes in all, although
    [array_map] maps the same string to [Vector3]. *)
Theorem float3_array_rule_first :
  re_match array_pattern (strip "float[3]") = Some (["float"; "3"], "") /\
  array_map !! "float[3]" = Some "Vector3" /\
  normalize_type "float[3]" = Some (NArray "float" 3) /\
  size_of "float" = 4 /\
  nt_size (NArray "float" 3) = 12.
Proof.
  split; [|split; [|split; [|split]]]; vm_compute; reflexivity.
Qed.



(** ** Dependency orderer: the dicts it builds *)

Lemma dict_keys_spec (names : list string) :
  NoDup (dict_keys names) /\ forall x, x ∈ dict_keys names <-> x ∈ names.
Proof.
  unfold dict_keys. induction names as [|n names [IH1 IH2]] using rev_ind.
  - split; [constructor|]. intros x. simpl. done.
  - rewrite foldl_snoc. case_bool_decide as Hn.
    + split; [done|]. intros x. rewrite IH2, elem_of_app, list_elem_of_singleton.
      split; [tauto|]. intros [?| ->]; [done|]. by apply IH2.
    + split.
      * apply NoDup_app. split_and!; [done| |apply NoDup_singleton].
        intros x Hx ->%list_elem_of_singleton. done.
      * intros x. rewrite !elem_of_app, IH2. done.
Qed.

Lemma name_to_class_last (classes : list class_rec) (n : string) (c : class_rec) :
  name_to_class_of classes !! n = Some c ->
  c.1.1 = n /\ exists l1 l2, classes = l1 ++ c :: l2 /\ n ∉ l2.*1.*1.
Proof.
  unfold name_to_class_of. revert c.
  induction classes as [|x classes IH] using rev_ind; intros c.
  - simpl. by rewrite lookup_empty.
  - rewrite foldl_snoc. destruct (decide (x.1.1 = n)) as [E|E].
    + rewrite <- E, lookup_insert_eq. intros [= <-]. split; [done|].
      exists classes, []. split; [done|]. simpl. apply not_elem_of_nil.
    + rewrite lookup_insert_ne by done. intros H.
      destruct (IH c H) as (Hc & l1 & l2 & -> & Hl2). split; [done|].
      exists l1, (l2 ++ [x]). split; [by rewrite <- app_assoc|].
      rewrite !fmap_app, elem_of_app. simpl. rewrite list_elem_of_singleton.
      intros [?|?]; [done|]. by apply E.
Qed.

Lemma name_to_class_dom (classes : list class_rec) (n : string) :
  is_Some (name_to_class_of classes !! n) <-> n ∈ classes.*1.*1.
Proof.
  unfold name_to_class_of.
  induction classes as [|x classes IH] using rev_ind.
  - simpl. rewrite lookup_empty. split; [by intros [? ?]|by intros ?%elem_of_nil].
  - rewrite foldl_snoc, !fmap_app, elem_of_app. simpl.
    rewrite list_elem_of_singleton, <- IH.
    destruct (decide (x.1.1 = n)) as [E|E].
    + rewrite <- E, lookup_insert_eq. split; [by right|by eexists].
    + rewrite lookup_insert_ne by done. split; [by left|].
      intros [?|?]; [done|]. by destruct E.
Qed.

Lemma set_of_add_to (d : gmap string (gset string)) (k v k' : string) :
  set_of (add_to d k v) k' =
    if decide (k = k') then {[v]} ∪ set_of d k else set_of d k'.
Proof.
  unfold add_to, set_of at 1. rewrite lookup_insert. by case_decide.
Qed.

Lemma set_of_empty (k : string) : set_of ∅ k = ∅.
Proof. unfold set_of. by rewrite lookup_empty. Qed.

Lemma deps_step_eq (M : gmap string class_rec)
    (acc : gmap string (gset string) * gmap string (gset string))
    (n p : string) (b : list string) :
  deps_step M acc (n, p, b) =
    if bool_decide (p ≠ "") && in_keys p M
    then (add_to acc.1 n p, add_to acc.2 p n) else acc.
Proof. reflexivity. Qed.

Lemma build_deps_spec (M : gmap string class_rec) (classes : list class_rec) :
  forall n p,
    (p ∈ set_of (build_deps M classes).1 n <-> edge M classes n p) /\
    (n ∈ set_of (build_deps M classes).2 p <-> edge M classes n p).
Proof.
  unfold build_deps, edge.
  induction classes as [|x classes IH] using rev_ind; intros n p.
  - simpl. rewrite !set_of_empty.
    split; (split; [set_solver|]); intros [[b Hb%elem_of_nil] _]; done.
  - rewrite foldl_snoc. destruct x as [[xn xp] xb]. rewrite deps_step_eq.
    assert (Hlast : forall b, (n, p, b) ∈ classes ++ [(xn, xp, xb)] <->
              (n, p, b) ∈ classes \/ (n = xn /\ p = xp /\ b = xb)).
    { intros b. rewrite elem_of_app, list_elem_of_singleton.
      split; (intros [?|H]; [by left|right]); [by injection H|].
      by destruct H as (-> & -> & ->). }
    destruct (IH n p) as [IHd IHr].
    destruct (bool_decide (xp ≠ "") && in_keys xp M) eqn:Hc; simpl.
    + apply andb_true_iff in Hc as [Hne%bool_decide_eq_true HM%in_keys_true].
      rewrite !set_of_add_to.
      split.
      * case_decide as E; [subst xn|].
        -- rewrite elem_of_union, elem_of_singleton, IHd. split.
           ++ intros [->|([b Hb] & ? & ?)]; (split; [|done]);
                [exists xb|exists b]; apply Hlast; [right|left]; done.
           ++ intros ([b Hb] & ? & ?). apply Hlast in Hb as [Hb|(_ & -> & _)];
                [right|left]; [|done]. split; [by exists b|done].
        -- rewrite IHd. split.
           ++ intros ([b Hb] & ? & ?). split; [|done]. exists b. apply Hlast. by left.
           ++ intros ([b Hb] & ? & ?). apply Hlast in Hb as [Hb|(-> & _)];
                [|done]. split; [by exists b|done].
      * case_decide as E; [subst xp|].
        -- rewrite elem_of_union, elem_of_singleton,  IHr. split.
           ++ intros [->|([b Hb] & ? & ?)]; (split; [|done]);
                [exists xb|exists b]; apply Hlast; [right|left]; done.
           ++ intros ([b Hb] & ? & ?). apply Hlast in Hb as [Hb|(-> & _ & _)];
                [right|left]; [|done]. split; [by exists b|done].
        -- rewrite IHr. split.
           ++ intros ([b Hb] & ? & ?). split; [|done]. exists b. apply Hlast. by left.
           ++ intros ([b Hb] & ? & ?). apply Hlast in Hb as [Hb|(_ & -> & _)];
                [|done]. split; [by exists b|done].
    + assert (Hno : ~ (xp <> "" /\ is_Some (M !! xp))).
      { intros [H1 H2]. apply andb_false_iff in Hc as [Hc|Hc].
        - by apply bool_decide_eq_false in Hc.
        - unfold in_keys in Hc. by apply bool_decide_eq_false in Hc. }
      rewrite IHd, IHr.
      split; (split; intros ([b Hb] & H1 & H2);
        [split; [|done]; exists b; apply Hlast; by left|]);
        (apply Hlast in Hb as [Hb|(-> & -> & _)];
          [split; [by exists b|done] | exfalso; apply Hno; by split]).
Qed.

Lemma indegree_of_spec (deps : gmap string (gset string))
    (classes : list class_rec) (n : string) :
  indegree_of deps classes !! n =
    if decide (n ∈ classes.*1.*1) then Some (Z.of_nat (size (set_of deps n)))
    else None.
Proof.
  unfold indegree_of. induction classes as [|x classes IH] using rev_ind.
  - change (foldl _ ∅ []) with (∅ : gmap string Z). rewrite lookup_empty.
    rewrite decide_False; [done|]. apply not_elem_of_nil.
  - rewrite foldl_snoc, !fmap_app. simpl.
    destruct (decide (x.1.1 = n)) as [E|E].
    + rewrite <- E, lookup_insert_eq. rewrite decide_True; [done|].
      apply elem_of_app. right. by apply list_elem_of_singleton.
    + rewrite lookup_insert_ne, IH by done.
      destruct (decide (n ∈ classes.*1.*1)) as [H|H];
        destruct (decide _) as [H'|H']; try done.
      * destruct H'. apply elem_of_app. by left.
      * apply elem_of_app in H' as [?|?%list_elem_of_singleton]; [done|].
        by destruct E.
Qed.



(** ** Dependency orderer: the inner loop *)

Lemma filter_ext_in {A} (P1 P2 : A -> Prop)
    `{!forall x, Decision (P1 x), !forall x, Decision (P2 x)} (l : list A) :
  (forall x, x ∈ l -> P1 x <-> P2 x) -> filter P1 l = filter P2 l.
Proof.
  induction l as [|a l IH]; intros Hext; [done|].
  rewrite !filter_cons.
  rewrite IH by (intros x Hx; apply Hext; by right).
  pose proof (Hext a (list_elem_of_here _ _)) as Ha.
  destruct (decide (P1 a)), (decide (P2 a)); tauto.
Qed.

Lemma relax_all_spec (L : list string) :
  NoDup L ->
  forall (ind : gmap string Z) (q : list string),
    (forall n, n ∈ L -> is_Some (ind !! n)) ->
    exists ind',
      relax_all (ind, q) L =
        Some (ind', q ++ filter (fun n => ind !! n = Some 1) L) /\
      forall n, ind' !! n =
        if decide (n ∈ L) then (fun d => d - 1) <$> ind !! n else ind !! n.
Proof.
  induction 1 as [|dep L Hdep HL IH]; intros ind q Hk.
  - exists ind. split; [simpl; by rewrite app_nil_r|]. intros n.
    rewrite decide_False; [done|]. apply not_elem_of_nil.
  - destruct (Hk dep) as [d Hd]; [by left|].
    destruct (IH (<[dep := d - 1]> ind)
                 (if bool_decide (d - 1 = 0) then q ++ [dep] else q))
      as (ind' & Hrun & Hind').
    { intros n Hn. rewrite lookup_insert_ne; [|by intros ->].
      apply Hk. by right. }
    exists ind'. split.
    + change (relax_all (ind, q) (dep :: L))
        with (relax (ind, q) dep ≫= fun st' => relax_all st' L).
      unfold relax. cbn [fst snd]. rewrite Hd. cbn [mbind option_bind].
      rewrite Hrun. f_equal. f_equal.
      assert (Hf : filter (fun n => <[dep := d - 1]> ind !! n = Some 1) L
                   = filter (fun n => ind !! n = Some 1) L).
      { apply filter_ext_in. intros n Hn.
        rewrite lookup_insert_ne; [done|]. by intros ->. }
      rewrite Hf, filter_cons. rewrite Hd.
      destruct (decide (Some d = Some 1)) as [E|E]; case_bool_decide as E'.
      * by rewrite <- app_assoc.
      * injection E as ->. lia.
      * destruct E. f_equal. lia.
      * done.
    + intros n. rewrite Hind'. destruct (decide (n = dep)) as [->|Hne].
      * rewrite decide_False by done. rewrite lookup_insert_eq.
        rewrite decide_True by (by left). by rewrite Hd.
      * rewrite lookup_insert_ne by done.
        destruct (decide (n ∈ L)) as [Hn|Hn].
        -- rewrite decide_True; [done|by right].
        -- rewrite decide_False; [done|].
           intros [?|?]%elem_of_cons; done.
Qed.

(** ** Dependency orderer: the invariant of the loop *)

Lemma NoDup_length_le_size (l : list string) (X : gset string) :
  NoDup l -> (forall x, x ∈ l -> x ∈ X) -> (length l <= size X)%nat.
Proof.
  intros Hl Hsub. rewrite <- (size_list_to_set (C:=gset string) l Hl).
  apply subseteq_size. intros x Hx. apply Hsub. by apply elem_of_list_to_set in Hx.
Qed.

Lemma done_set_snoc (ordered : list ordered_rec) (x : ordered_rec) :
  done_set (ordered ++ [x]) = done_set ordered ∪ {[x.1.1]}.
Proof.
  unfold done_set. rewrite !fmap_app, list_to_set_app_L. simpl.
  by rewrite union_empty_r_L.
Qed.

Lemma elem_of_done_set (ordered : list ordered_rec) (n : string) :
  n ∈ done_set ordered <-> n ∈ ordered.*1.*1.
Proof. unfold done_set. apply elem_of_list_to_set. Qed.

Lemma remaining_zero (deps : gmap string (gset string)) (D : gset string)
    (n : string) :
  remaining deps D n = 0 <-> set_of deps n ⊆ D.
Proof.
  unfold remaining. split.
  - intros H. assert (size (set_of deps n ∖ D) = 0%nat) as H0 by lia.
    apply size_empty_iff in H0. set_solver.
  - intros H. assert (set_of deps n ∖ D ≡ ∅) as H0 by set_solver.
    apply size_empty_iff in H0. lia.
Qed.

Lemma remaining_step (deps : gmap string (gset string)) (D : gset string)
    (name n : string) :
  name ∉ D ->
  remaining deps (D ∪ {[name]}) n =
    if decide (name ∈ set_of deps n) then remaining deps D n - 1
    else remaining deps D n.
Proof.
  intros Hname. unfold remaining. case_decide as Hin.
  - assert (set_of deps n ∖ D = {[name]} ∪ set_of deps n ∖ (D ∪ {[name]})) as ->.
    { apply set_eq. intros x. destruct (decide (x = name)); set_solver. }
    rewrite (size_union (C:=gset string) {[name]}
               (set_of deps n ∖ (D ∪ {[name]}))) by set_solver.
    rewrite size_singleton. lia.
  - f_equal. f_equal. set_solver.
Qed.

Section Kahn.
Variable set_iter : gset string -> list string.
Hypothesis set_iter_perm : forall X, set_iter X ≡ₚ elements X.
Variable M : gmap string class_rec.
Variables deps rev_deps : gmap string (gset string).
Hypothesis rev_deps_spec :
  forall n p, n ∈ set_of rev_deps p <-> p ∈ set_of deps n.
Hypothesis deps_names : forall n p, p ∈ set_of deps n -> n ∈ dom M.

Lemma set_iter_elem (X : gset string) (n : string) : n ∈ set_iter X <-> n ∈ X.
Proof. rewrite (set_iter_perm X). apply elem_of_elements. Qed.

Lemma set_iter_NoDup (X : gset string) : NoDup (set_iter X).
Proof. rewrite (set_iter_perm X). apply NoDup_elements. Qed.

(** One iteration of the loop keeps the invariant, and raises no
    [KeyError]. *)
Lemma loop_step (indegree : gmap string Z) (name : string)
    (queue : list string) (ordered : list ordered_rec) :
  loop_inv M deps indegree (name :: queue) ordered ->
  exists c st,
    M !! name = Some c /\
    relax_all (indegree, queue) (set_iter (set_of rev_deps name)) = Some st /\
    loop_inv M deps st.1 st.2
      (ordered ++ [(name, if in_keys c.1.2 M then Some c.1.2 else None, c.2)]).
Proof.
  intros [Hnd Hnm Hind Hrdy Hrec Hprec].
  set (L := set_iter (set_of rev_deps name)).
  set (D := done_set ordered) in *.
  assert (HnameM : name ∈ dom M).
  { apply Hnm. apply elem_of_app. right. by left. }
  assert (HnameD : name ∉ D).
  { intros H%elem_of_done_set. apply NoDup_app in Hnd as (_ & Hd & _).
    apply (Hd name H). by left. }
  assert (HL : forall n, n ∈ L <-> name ∈ set_of deps n).
  { intros n. unfold L. by rewrite set_iter_elem, rev_deps_spec. }
  assert (HLM : forall n, n ∈ L -> n ∈ dom M).
  { intros n Hn%HL. by eapply deps_names. }
  apply elem_of_dom in HnameM as [c Hc]. exists c.
  destruct (relax_all_spec L (set_iter_NoDup _) indegree queue)
    as (ind' & Hrun & Hind').
  { intros n Hn. rewrite (Hind n (HLM n Hn)). by eexists. }
  exists (ind', queue ++ filter (fun n => indegree !! n = Some 1) L).
  split; [done|]. split; [done|]. cbn [fst snd].
  set (x := (name, if in_keys c.1.2 M then Some c.1.2 else None, c.2)).
  assert (HD' : done_set (ordered ++ [x]) = D ∪ {[name]}) by apply done_set_snoc.
  assert (Hnew : forall n, n ∈ filter (fun n => indegree !! n = Some 1) L <->
            n ∈ L /\ remaining deps D n = 1).
  { intros n. rewrite list_elem_of_filter. split.
    - intros [H1 H2]. split; [done|]. rewrite (Hind n (HLM n H2)) in H1.
      by injection H1.
    - intros [H1 H2]. split; [|done]. by rewrite (Hind n (HLM n H1)), H2. }
  assert (Hmem : forall n, n ∈ (ordered ++ [x]).*1.*1 ++ queue ++
              filter (fun n => indegree !! n = Some 1) L <->
            n ∈ ordered.*1.*1 ++ name :: queue \/
            (n ∈ L /\ remaining deps D n = 1)).
  { intros n. rewrite !fmap_app, !elem_of_app, Hnew. simpl.
    rewrite list_elem_of_singleton, elem_of_cons. tauto. }
  constructor.
  - (* no duplicates *)
    rewrite !fmap_app, <- !app_assoc. simpl.
    apply NoDup_app in Hnd as (Hn1 & Hn2 & Hn3).
    apply NoDup_cons in Hn3 as [Hn3 Hn4].
    assert (Hfresh : forall n, n ∈ filter (fun n => indegree !! n = Some 1) L ->
              n ∉ ordered.*1.*1 ++ name :: queue).
    { intros n [HnL Hn1']%Hnew Hold. apply Hrdy in Hold; [|by apply HLM].
      apply (remaining_zero deps) in Hold. fold D in Hold. lia. }
    apply NoDup_app. split_and!; [done| |].
    + intros n Hn [->|[Hq|Hf]%elem_of_app]%elem_of_cons.
      * apply (Hn2 name Hn). by left.
      * apply (Hn2 n Hn). by right.
      * apply (Hfresh n Hf). apply elem_of_app. by left.
    + apply NoDup_cons. split.
      * intros [Hq|Hf]%elem_of_app; [done|].
        apply (Hfresh name Hf). apply elem_of_app. right. by left.
      * apply NoDup_app. split_and!; [done| |by apply NoDup_filter, set_iter_NoDup].
        intros n Hq Hf. apply (Hfresh n Hf). apply elem_of_app. right. by right.
  - (* names *)
    intros n [Hold|[HnL _]]%Hmem; [by apply Hnm|by apply HLM].
  - (* indegree *)
    intros n Hn. rewrite Hind', HD', (remaining_step deps D name n HnameD), (Hind n Hn).
    simpl. destruct (decide (n ∈ L)) as [H|H], (decide (name ∈ set_of deps n)) as [H'|H'];
      try done; by apply HL in H || apply HL in H'.
  - (* ready *)
    intros n Hn. rewrite Hmem, HD', (Hrdy n Hn).
    rewrite <- !(remaining_zero deps), (remaining_step deps D name n HnameD), HL.
    fold D. case_decide as Hd; [|intuition lia].
    split; [intros [H0|[_ H1]]; [|lia]|intros H1; right; split; [done|lia]].
    apply (remaining_zero deps) in H0. exfalso. by apply HnameD, H0.
  - (* records *)
    intros n op b [Hold|Hnew']%elem_of_app.
    + by apply Hrec.
    + apply list_elem_of_singleton in Hnew'. unfold x in Hnew'.
      injection Hnew' as -> -> ->. by exists c.
  - (* parents first *)
    intros l1 y l2 Heq.
    destruct l2 as [|z l2 _] using rev_ind.
    + apply app_inj_tail in Heq as [<- <-]. simpl.
      apply Hrdy; [by apply elem_of_dom|]. apply elem_of_app. right. by left.
    + rewrite app_comm_cons, app_assoc in Heq.
      apply app_inj_tail in Heq as [Heq _]. by eapply Hprec.
Qed.

(** The loop ends within its fuel, raises no [KeyError], and its result
    satisfies the invariant with an empty queue. *)
Lemma order_loop_inv (fuel : nat) :
  forall (indegree : gmap string Z) (queue : list string)
         (ordered : list ordered_rec),
    loop_inv M deps indegree queue ordered ->
    (size (dom M) <= length ordered + fuel)%nat ->
    exists res ind',
      order_loop set_iter fuel M rev_deps indegree queue ordered = Some res /\
      loop_inv M deps ind' [] res.
Proof.
  induction fuel as [|fuel IH]; intros indegree queue ordered Hinv Hfuel.
  - destruct queue as [|name queue].
    + exists ordered, indegree. by split.
    + exfalso. destruct Hinv as [Hnd Hnm _ _ _ _].
      pose proof (NoDup_length_le_size _ _ Hnd Hnm) as Hlen.
      rewrite length_app, !length_fmap in Hlen. simpl in Hlen. lia.
  - destruct queue as [|name queue].
    + exists ordered, indegree. by split.
    + destruct (loop_step _ _ _ _ Hinv) as (c & st & Hc & Hrun & Hinv').
      destruct (IH st.1 st.2 _ Hinv') as (res & ind' & Hres & Hfin).
      { rewrite length_app. simpl. lia. }
      exists res, ind'. split; [|done].
      cbn [order_loop]. rewrite Hc. cbn [mbind option_bind].
      rewrite Hrun. cbn [mbind option_bind]. exact Hres.
Qed.

End Kahn.

(** ** Dependency orderer: [order_classes] *)

Lemma name_to_class_size (classes : list class_rec) :
  (size (dom (name_to_class_of classes)) <= length classes)%nat.
Proof.
  unfold name_to_class_of. induction classes as [|x classes IH] using rev_ind.
  - simpl. by rewrite dom_empty_L, size_empty.
  - rewrite foldl_snoc, dom_insert_L, length_app. simpl.
    set (X := dom _) in *.
    rewrite size_union_alt, size_singleton.
    assert (Hs : (size (X ∖ {[x.1.1]}) <= size X)%nat).
    { apply subseteq_size. set_solver. }
    lia.
Qed.

(** [order_classes] returns on every list of classes, and its result
    satisfies the invariant of the loop with an empty queue. *)
Lemma order_classes_inv (set_iter : gset string -> list string)
    (classes : list class_rec) :
  (forall X, set_iter X ≡ₚ elements X) ->
  exists res ind',
    order_classes set_iter classes = Some res /\
    loop_inv (name_to_class_of classes)
      (build_deps (name_to_class_of classes) classes).1 ind' [] res.
Proof.
  intros Hperm. unfold order_classes.
  set (M := name_to_class_of classes).
  pose proof (build_deps_spec M classes) as Hspec.
  destruct (build_deps M classes) as [deps rev_deps]. cbn [fst snd] in *.
  assert (HM : forall n, n ∈ dom M <-> n ∈ classes.*1.*1).
  { intros n. rewrite elem_of_dom. apply name_to_class_dom. }
  assert (Hdn : forall n p, p ∈ set_of deps n -> n ∈ dom M).
  { intros n p [[b Hb] _]%Hspec. apply HM.
    apply list_elem_of_fmap. exists (n, p). split; [done|].
    apply list_elem_of_fmap. by exists (n, p, b). }
  apply (order_loop_inv set_iter Hperm M deps rev_deps).
  - intros n p. destruct (Hspec n p) as [H1 H2]. by rewrite H1, H2.
  - exact Hdn.
  - destruct (dict_keys_spec (classes.*1.*1)) as [Hk1 Hk2].
    assert (Hq : forall n, n ∈ dom M ->
              (n ∈ filter (fun n => indegree_of deps classes !! n = Some 0)
                     (dict_keys (classes.*1.*1))
               <-> set_of deps n ⊆ ∅)).
    { intros n Hn. rewrite list_elem_of_filter, Hk2, indegree_of_spec.
      rewrite decide_True by (by apply HM).
      rewrite <- (remaining_zero deps). unfold remaining.
      rewrite difference_empty_L. split.
      - intros [[= H] _]. done.
      - intros H. split; [by rewrite H|by apply HM]. }
    constructor; simpl.
    + by apply NoDup_filter.
    + intros n [_ Hn%Hk2]%list_elem_of_filter. by apply HM.
    + intros n Hn. rewrite indegree_of_spec.
      rewrite decide_True by (by apply HM).
      unfold remaining, done_set. simpl. by rewrite difference_empty_L.
    + intros n Hn. by apply Hq.
    + intros n op b H. by apply elem_of_nil in H.
    + intros l1 x l2 H. by destruct l1.
  - simpl. apply name_to_class_size.
Qed.



(** ** Sizes and offsets are not negative *)

Lemma in_range_spec (lo hi : N) (c : ascii) :
  in_range lo hi c = true -> (lo <= code c <= hi)%N.
Proof.
  unfold in_range. intros [H1 H2]%andb_true_iff.
  apply N.leb_le in H1, H2. lia.
Qed.

Lemma digit_val_nonneg (c : ascii) : 0 <= digit_val c.
Proof.
  unfold digit_val, is_digit.
  destruct (in_range 48 57 c) eqn:H1; [apply in_range_spec in H1; lia|].
  destruct (in_range 65 70 c) eqn:H2; [apply in_range_spec in H2; lia|].
  destruct (in_range 97 102 c) eqn:H3; [apply in_range_spec in H3; lia|].
  lia.
Qed.

Lemma int_go_nonneg (base : Z) (s : string) :
  0 <= base -> forall acc, 0 <= acc -> 0 <= int_go base acc s.
Proof.
  intros Hb. induction s as [|c s IH]; intros acc Hacc; simpl; [done|].
  apply IH. pose proof (digit_val_nonneg c). nia.
Qed.

Lemma int_dec_nonneg (s : string) : 0 <= int_dec s.
Proof. apply int_go_nonneg; lia. Qed.

Lemma int_hex_nonneg (s : string) : 0 <= int_hex s.
Proof.
  unfold int_hex. destruct s as [|? [|? s]]; try lia. apply int_go_nonneg; lia.
Qed.

Lemma size_of_pos (name : string) : 0 < size_of name.
Proof.
  unfold size_of. destruct (size_map !! name) as [z|] eqn:H; simpl; [|lia].
  apply elem_of_list_to_map_2 in H. unfold pointer_size in H.
  repeat (apply elem_of_cons in H as [H|H]; [injection H as _ ->; lia|]).
  by apply elem_of_nil in H.
Qed.

Lemma nt_size_nonneg (ctype : string) (nt : ntype) :
  normalize_type ctype = Some nt -> 0 <= nt_size nt.
Proof.
  intros H. destruct nt as [name|base count]; simpl.
  - pose proof (size_of_pos name). lia.
  - assert (0 <= count); [|pose proof (size_of_pos base); nia].
    unfold normalize_type in H.
    destruct (re_match array_pattern (strip ctype)) as [[groups rest]|].
    + pose proof (int_dec_nonneg (group 2 groups)).
      destruct (in_keys _ type_map).
      * destruct (type_map !! _); simpl in H; [|done]. by injection H as _ <-.
      * destruct (in_values _ type_map); by injection H as _ <-.
    + repeat (destruct (in_keys _ _) || destruct (in_values _ _) ||
              destruct (_ !! _)); simpl in H; done.
Qed.

Lemma field_of_line_offset (line var ctype : string) (offset : Z) :
  field_of_line line = Some (var, offset, ctype) -> 0 <= offset.
Proof.
  unfold field_of_line. destruct (re_search offset_pattern line) as [[g r]|]; [|done].
  intros [= _ <- _]. apply int_hex_nonneg.
Qed.

(** ** Layout computer: the field loop *)

Lemma size_walk_is_Some (fields : list string) :
  forall cur, is_Some (size_walk cur fields).
Proof.
  induction fields as [|line fields IH]; intros cur; simpl; [by eexists|].
  destruct (field_of_line line) as [[[var offset] ctype]|]; [|apply IH].
  destruct (normalize_type_is_Some ctype) as [nt ->]. simpl. apply IH.
Qed.

Lemma size_walk_app (l1 l2 : list string) :
  forall cur, size_walk cur (l1 ++ l2) = size_walk cur l1 ≫= fun c => size_walk c l2.
Proof.
  induction l1 as [|line l1 IH]; intros cur; simpl; [done|].
  destruct (field_of_line line) as [[[var offset] ctype]|]; [|apply IH].
  destruct (normalize_type ctype) as [nt|]; simpl; [apply IH|done].
Qed.

Lemma size_walk_ge (fields : list string) :
  forall cur r, size_walk cur fields = Some r -> cur <= r.
Proof.
  induction fields as [|line fields IH]; intros cur r; simpl.
  - intros [= ->]. lia.
  - destruct (field_of_line line) as [[[var offset] ctype]|]; [|apply IH].
    destruct (normalize_type ctype) as [nt|]; simpl; [|done].
    intros H%IH. case_bool_decide; lia.
Qed.

(** No field is left out of the size: the end of every field line is at
    most the result of the loop. *)
Lemma size_walk_covers (fields : list string) :
  forall cur r, size_walk cur fields = Some r ->
  forall line var offset ctype nt,
    line ∈ fields -> field_of_line line = Some (var, offset, ctype) ->
    normalize_type ctype = Some nt -> offset + nt_size nt <= r.
Proof.
  induction fields as [|l fields IH]; intros cur r Hr line var offset ctype nt Hin Hf Hn.
  - by apply elem_of_nil in Hin.
  - simpl in Hr. apply elem_of_cons in Hin as [->|Hin].
    + rewrite Hf in Hr. rewrite Hn in Hr. simpl in Hr.
      apply size_walk_ge in Hr. case_bool_decide; lia.
    + destruct (field_of_line l) as [[[v o] ct]|]; [|by eapply IH].
      destruct (normalize_type ct) as [nt'|]; simpl in Hr; [|done].
      by eapply IH.
Qed.

(** ** Code emitter: the field loop *)

Lemma emit_walk_is_Some (fields : list string) :
  forall cur, is_Some (emit_walk cur fields).
Proof.
  induction fields as [|line fields IH]; intros cur; simpl; [by eexists|].
  destruct (field_of_line line) as [[[var offset] ctype]|]; [|apply IH].
  case_bool_decide; [apply IH|].
  destruct (normalize_type_is_Some ctype) as [nt ->]. simpl.
  destruct (IH (offset + nt_size nt)) as [r ->]. simpl. by eexists.
Qed.

Lemma sum_sizes_app (l1 l2 : list member) :
  sum_sizes (l1 ++ l2) = sum_sizes l1 + sum_sizes l2.
Proof.
  unfold sum_sizes. induction l1 as [|m l1 IH]; simpl; [done|]. rewrite IH. lia.
Qed.

Lemma member_size_of_field (nt : ntype) (var ctype : string) (offset : Z) :
  member_size match nt with
              | NArray base_type count => MArray base_type var count offset ctype
              | NScalar name => MField name var offset ctype
              end = nt_size nt.
Proof. by destruct nt. Qed.

Lemma member_offset_of_field (nt : ntype) (var ctype : string) (offset : Z) :
  member_offset match nt with
                | NArray base_type count => MArray base_type var count offset ctype
                | NScalar name => MField name var offset ctype
                end = Some offset.
Proof. by destruct nt. Qed.

Lemma lands_field (nt : ntype) (var ctype : string) (offset : Z) (ms : list member) :
  lands (offset + nt_size nt) ms ->
  lands offset (match nt with
                | NArray base_type count => MArray base_type var count offset ctype
                | NScalar name => MField name var offset ctype
                end :: ms).
Proof. destruct nt; simpl; by split. Qed.

Lemma emit_walk_lands (fields : list string) :
  forall cur ms last,
    emit_walk cur fields = Some (ms, last) ->
    lands cur ms /\ last = cur + sum_sizes ms.
Proof.
  induction fields as [|line fields IH]; intros cur ms last; simpl.
  - intros [= <- <-]. simpl. split; [done|]. unfold sum_sizes. simpl. lia.
  - destruct (field_of_line line) as [[[var offset] ctype]|]; [|apply IH].
    case_bool_decide as Hlt; [apply IH|].
    destruct (normalize_type ctype) as [nt|]; simpl; [|done].
    destruct (emit_walk (offset + nt_size nt) fields) as [[ms' last']|] eqn:Hw;
      simpl; [|done].
    intros [= <- <-]. destruct (IH _ _ _ Hw) as [Hl ->].
    case_bool_decide as Hgt.
    + simpl. split.
      * split; [done|]. split; [lia|].
        replace (cur + (offset - cur)) with offset by lia. split.
        -- eexists _, _. split; [done|]. apply member_offset_of_field.
        -- by apply lands_field.
      * unfold sum_sizes. simpl. fold (sum_sizes ms').
        rewrite member_size_of_field. lia.
    + assert (offset = cur) as -> by lia. simpl. split.
      * by apply lands_field.
      * unfold sum_sizes. simpl. fold (sum_sizes ms').
        rewrite member_size_of_field. lia.
Qed.

Lemma lands_split (pre : list member) :
  forall cur m post,
    lands cur (pre ++ m :: post) ->
    lands (cur + sum_sizes pre) (m :: post).
Proof.
  induction pre as [|x pre IH]; intros cur m post H.
  - unfold sum_sizes. simpl. by replace (cur + 0) with cur by lia.
  - change ((x :: pre) ++ m :: post) with (x :: (pre ++ m :: post)) in H.
    assert (Hrest : lands (cur + member_size x) (pre ++ m :: post)).
    { destruct x; simpl in H; simpl; tauto. }
    apply IH in Hrest. unfold sum_sizes in *. simpl.
    by replace (cur + (member_size x + foldr (fun m acc => member_size m + acc) 0 pre))
      with (cur + member_size x + foldr (fun m acc => member_size m + acc) 0 pre) by lia.
Qed.

(** ** The two field loops compared *)

Lemma field_lines_cons (line : string) (fields : list string) :
  field_lines (line :: fields) =
    match field_of_line line with
    | Some _ => line :: field_lines fields
    | None => field_lines fields
    end.
Proof.
  unfold field_lines. rewrite filter_cons.
  destruct (field_of_line line) as [p|]; destruct (decide _) as [H|H]; try done.
  destruct H. by exists p.
Qed.

Lemma emitted_fields_step (pad_at pad_size : Z) (b : bool) (m : member)
    (ms : list member) :
  is_Some (member_offset m) ->
  length (emitted_fields ((if b then [MPad pad_at pad_size] else []) ++ m :: ms))
    = S (length (emitted_fields ms)).
Proof.
  intros Hm. unfold emitted_fields. destruct b; simpl.
  - rewrite filter_cons_False by (simpl; by intros [? ?]).
    by rewrite filter_cons_True.
  - by rewrite filter_cons_True.
Qed.

Lemma emit_walk_count (fields : list string) :
  forall cur ms last,
    emit_walk cur fields = Some (ms, last) ->
    (length (emitted_fields ms) <= length (field_lines fields))%nat.
Proof.
  induction fields as [|line fields IH]; intros cur ms last; simpl.
  - intros [= <- <-]. done.
  - rewrite field_lines_cons.
    destruct (field_of_line line) as [[[var offset] ctype]|]; [|apply IH].
    case_bool_decide as Hlt.
    { intros H%IH. simpl. lia. }
    destruct (normalize_type ctype) as [nt|]; simpl; [|done].
    destruct (emit_walk (offset + nt_size nt) fields) as [[ms' last']|] eqn:Hw;
      simpl; [|done].
    intros [= <- <-]. apply IH in Hw.
    rewrite emitted_fields_step; [lia|].
    rewrite member_offset_of_field. by eexists.
Qed.

(** The emitter never ends beyond the size the layout computer gives. *)
Lemma emit_walk_le (fields : list string) :
  forall cur c ms last r,
    emit_walk cur fields = Some (ms, last) ->
    size_walk c fields = Some r ->
    last <= Z.max cur r.
Proof.
  induction fields as [|line fields IH]; intros cur c ms last r; simpl.
  - intros [= <- <-] _. lia.
  - destruct (field_of_line line) as [[[var offset] ctype]|]; [|apply IH].
    destruct (normalize_type ctype) as [nt|]; simpl.
    2:{ case_bool_decide; [|done]. intros _ [=]. }
    case_bool_decide as Hlt; [apply IH|].
    destruct (emit_walk (offset + nt_size nt) fields) as [[ms' last']|] eqn:Hw;
      simpl; [|done].
    intros [= <- <-] Hr. pose proof (size_walk_ge _ _ _ Hr) as Hge.
    pose proof (IH _ _ _ _ _ Hw Hr) as Hle.
    case_bool_decide; lia.
Qed.

(** When the emitter drops no field, it ends exactly at that size. *)
Lemma emit_walk_full (fields : list string) :
  forall cur c ms last r,
    emit_walk cur fields = Some (ms, last) ->
    size_walk c fields = Some r ->
    c <= cur ->
    length (emitted_fields ms) = length (field_lines fields) ->
    last = Z.max cur r.
Proof.
  induction fields as [|line fields IH]; intros cur c ms last r; simpl.
  - intros [= <- <-] [= <-] Hc _. lia.
  - rewrite field_lines_cons.
    destruct (field_of_line line) as [[[var offset] ctype]|]; [|apply IH].
    destruct (normalize_type ctype) as [nt|] eqn:Hnt; simpl.
    2:{ case_bool_decide; [|done]. intros _ [=]. }
    case_bool_decide as Hlt.
    { intros Hw%emit_walk_count _ _ Hlen. simpl in Hlen. lia. }
    destruct (emit_walk (offset + nt_size nt) fields) as [[ms' last']|] eqn:Hw;
      simpl; [|done].
    intros [= <- <-] Hr Hc Hlen.
    rewrite emitted_fields_step in Hlen
      by (rewrite member_offset_of_field; by eexists).
    simpl in Hlen. injection Hlen as Hlen.
    pose proof (nt_size_nonneg _ _ Hnt) as Hsz.
    pose proof (size_walk_ge _ _ _ Hr) as Hge.
    rewrite (IH _ _ _ _ _ Hw Hr); [case_bool_decide; lia|case_bool_decide; lia|done].
Qed.

(** ** Claims on the field loops *)

(** C1 (as the code has it).  In the layout computer every field line, in
    source order, moves the cursor to the maximum of its current value and
    the end of the field (offset plus resolved size); the offset of the
    field is never compared with the cursor and no field is skipped. *)
Theorem layout_cursor_takes_every_field (fields : list string)
    (line var ctype : string) (offset cur : Z) :
  size_walk 0 fields = Some cur ->
  field_of_line line = Some (var, offset, ctype) ->
  exists nt, normalize_type ctype = Some nt /\
    size_walk 0 (fields ++ [line]) = Some (Z.max cur (offset + nt_size nt)).
Proof.
  intros Hcur Hline. destruct (normalize_type_is_Some ctype) as [nt Hnt].
  exists nt. split; [done|].
  rewrite size_walk_app, Hcur. simpl. rewrite Hline, Hnt. simpl.
  f_equal. case_bool_decide; lia.
Qed.

(** C3.  In an emitted class body every field lands at its dumped offset:
    the cursor the body starts from (the parent's size in the table, 0 with
    no parent) plus the sizes of the members emitted before the field is
    the offset of the field; and a padding member starts at that sum, has a
    positive size, and is followed by a field that starts where it ends. *)
Theorem emitted_field_lands_at_offset (sizes : gmap string Z)
    (c : ordered_rec) (members pre post : list member) (m : member) (last : Z) :
  class_members sizes c = Some (members, last) ->
  members = pre ++ m :: post ->
  (forall offset, member_offset m = Some offset ->
     parent_size_of sizes c.1.2 + sum_sizes pre = offset) /\
  (forall last_offset pad_size, m = MPad last_offset pad_size ->
     last_offset = parent_size_of sizes c.1.2 + sum_sizes pre /\
     0 < pad_size /\
     exists f post', post = f :: post' /\
       member_offset f = Some (last_offset + pad_size)).
Proof.
  unfold class_members. intros Hw ->.
  apply emit_walk_lands in Hw as [Hl _]. apply lands_split in Hl.
  split.
  - intros offset Hm. destruct m; simpl in Hl, Hm; [done| |];
      destruct Hl as [Hl _]; congruence.
  - intros lo n ->. simpl in Hl. destruct Hl as (-> & Hn & Hf & _).
    split; [done|]. split; [done|]. exact Hf.
Qed.



(** ** The result of the dependency orderer *)

Lemma elem_of_names_split (l : list ordered_rec) (p : string) :
  p ∈ l.*1.*1 -> exists l1 c l2, l = l1 ++ c :: l2 /\ c.1.1 = p.
Proof.
  intros ([n op] & Hp & ([[n' op'] b] & [= <- <-] & Hin)%list_elem_of_fmap)%list_elem_of_fmap.
  simpl in Hp. subst p.
  apply list_elem_of_split in Hin as (l1 & l2 & ->). by exists l1, (n, op, b), l2.
Qed.

(** Every record of the result is the record [name_to_class] holds for
    its name, that is, the last class of that name. *)
Lemma order_classes_records (set_iter : gset string -> list string)
    (classes : list class_rec) (res : list ordered_rec) :
  (forall X, set_iter X ≡ₚ elements X) ->
  order_classes set_iter classes = Some res ->
  forall n op b, (n, op, b) ∈ res ->
    exists p, name_to_class_of classes !! n = Some (n, p, b) /\
      op = (if in_keys p (name_to_class_of classes) then Some p else None).
Proof.
  intros Hperm Hres n op b Hin.
  destruct (order_classes_inv set_iter classes Hperm) as (res' & ind' & Hres' & Hinv).
  rewrite Hres in Hres'. injection Hres' as <-.
  destruct (inv_recs _ _ _ _ _ Hinv n op b Hin) as ([[cn cp] cb] & Hc & -> & ->).
  destruct (name_to_class_last _ _ _ Hc) as [Hn _]. simpl in Hn. subst cn.
  by exists cp.
Qed.

Lemma order_classes_NoDup (set_iter : gset string -> list string)
    (classes : list class_rec) (res : list ordered_rec) :
  (forall X, set_iter X ≡ₚ elements X) ->
  order_classes set_iter classes = Some res ->
  NoDup (res.*1.*1).
Proof.
  intros Hperm Hres.
  destruct (order_classes_inv set_iter classes Hperm) as (res' & ind' & Hres' & Hinv).
  rewrite Hres in Hres'. injection Hres' as <-.
  pose proof (inv_nodup _ _ _ _ _ Hinv) as H. by rewrite app_nil_r in H.
Qed.

(** Every edge of the dependency graph whose child is in the result has
    its parent earlier in the result. *)
Lemma order_classes_edge (set_iter : gset string -> list string)
    (classes : list class_rec) (res : list ordered_rec) :
  (forall X, set_iter X ≡ₚ elements X) ->
  order_classes set_iter classes = Some res ->
  forall n p l1 x l2,
    edge (name_to_class_of classes) classes n p ->
    res = l1 ++ x :: l2 -> x.1.1 = n ->
    p ∈ l1.*1.*1.
Proof.
  intros Hperm Hres n p l1 x l2 Hedge Heq Hx.
  destruct (order_classes_inv set_iter classes Hperm) as (res' & ind' & Hres' & Hinv).
  rewrite Hres in Hres'. injection Hres' as <-.
  pose proof (inv_prec _ _ _ _ _ Hinv l1 x l2 Heq) as Hsub.
  apply elem_of_done_set, Hsub. rewrite Hx.
  by apply build_deps_spec.
Qed.

Lemma order_classes_well_ordered (set_iter : gset string -> list string)
    (classes : list class_rec) (res : list ordered_rec) :
  (forall X, set_iter X ≡ₚ elements X) ->
  EmptyString ∉ classes.*1.*1 ->
  order_classes set_iter classes = Some res ->
  well_ordered res.
Proof.
  intros Hperm Hne Hres. split; [by eapply order_classes_NoDup|].
  intros l1 n p b l2 Heq.
  destruct (order_classes_records set_iter classes res Hperm Hres n (Some p) b)
    as (p' & Hc & Hop).
  { rewrite Heq. apply elem_of_app. right. by left. }
  destruct (in_keys p' _) eqn:Hk; [|done]. injection Hop as ->.
  apply in_keys_true in Hk.
  assert (Hp : p' <> "").
  { intros ->. by apply Hne, name_to_class_dom. }
  split; [done|].
  eapply (order_classes_edge set_iter classes res Hperm Hres n p'); [|done|done].
  split; [|done]. exists b.
  destruct (name_to_class_last _ _ _ Hc) as (_ & la & lb & -> & _).
  apply elem_of_app. right. by left.
Qed.

(** ** Layout computer: the size table *)

Lemma class_size_is_Some (sizes : gmap string Z) (c : ordered_rec) :
  is_Some (class_size sizes c).
Proof.
  unfold class_size. destruct (size_walk_is_Some c.2 0) as [r ->]. by eexists.
Qed.

Lemma compute_sizes_from_is_Some (ordered : list ordered_rec) :
  forall sizes, is_Some (compute_sizes_from sizes ordered).
Proof.
  induction ordered as [|c ordered IH]; intros sizes; simpl; [by eexists|].
  destruct (class_size_is_Some sizes c) as [z ->]. simpl. apply IH.
Qed.

Lemma compute_sizes_from_frame (ordered : list ordered_rec) :
  forall sizes sizes' n,
    compute_sizes_from sizes ordered = Some sizes' ->
    n ∉ ordered.*1.*1 -> sizes' !! n = sizes !! n.
Proof.
  induction ordered as [|c ordered IH]; intros sizes sizes' n; simpl.
  - by intros [= <-].
  - destruct (class_size sizes c) as [z|]; simpl; [|done].
    intros H Hn. apply not_elem_of_cons in Hn as [Hn1 Hn2].
    rewrite (IH _ _ _ H Hn2). by rewrite lookup_insert_ne.
Qed.

Lemma compute_sizes_from_dom (ordered : list ordered_rec) :
  forall sizes sizes' n,
    compute_sizes_from sizes ordered = Some sizes' ->
    n ∈ ordered.*1.*1 -> is_Some (sizes' !! n).
Proof.
  induction ordered as [|c ordered IH]; intros sizes sizes' n; simpl.
  - intros _ H. by apply elem_of_nil in H.
  - destruct (class_size sizes c) as [z|]; simpl; [|done].
    intros H Hn. destruct (decide (n ∈ ordered.*1.*1)) as [Hin|Hin].
    + by eapply IH.
    + rewrite (compute_sizes_from_frame _ _ _ _ H Hin).
      apply elem_of_cons in Hn as [->|?]; [|done].
      rewrite lookup_insert_eq. by eexists.
Qed.

Lemma compute_sizes_from_app (l1 l2 : list ordered_rec) :
  forall sizes,
    compute_sizes_from sizes (l1 ++ l2) =
      compute_sizes_from sizes l1 ≫= fun s => compute_sizes_from s l2.
Proof.
  induction l1 as [|c l1 IH]; intros sizes; simpl; [done|].
  destruct (class_size sizes c) as [z|]; simpl; [apply IH|done].
Qed.

Lemma compute_sizes_from_nonneg (ordered : list ordered_rec) :
  forall sizes sizes',
    compute_sizes_from sizes ordered = Some sizes' ->
    (forall n z, sizes !! n = Some z -> 0 <= z) ->
    forall n z, sizes' !! n = Some z -> 0 <= z.
Proof.
  induction ordered as [|c ordered IH]; intros sizes sizes'; simpl.
  - by intros [= <-].
  - unfold class_size. destruct (size_walk 0 c.2) as [r|] eqn:Hr; simpl; [|done].
    intros H Hs. eapply IH; [done|]. intros n z.
    rewrite lookup_insert. case_decide; [|apply Hs].
    intros [= <-]. apply size_walk_ge in Hr. lia.
Qed.

(** The entry of the table for a class of a well-ordered sequence: the
    maximum of its own field loop and of the entry of its parent. *)
Lemma compute_sizes_entry (ordered : list ordered_rec) (sizes : gmap string Z)
    (l1 l2 : list ordered_rec) (c : ordered_rec) :
  well_ordered ordered ->
  compute_class_sizes ordered = Some sizes ->
  ordered = l1 ++ c :: l2 ->
  exists r,
    size_walk 0 c.2 = Some r /\
    sizes !! c.1.1 = Some (Z.max r (parent_size_of sizes c.1.2)) /\
    0 <= parent_size_of sizes c.1.2 /\
    (forall p, c.1.2 = Some p -> is_Some (sizes !! p)).
Proof.
  intros [Hnd Hprec] Hsizes ->. unfold compute_class_sizes in Hsizes.
  rewrite compute_sizes_from_app in Hsizes.
  destruct (compute_sizes_from ∅ l1) as [s1|] eqn:Hs1; simpl in Hsizes; [|done].
  unfold class_size in Hsizes.
  destruct (size_walk 0 c.2) as [r|] eqn:Hr; simpl in Hsizes; [|done].
  rewrite !fmap_app in Hnd. simpl in Hnd.
  apply NoDup_app in Hnd as (Hn1 & Hn2 & [Hn3 Hn4]%NoDup_cons).
  assert (Hc : sizes !! c.1.1 = Some (Z.max r (size_get s1 c.1.2))).
  { rewrite (compute_sizes_from_frame _ _ _ _ Hsizes Hn3). apply lookup_insert_eq. }
  assert (Hframe : forall p, p ∈ l1.*1.*1 -> sizes !! p = s1 !! p).
  { intros p Hp. rewrite (compute_sizes_from_frame _ _ _ _ Hsizes).
    - rewrite lookup_insert_ne; [done|]. intros <-. apply (Hn2 _ Hp). by left.
    - intros Hp'. apply (Hn2 _ Hp). by right. }
  assert (Hnn : forall n z, sizes !! n = Some z -> 0 <= z).
  { eapply compute_sizes_from_nonneg; [exact Hsizes|]. intros n z.
    rewrite lookup_insert. case_decide.
    - intros [= <-]. apply size_walk_ge in Hr. lia.
    - eapply compute_sizes_from_nonneg; [exact Hs1|]. intros ? ?.
      by rewrite lookup_empty. }
  assert (Hpar : size_get s1 c.1.2 = parent_size_of sizes c.1.2 /\
                 forall p, c.1.2 = Some p -> is_Some (sizes !! p)).
  { destruct c as [[n [p|]] b]; simpl; [|done].
    destruct (Hprec l1 n p b l2 eq_refl) as [Hp Hin].
    rewrite bool_decide_eq_true_2 by done. rewrite (Hframe p Hin).
    split; [done|]. intros ? [= <-]. rewrite (Hframe p Hin).
    by eapply compute_sizes_from_dom. }
  destruct Hpar as [Hpar Hdom]. rewrite Hpar in Hc.
  exists r. split; [done|]. split; [done|]. split; [|done].
  destruct c as [[n [p|]] b]; simpl; [|done].
  case_bool_decide; [|done].
  destruct (sizes !! p) as [z|] eqn:Hz; simpl; [by eapply Hnn|done].
Qed.



(** ** The matcher: what a match consumed *)

Lemma rep_greedy_inv (cls : ascii -> bool) (k : string -> option matched)
    (s : string) (r : matched) :
  rep_greedy cls k s = Some r ->
  exists w s', s = w +:+ s' /\ str_all cls w = true /\ k s' = Some r.
Proof.
  induction s as [|c s IH]; simpl.
  - intros H. by exists "", "".
  - destruct (cls c) eqn:Hc; [|intros H; by exists "", (String c s)].
    destruct (rep_greedy cls k s) as [r'|] eqn:Hg.
    + intros [= <-]. destruct (IH eq_refl) as (w & s' & -> & Hw & Hk).
      exists (String c w), s'. simpl. by rewrite Hc, Hw.
    + intros H. by exists "", (String c s).
Qed.

Lemma rep_lazy_inv (cls : ascii -> bool) (k : string -> option matched)
    (s : string) (r : matched) :
  rep_lazy cls k s = Some r ->
  exists w s', s = w +:+ s' /\ str_all cls w = true /\ k s' = Some r.
Proof.
  induction s as [|c s IH]; simpl.
  - destruct (k "") eqn:Hk; [|done]. intros [= <-]. by exists "", "".
  - destruct (k (String c s)) eqn:Hk.
    + intros [= <-]. by exists "", (String c s).
    + destruct (cls c) eqn:Hc; [|done]. intros H.
      destruct (IH H) as (w & s' & -> & Hw & Hk').
      exists (String c w), s'. simpl. by rewrite Hc, Hw.
Qed.

Lemma match_lit_inv (w : string) (re : regex) (opened : string)
    (caps : list string) (s : string) (r : matched) :
  match_items (lit w ++ re) opened caps s = Some r ->
  exists s', s = w +:+ s' /\ match_items re opened caps s' = Some r.
Proof.
  revert s. induction w as [|c w IH]; intros s; simpl.
  - intros H. by exists s.
  - destruct s as [|c' s]; [done|].
    destruct (Ascii.eqb c c') eqn:E; [|done]. apply Ascii.eqb_eq in E as <-.
    intros (s' & -> & H)%IH. by exists s'.
Qed.

Lemma match_char_inv (c : ascii) (re : regex) (opened : string)
    (caps : list string) (s : string) (r : matched) :
  match_items (Lit c :: re) opened caps s = Some r ->
  exists s', s = String c s' /\ match_items re opened caps s' = Some r.
Proof. apply (match_lit_inv (String c "")). Qed.

Lemma match_star_inv (cls : ascii -> bool) (re : regex) (opened : string)
    (caps : list string) (s : string) (r : matched) :
  match_items (Star cls :: re) opened caps s = Some r ->
  exists w s', s = w +:+ s' /\ str_all cls w = true /\
    match_items re opened caps s' = Some r.
Proof. apply rep_greedy_inv. Qed.

Lemma match_lazy_inv (cls : ascii -> bool) (re : regex) (opened : string)
    (caps : list string) (s : string) (r : matched) :
  match_items (LazyStar cls :: re) opened caps s = Some r ->
  exists w s', s = w +:+ s' /\ str_all cls w = true /\
    match_items re opened caps s' = Some r.
Proof. apply rep_lazy_inv. Qed.

Lemma match_plus_inv (cls : ascii -> bool) (re : regex) (opened : string)
    (caps : list string) (s : string) (r : matched) :
  match_items (Plus cls :: re) opened caps s = Some r ->
  exists w s', s = w +:+ s' /\ w <> "" /\ str_all cls w = true /\
    match_items re opened caps s' = Some r.
Proof.
  simpl. destruct s as [|c s]; [done|]. destruct (cls c) eqn:Hc; [|done].
  intros (w & s' & -> & Hw & Hk)%rep_greedy_inv.
  exists (String c w), s'. simpl. by rewrite Hc, Hw.
Qed.

(** A group [(cls+)] that opens at [s]: the group is what it consumed. *)
Lemma match_group_plus_inv (cls : ascii -> bool) (re : regex) (opened : string)
    (caps : list string) (s : string) (r : matched) :
  match_items (Open :: Plus cls :: Close :: re) opened caps s = Some r ->
  exists w s', s = w +:+ s' /\ w <> "" /\ str_all cls w = true /\
    match_items re s (w :: caps) s' = Some r.
Proof.
  change (match_items (Open :: Plus cls :: Close :: re) opened caps s)
    with (match_items (Plus cls :: Close :: re) s caps s).
  intros (w & s' & -> & Hne & Hw & H)%match_plus_inv.
  exists w, s'. split; [done|]. split; [done|]. split; [done|].
  simpl in H. by rewrite captured_app in H.
Qed.

Lemma match_group_star_inv (cls : ascii -> bool) (re : regex) (opened : string)
    (caps : list string) (s : string) (r : matched) :
  match_items (Open :: Star cls :: Close :: re) opened caps s = Some r ->
  exists w s', s = w +:+ s' /\ str_all cls w = true /\
    match_items re s (w :: caps) s' = Some r.
Proof.
  change (match_items (Open :: Star cls :: Close :: re) opened caps s)
    with (match_items (Star cls :: Close :: re) s caps s).
  intros (w & s' & -> & Hw & H)%match_star_inv.
  exists w, s'. split; [done|]. split; [done|].
  simpl in H. by rewrite captured_app in H.
Qed.

(** A match of [class_pattern]: the text it consumed and its groups. *)
Lemma class_pattern_inv (s : string) (groups : list string) (rest : string) :
  re_match class_pattern s = Some (groups, rest) ->
  exists ws parent mid ws1 name ws2 body,
    s = "// Parent:" +:+ ws +:+ parent +:+ mid +:+ "namespace" +:+ ws1 +:+
        name +:+ ws2 +:+ "{" +:+ body +:+ "}" +:+ rest /\
    groups = [parent; name; body] /\
    str_all is_space ws = true /\
    parent <> "" /\ str_all is_word parent = true /\
    ws1 <> "" /\ str_all is_space ws1 = true /\
    name <> "" /\ str_all is_word name = true /\
    str_all is_space ws2 = true /\
    str_all not_rbrace body = true.
Proof.
  unfold re_match, class_pattern. intros H.
  apply (match_lit_inv "// Parent:") in H as (s1 & -> & H). simpl app in H.
  apply match_star_inv in H as (ws & s2 & -> & Hws & H).
  apply match_group_plus_inv in H as (parent & s3 & -> & Hp1 & Hp2 & H).
  apply match_lazy_inv in H as (mid & s4 & -> & _ & H).
  apply (match_lit_inv "namespace") in H as (s5 & -> & H).
  apply match_plus_inv in H as (ws1 & s6 & -> & Hw1 & Hw2 & H).
  apply match_group_plus_inv in H as (name & s7 & -> & Hn1 & Hn2 & H).
  apply match_star_inv in H as (ws2 & s8 & -> & Hws2 & H).
  apply match_char_inv in H as (s9 & -> & H).
  apply match_group_star_inv in H as (body & s10 & -> & Hb & H).
  apply match_char_inv in H as (s11 & -> & H).
  simpl in H. injection H as <- <-.
  exists ws, parent, mid, ws1, name, ws2, body.
  split; [|by repeat split].
  reflexivity.
Qed.

(** Every match has all the groups of its pattern, so that [group] never
    falls back on its default. *)
Lemma match_items_groups (re : regex) :
  forall opened caps s groups rest,
    match_items re opened caps s = Some (groups, rest) ->
    length groups = (length caps + closes re)%nat.
Proof.
  induction re as [|i re IH]; intros opened caps s groups rest.
  - simpl. intros [= <- _]. rewrite length_rev. lia.
  - destruct i.
    + intros (s' & _ & H)%match_char_inv. by eapply IH.
    + intros (w & s' & _ & _ & H)%match_star_inv. by eapply IH.
    + intros (w & s' & _ & _ & _ & H)%match_plus_inv. by eapply IH.
    + intros (w & s' & _ & _ & H)%match_lazy_inv. by eapply IH.
    + simpl. intros H. by eapply IH.
    + simpl. intros H%IH. simpl in H. lia.
Qed.

Lemma re_search_inv (re : regex) (s : string) (r : matched) :
  re_search re s = Some r ->
  exists pre s', s = pre +:+ s' /\ re_match re s' = Some r.
Proof.
  induction s as [|c s IH]; simpl.
  - destruct (re_match re "") eqn:E; [|done]. intros [= <-]. by exists "", "".
  - destruct (re_match re (String c s)) eqn:E.
    + intros [= <-]. by exists "", (String c s).
    + intros (pre & s' & -> & H)%IH. by exists (String c pre), s'.
Qed.

Lemma finditer_go_inv (re : regex) (s : string) :
  forall skip groups,
    groups ∈ finditer_go re skip s ->
    exists pre s' rest, s = pre +:+ s' /\ re_match re s' = Some (groups, rest).
Proof.
  induction s as [|c s IH]; intros skip groups; simpl.
  - destruct skip; [|by intros ?%elem_of_nil].
    destruct (re_match re "") as [[g rest]|] eqn:E; [|by intros ?%elem_of_nil].
    intros ->%list_elem_of_singleton. by exists "", "", rest.
  - destruct skip as [|skip].
    + destruct (re_match re (String c s)) as [[g rest]|] eqn:E.
      * intros [->|H]%elem_of_cons; [by exists "", (String c s), rest|].
        destruct (IH _ _ H) as (pre & s' & rest' & -> & Hm).
        by exists (String c pre), s', rest'.
      * intros H. destruct (IH _ _ H) as (pre & s' & rest' & -> & Hm).
        by exists (String c pre), s', rest'.
    + intros H. destruct (IH _ _ H) as (pre & s' & rest' & -> & Hm).
      by exists (String c pre), s', rest'.
Qed.

Lemma pattern_groups :
  closes array_pattern = 2%nat /\ closes class_pattern = 3%nat /\
  closes offset_pattern = 3%nat.
Proof. repeat split; vm_compute; reflexivity. Qed.

(** ** Class extractor *)

(** Every extracted class comes from a block that a parent annotation
    precedes in the text. *)
Lemma parse_classes_inv (text name parent : string) (fields : list string) :
  (name, parent, fields) ∈ parse_classes text ->
  exists pre ws mid ws1 ws2 body post,
    text = pre +:+ "// Parent:" +:+ ws +:+ parent +:+ mid +:+ "namespace" +:+
           ws1 +:+ name +:+ ws2 +:+ "{" +:+ body +:+ "}" +:+ post /\
    str_all is_space ws = true /\
    parent <> "" /\ str_all is_word parent = true /\
    ws1 <> "" /\ str_all is_space ws1 = true /\
    name <> "" /\ str_all is_word name = true /\
    str_all is_space ws2 = true /\
    str_all not_rbrace body = true /\
    fields = strip <$> filter (fun line => is_Some (re_search offset_pattern line))
                              (splitlines (strip body)).
Proof.
  unfold parse_classes, finditer.
  intros (groups & Hrec & (pre & s & post & -> & Hm)%finditer_go_inv)%list_elem_of_fmap.
  apply class_pattern_inv in Hm
    as (ws & parent' & mid & ws1 & name' & ws2 & body & -> & -> & H).
  unfold parse_class, group in Hrec. simpl in Hrec. injection Hrec as -> -> ->.
  exists pre, ws, mid, ws1, ws2, body, post. split; [done|]. tauto.
Qed.

Lemma parse_names_nonempty (text : string) :
  EmptyString ∉ (parse_classes text).*1.*1.
Proof.
  intros ([n p] & Hn & ([[n' p'] b] & [= <- <-] & Hin)%list_elem_of_fmap)%list_elem_of_fmap.
  simpl in Hn. subst n.
  by apply parse_classes_inv in Hin as (? & ? & ? & ? & ? & ? & ? & _ & _ & _ & _ & _ & _ & Hne & _).
Qed.


(** ** The pipeline returns *)

Lemma class_chunks_is_Some (sizes : gmap string Z) (c : ordered_rec) :
  is_Some (class_chunks sizes c).
Proof.
  unfold class_chunks, class_members.
  destruct (emit_walk_is_Some c.2 (parent_size_of sizes c.1.2)) as [r ->].
  by eexists.
Qed.

Lemma decl_chunks_is_Some (sizes : gmap string Z) (ordered : list ordered_rec) :
  is_Some (decl_chunks sizes ordered).
Proof.
  induction ordered as [|c ordered [ds IH]]; simpl; [by eexists|].
  destruct (class_chunks_is_Some sizes c) as [d ->]. simpl. rewrite IH. by eexists.
Qed.

Lemma output_chunks_is_Some (sizes : gmap string Z) (ordered : list ordered_rec) :
  is_Some (output_chunks sizes ordered).
Proof.
  unfold output_chunks.
  destruct (decl_chunks_is_Some sizes ordered) as [decls ->]. by eexists.
Qed.

(** With the digit limit lifted, [convert_file] returns a text on every
    input: no subscript raises, and the ordering loop ends. *)
Lemma convert_file_is_Some (set_iter : gset string -> list string) (text : string) :
  (forall X, set_iter X ≡ₚ elements X) ->
  is_Some (convert_file set_iter text).
Proof.
  intros Hperm. unfold convert_file.
  destruct (order_classes_inv set_iter (parse_classes text) Hperm)
    as (ordered & _ & -> & _). simpl.
  destruct (compute_sizes_from_is_Some ordered ∅) as [sizes Hs].
  unfold compute_class_sizes. rewrite Hs. simpl.
  destruct (output_chunks_is_Some sizes ordered) as [out ->]. by eexists.
Qed.



(** ** The emitted text *)

Lemma join_app (l1 l2 : list string) : join (l1 ++ l2) = join l1 +:+ join l2.
Proof.
  unfold join. induction l1 as [|x l1 IH]; simpl; [done|].
  by rewrite IH, app_assoc_s.
Qed.

Lemma join_cons (x : string) (l : list string) : join (x :: l) = x +:+ join l.
Proof. reflexivity. Qed.

Lemma decl_chunks_app (sizes : gmap string Z) (l1 l2 : list ordered_rec)
    (ds : list string) :
  decl_chunks sizes (l1 ++ l2) = Some ds ->
  exists d1 d2, decl_chunks sizes l1 = Some d1 /\
    decl_chunks sizes l2 = Some d2 /\ ds = d1 ++ d2.
Proof.
  revert ds. induction l1 as [|c l1 IH]; intros ds; simpl.
  - intros H. by exists [], ds.
  - destruct (class_chunks sizes c) as [d|]; simpl; [|done].
    destruct (decl_chunks sizes (l1 ++ l2)) as [ds'|] eqn:E; simpl; [|done].
    intros [= <-]. destruct (IH _ eq_refl) as (d1 & d2 & -> & H2 & ->).
    exists (d ++ d1), d2. simpl. by rewrite app_assoc.
Qed.

Lemma decl_chunks_cons (sizes : gmap string Z) (c : ordered_rec)
    (l : list ordered_rec) (ds : list string) :
  decl_chunks sizes (c :: l) = Some ds ->
  exists d d', class_chunks sizes c = Some d /\
    decl_chunks sizes l = Some d' /\ ds = d ++ d'.
Proof.
  simpl. destruct (class_chunks sizes c) as [d|]; simpl; [|done].
  destruct (decl_chunks sizes l) as [d'|]; simpl; [|done].
  intros [= <-]. by exists d, d'.
Qed.

(** The pipeline, stage by stage. *)
Lemma convert_file_stages (set_iter : gset string -> list string) (text : string) :
  (forall X, set_iter X ≡ₚ elements X) ->
  exists ordered sizes decls,
    order_classes set_iter (parse_classes text) = Some ordered /\
    compute_class_sizes ordered = Some sizes /\
    decl_chunks sizes ordered = Some decls /\
    convert_file set_iter text =
      Some (join (preamble ++ (forward_decl <$> ordered) ++ [NL] ++ decls)) /\
    well_ordered ordered.
Proof.
  intros Hperm.
  destruct (order_classes_inv set_iter (parse_classes text) Hperm)
    as (ordered & _ & Hord & _).
  destruct (compute_sizes_from_is_Some ordered ∅) as [sizes Hs].
  destruct (decl_chunks_is_Some sizes ordered) as [decls Hd].
  exists ordered, sizes, decls. split; [done|]. split; [done|]. split; [done|].
  split.
  - unfold convert_file, output_chunks. rewrite Hord. simpl.
    unfold compute_class_sizes. rewrite Hs. simpl. by rewrite Hd.
  - eapply order_classes_well_ordered; [done| |done]. apply parse_names_nonempty.
Qed.

(** ** Claims on the pipeline *)

(** C2 (as the code has it).  The two passes do not walk the fields alike:
    the emitter starts at the parent's size and drops a field whose offset
    is below its cursor, the layout computer starts at 0 and counts every
    field.  For every class of the output the emitted body ends at the
    parent's size plus the sizes of its members, never beyond the size of
    the class in the table, and exactly at that size when the emitter
    dropped no field of the class. *)
Theorem emitter_ends_within_table_size (set_iter : gset string -> list string)
    (text : string) :
  (forall X, set_iter X ≡ₚ elements X) ->
  exists ordered sizes,
    order_classes set_iter (parse_classes text) = Some ordered /\
    compute_class_sizes ordered = Some sizes /\
    forall c, c ∈ ordered ->
      exists members last size,
        class_members sizes c = Some (members, last) /\
        sizes !! c.1.1 = Some size /\
        last = parent_size_of sizes c.1.2 + sum_sizes members /\
        last <= size /\
        (length (emitted_fields members) <= length (field_lines c.2))%nat /\
        (length (emitted_fields members) = length (field_lines c.2) ->
         last = size).
Proof.
  intros Hperm.
  destruct (convert_file_stages set_iter text Hperm)
    as (ordered & sizes & decls & Hord & Hsizes & _ & _ & Hwo).
  exists ordered, sizes. split; [done|]. split; [done|].
  intros c (l1 & l2 & Heq)%list_elem_of_split.
  destruct (compute_sizes_entry ordered sizes l1 l2 c Hwo Hsizes Heq)
    as (r & Hr & Hc & Hp & _).
  unfold class_members.
  destruct (emit_walk_is_Some c.2 (parent_size_of sizes c.1.2)) as [[ms last] Hw].
  exists ms, last, (Z.max r (parent_size_of sizes c.1.2)).
  split; [done|]. split; [done|].
  split; [by apply emit_walk_lands in Hw as [_ ->]|].
  split; [pose proof (emit_walk_le _ _ _ _ _ _ Hw Hr); lia|].
  split; [by eapply emit_walk_count|].
  intros Hlen. rewrite (emit_walk_full _ _ _ _ _ _ Hw Hr Hp Hlen). lia.
Qed.

(** C5 (as the code has it).  The orderer keys the classes by name: its
    result holds no two records of the same name, and the record it holds
    for a name carries the fields of the last class of that name. *)
Theorem ordered_has_one_record_per_name (set_iter : gset string -> list string)
    (classes : list class_rec) :
  (forall X, set_iter X ≡ₚ elements X) ->
  exists ordered,
    order_classes set_iter classes = Some ordered /\
    NoDup (ordered.*1.*1) /\
    forall n op b, (n, op, b) ∈ ordered ->
      exists p l1 l2, classes = l1 ++ (n, p, b) :: l2 /\ n ∉ l2.*1.*1.
Proof.
  intros Hperm.
  destruct (order_classes_inv set_iter classes Hperm) as (ordered & _ & Hord & _).
  exists ordered. split; [done|]. split; [by eapply order_classes_NoDup|].
  intros n op b Hin.
  destruct (order_classes_records set_iter classes ordered Hperm Hord n op b Hin)
    as (p & Hc & _).
  destruct (name_to_class_last _ _ _ Hc) as (_ & l1 & l2 & -> & Hl2).
  by exists p, l1, l2.
Qed.

(** C6.  For every class [C] of the output with a parent [P] that is a
    class, [P] is an extracted class and stands before [C], the size of [C]
    in the table is at least the size of [P], and the full declaration of
    [C] starts with a header that inherits from [P]. *)
Theorem child_size_at_least_parent (set_iter : gset string -> list string)
    (text : string) :
  (forall X, set_iter X ≡ₚ elements X) ->
  exists ordered sizes,
    order_classes set_iter (parse_classes text) = Some ordered /\
    compute_class_sizes ordered = Some sizes /\
    forall C P fields, (C, Some P, fields) ∈ ordered ->
      P ∈ (parse_classes text).*1.*1 /\
      (exists l1 l2, ordered = l1 ++ (C, Some P, fields) :: l2 /\ P ∈ l1.*1.*1) /\
      (exists size_C size_P,
         sizes !! C = Some size_C /\ sizes !! P = Some size_P /\
         size_P <= size_C) /\
      (exists body,
         class_chunks sizes (C, Some P, fields) =
           Some (("class " +:+ C +:+ " : public " +:+ P +:+ NL +:+ "{" +:+ NL
                  +:+ "public:" +:+ NL) :: body)).
Proof.
  intros Hperm.
  destruct (convert_file_stages set_iter text Hperm)
    as (ordered & sizes & decls & Hord & Hsizes & _ & _ & Hwo).
  exists ordered, sizes. split; [done|]. split; [done|].
  intros C P fields Hin.
  pose proof Hin as (l1 & l2 & Heq)%list_elem_of_split.
  destruct Hwo as [Hnd Hprec].
  destruct (Hprec l1 C P fields l2 Heq) as [HP HPin].
  destruct (order_classes_records set_iter _ ordered Hperm Hord C (Some P) fields Hin)
    as (p & Hc & Hop).
  split.
  { destruct (in_keys p _) eqn:Hk; [|done]. injection Hop as ->.
    by apply name_to_class_dom, in_keys_true. }
  split; [by exists l1, l2|].
  destruct (compute_sizes_entry ordered sizes l1 l2 (C, Some P, fields)
              (conj Hnd Hprec) Hsizes Heq) as (r & Hr & Hc' & Hp & Hdom).
  simpl in Hc', Hp, Hdom. rewrite bool_decide_eq_true_2 in Hc' by done.
  destruct (Hdom P eq_refl) as [sp Hsp]. rewrite Hsp in Hc'. simpl in Hc'.
  split; [exists (Z.max r sp), sp; split; [done|]; split; [done|lia]|].
  destruct (class_chunks_is_Some sizes (C, Some P, fields)) as [d Hd].
  unfold class_chunks in Hd |- *.
  destruct (class_members sizes (C, Some P, fields)) as [m|]; simpl in *; [|done].
  eexists. unfold class_header, parent_decl. simpl.
  rewrite bool_decide_eq_true_2 by done. by rewrite !app_assoc_s.
Qed.



Lemma class_chunks_header (sizes : gmap string Z) (c : ordered_rec)
    (d : list string) :
  class_chunks sizes c = Some d -> exists d', d = class_header c :: d'.
Proof.
  unfold class_chunks. destruct (class_members sizes c) as [r|]; simpl; [|done].
  intros [= <-]. by eexists.
Qed.

(** The text around the declarations of a class of the output and of its
    parent: for an edge of the dependency graph whose child is in the
    ordered sequence, the parent stands before it there, and the output is
    the forward declarations and then the full declarations, in that
    order. *)
Lemma declarations_in_order (set_iter : gset string -> list string)
    (text : string) :
  (forall X, set_iter X ≡ₚ elements X) ->
  exists ordered sizes out,
    order_classes set_iter (parse_classes text) = Some ordered /\
    compute_class_sizes ordered = Some sizes /\
    convert_file set_iter text = Some out /\
    forall child parent body la cc lb,
      (child, parent, body) ∈ parse_classes text ->
      parent ∈ (parse_classes text).*1.*1 ->
      ordered = la ++ cc :: lb -> cc.1.1 = child ->
      exists l1 cp l2 d1 dp d2 dc d3,
        la = l1 ++ cp :: l2 /\ cp.1.1 = parent /\
        decl_chunks sizes l1 = Some d1 /\
        class_chunks sizes cp = Some (class_header cp :: dp) /\
        decl_chunks sizes l2 = Some d2 /\
        class_chunks sizes cc = Some (class_header cc :: dc) /\
        decl_chunks sizes lb = Some d3 /\
        out = join preamble +:+
              join (forward_decl <$> l1) +:+ forward_decl cp +:+
              join (forward_decl <$> l2) +:+ forward_decl cc +:+
              join (forward_decl <$> lb) +:+ NL +:+
              join d1 +:+ class_header cp +:+ join dp +:+
              join d2 +:+ class_header cc +:+ join dc +:+ join d3.
Proof.
  intros Hperm.
  destruct (convert_file_stages set_iter text Hperm)
    as (ordered & sizes & decls & Hord & Hsizes & Hdecls & Hout & Hwo).
  eexists ordered, sizes, _. split; [done|]. split; [done|]. split; [exact Hout|].
  intros child parent body la cc lb Hin Hpar Heq Hcc.
  assert (Hedge : edge (name_to_class_of (parse_classes text))
                    (parse_classes text) child parent).
  { split; [by exists body|]. split.
    - intros ->. by apply (parse_names_nonempty text).
    - by apply name_to_class_dom. }
  pose proof (order_classes_edge set_iter _ ordered Hperm Hord
                child parent la cc lb Hedge Heq Hcc) as Hla.
  apply elem_of_names_split in Hla as (l1 & cp & l2 & -> & Hcp).
  subst ordered. rewrite <- app_assoc in Hdecls. simpl in Hdecls.
  apply decl_chunks_app in Hdecls as (d1 & dr & Hd1 & Hdr & ->).
  apply decl_chunks_cons in Hdr as (dp0 & dr' & Hdp & Hdr' & ->).
  apply decl_chunks_app in Hdr' as (d2 & dr'' & Hd2 & Hdr'' & ->).
  apply decl_chunks_cons in Hdr'' as (dc0 & d3 & Hdc & Hd3 & ->).
  destruct (class_chunks_header _ _ _ Hdp) as [dp ->].
  destruct (class_chunks_header _ _ _ Hdc) as [dc ->].
  exists l1, cp, l2, d1, dp, d2, dc, d3.
  do 7 (split; [done|]).
  rewrite <- !app_assoc. simpl.
  rewrite !fmap_app, !fmap_cons.
  repeat (rewrite ?join_app, ?join_cons, ?app_assoc_s). rewrite !fmap_app.
  repeat (rewrite ?join_app, ?join_cons, ?app_assoc_s).
  rewrite fmap_cons.
  repeat (rewrite ?join_app, ?join_cons, ?app_assoc_s).
  reflexivity.
Qed.

(** ** Claims on the extractor *)



(** ** The concrete scenarios *)

Lemma normalize_float32 : normalize_type "float32" = Some (NScalar "float").
Proof. vm_compute. reflexivity. Qed.

Lemma normalize_Vector : normalize_type "Vector" = Some (NScalar "Vector3").
Proof. vm_compute. reflexivity. Qed.

Lemma size_of_float : size_of "float" = 4.
Proof. vm_compute. reflexivity. Qed.

Lemma size_of_Vector3 : size_of "Vector3" = 12.
Proof. vm_compute. reflexivity. Qed.

Lemma size_walk_field (cur : Z) (line : string) (rest : list string)
    (var ctype : string) (offset : Z) (nt : ntype) :
  field_of_line line = Some (var, offset, ctype) ->
  normalize_type ctype = Some nt ->
  size_walk cur (line :: rest) = size_walk (Z.max cur (offset + nt_size nt)) rest.
Proof.
  intros H1 H2. cbn [size_walk]. rewrite H1, H2. cbn [mbind option_bind].
  f_equal. case_bool_decide; lia.
Qed.

Lemma emit_walk_scalar (cur : Z) (line : string) (rest : list string)
    (var ctype name : string) (offset : Z) :
  field_of_line line = Some (var, offset, ctype) ->
  normalize_type ctype = Some (NScalar name) ->
  cur <= offset ->
  emit_walk cur (line :: rest) =
    r ← emit_walk (offset + size_of name) rest;
    Some ((if bool_decide (offset > cur) then [MPad cur (offset - cur)] else [])
            ++ MField name var offset ctype :: r.1, r.2).
Proof.
  intros H1 H2 Hle. cbn [emit_walk]. rewrite H1.
  rewrite bool_decide_eq_false_2 by lia. rewrite H2. reflexivity.
Qed.

(** C4.  A class with no parent whose fields are [m_flHealth] at [0x0] of
    raw type [float32] and [m_vecPos] at [0x10] of raw type [Vector] is
    emitted as a [float] field of 4 bytes at 0, a padding member [pad_0004]
    of 12 bytes and a [Vector3] field at [0x10], in that order, and its
    size is 28 bytes. *)
Theorem health_pos_layout (sizes : gmap string Z)
    (name line1 line2 : string) :
  field_of_line line1 = Some ("m_flHealth", 0, "float32") ->
  field_of_line line2 = Some ("m_vecPos", 16, "Vector") ->
  class_members sizes (name, None, [line1; line2]) =
    Some ([MField "float" "m_flHealth" 0 "float32"; MPad 4 12;
           MField "Vector3" "m_vecPos" 16 "Vector"], 28) /\
  member_size <$> [MField "float" "m_flHealth" 0 "float32"; MPad 4 12;
                   MField "Vector3" "m_vecPos" 16 "Vector"] = [4; 12; 12] /\
  render <$> [MField "float" "m_flHealth" 0 "float32"; MPad 4 12;
              MField "Vector3" "m_vecPos" 16 "Vector"] =
    ["    float m_flHealth; // 0x0000 float32" +:+ NL;
     "    char pad_0004[12];" +:+ NL;
     "    Vector3 m_vecPos; // 0x0010 Vector" +:+ NL] /\
  class_size sizes (name, None, [line1; line2]) = Some 28 /\
  compute_class_sizes [(name, None, [line1; line2])] = Some {[name := 28]}.
Proof.
  intros H1 H2.
  assert (Hw : size_walk 0 [line1; line2] = Some 28).
  { rewrite (size_walk_field _ _ _ _ _ _ _ H1 normalize_float32).
    rewrite (size_walk_field _ _ _ _ _ _ _ H2 normalize_Vector).
    cbn [size_walk nt_size]. by rewrite size_of_float, size_of_Vector3. }
  split; [|split; [|split; [|split]]].
  - unfold class_members. cbn [fst snd parent_size_of].
    rewrite (emit_walk_scalar _ _ _ _ _ _ _ H1 normalize_float32) by lia.
    rewrite size_of_float.
    rewrite (emit_walk_scalar _ _ _ _ _ _ _ H2 normalize_Vector) by lia.
    rewrite size_of_Vector3. cbn [emit_walk mbind option_bind fst snd].
    rewrite bool_decide_eq_false_2 by lia.
    rewrite bool_decide_eq_true_2 by lia. reflexivity.
  - cbn [fmap list_fmap member_size]. by rewrite size_of_float, size_of_Vector3.
  - vm_compute. reflexivity.
  - unfold class_size. cbn [fst snd]. rewrite Hw. reflexivity.
  - unfold compute_class_sizes. cbn [compute_sizes_from]. unfold class_size.
    cbn [fst snd]. rewrite Hw. cbn [mbind option_bind size_get]. reflexivity.
Qed.



(** ** The example dumps, evaluated

    In the example dumps no class has two children, so that every set the
    orderer iterates over has at most one element and every enumeration
    [set_iter] gives the result computed here with [elements]. *)

Example dump_health_converted :
  parse_classes dump_health = [("C_Foo", "None", [line_health; line_pos])] /\
  order_classes elements (parse_classes dump_health) =
    Some [("C_Foo", None, [line_health; line_pos])] /\
  convert_file elements dump_health =
    Some (join (preamble ++
      ["class C_Foo;" +:+ NL; NL;
       "class C_Foo" +:+ NL +:+ "{" +:+ NL +:+ "public:" +:+ NL;
       "    float m_flHealth; // 0x0000 float32" +:+ NL;
       "    char pad_0004[12];" +:+ NL;
       "    Vector3 m_vecPos; // 0x0010 Vector" +:+ NL;
       "};" +:+ NL +:+ NL])).
Proof. split; [|split]; vm_compute; reflexivity. Qed.

Example dump_family_converted :
  parse_classes dump_family =
    [("Derived", "Base", [line_pos]); ("Base", "None", [line_health])] /\
  order_classes elements (parse_classes dump_family) =
    Some [("Base", None, [line_health]); ("Derived", Some "Base", [line_pos])] /\
  compute_class_sizes
    [("Base", None, [line_health]); ("Derived", Some "Base", [line_pos])] =
    Some {["Base" := 4; "Derived" := 28]} /\
  convert_file elements dump_family =
    Some (join (preamble ++
      ["class Base;" +:+ NL; "class Derived;" +:+ NL; NL;
       "class Base" +:+ NL +:+ "{" +:+ NL +:+ "public:" +:+ NL;
       "    float m_flHealth; // 0x0000 float32" +:+ NL;
       "};" +:+ NL +:+ NL;
       "class Derived : public Base" +:+ NL +:+ "{" +:+ NL +:+ "public:" +:+ NL;
       "    char pad_0004[12];" +:+ NL;
       "    Vector3 m_vecPos; // 0x0010 Vector" +:+ NL;
       "};" +:+ NL +:+ NL])).
Proof. split; [|split; [|split]]; vm_compute; reflexivity. Qed.

(** ** Counterexamples to the claims the code does not meet *)

(** C1, as the specification states it, fails: the field [b] starts at
    byte 4, below the cursor 8 that the field [a] leaves, and it is not
    skipped: it moves the cursor, and the size of the class, to 20. *)
Lemma layout_counts_overlapping_field :
  size_walk 0 [line_a] = Some 8 /\
  field_of_line line_b = Some ("b", 4, "Vector4") /\
  4 < 8 /\
  size_walk 0 ([line_a] ++ [line_b]) = Some 20 /\
  compute_class_sizes [("C", None, [line_a; line_b])] = Some {["C" := 20]}.
Proof. split; [|split; [|split; [|split]]]; vm_compute; reflexivity. Qed.

(** C2, as the specification states it, fails: on the same class the
    emitter drops the field [b], which the layout computer counts; the
    emitted body ends at byte 8 and the size table says 20. *)
Lemma emitter_drops_what_layout_counts :
  parse_classes dump_overlap = [("C", "None", [line_a; line_b])] /\
  order_classes elements (parse_classes dump_overlap) =
    Some [("C", None, [line_a; line_b])] /\
  compute_class_sizes [("C", None, [line_a; line_b])] = Some {["C" := 20]} /\
  class_members {["C" := 20]} ("C", None, [line_a; line_b]) =
    Some ([MField "int64_t" "a" 0 "int64"], 8) /\
  field_lines [line_a; line_b] = [line_a; line_b] /\
  size_walk 0 [line_a; line_b] = Some 20.
Proof.
  split; [|split; [|split; [|split; [|split]]]]; vm_compute; reflexivity.
Qed.

(** C5, as the specification states it, fails: the extractor yields two
    classes named [A], and the ordered sequence holds one record, with the
    fields of the second. *)
Lemma orderer_keeps_last_of_two :
  parse_classes dump_twice = [("A", "X", []); ("A", "Y", [line_m])] /\
  order_classes elements (parse_classes dump_twice) =
    Some [("A", None, [line_m])].
Proof. split; vm_compute; reflexivity. Qed.

(** ** The theorems at concrete inputs *)

Lemma elements_perm : forall X : gset string, elements X ≡ₚ elements X.
Proof. done. Defined.

Lemma layout_cursor_takes_every_field_witness :
  (size_walk 0 [line_a] = Some 8 /\
   field_of_line line_b = Some ("b", 4, "Vector4")) /\
  exists nt, normalize_type "Vector4" = Some nt /\
    size_walk 0 ([line_a] ++ [line_b]) = Some (Z.max 8 (4 + nt_size nt)).
Proof.
  assert (H1 : size_walk 0 [line_a] = Some 8) by (vm_compute; reflexivity).
  assert (H2 : field_of_line line_b = Some ("b", 4, "Vector4"))
    by (vm_compute; reflexivity).
  split; [by split|].
  exact (layout_cursor_takes_every_field [line_a] line_b "b" "Vector4" 4 8 H1 H2).
Defined.

Lemma emitter_ends_within_table_size_witness :
  (forall X : gset string, elements X ≡ₚ elements X) /\
  exists ordered sizes,
    order_classes elements (parse_classes dump_overlap) = Some ordered /\
    compute_class_sizes ordered = Some sizes /\
    forall c, c ∈ ordered ->
      exists members last size,
        class_members sizes c = Some (members, last) /\
        sizes !! c.1.1 = Some size /\
        last = parent_size_of sizes c.1.2 + sum_sizes members /\
        last <= size /\
        (length (emitted_fields members) <= length (field_lines c.2))%nat /\
        (length (emitted_fields members) = length (field_lines c.2) ->
         last = size).
Proof.
  split; [exact elements_perm|].
  exact (emitter_ends_within_table_size elements dump_overlap elements_perm).
Defined.

Lemma emitted_field_lands_at_offset_witness :
  (class_members ∅ ("C_Foo", None, [line_health; line_pos]) =
     Some ([MField "float" "m_flHealth" 0 "float32"; MPad 4 12;
            MField "Vector3" "m_vecPos" 16 "Vector"], 28) /\
   [MField "float" "m_flHealth" 0 "float32"; MPad 4 12;
    MField "Vector3" "m_vecPos" 16 "Vector"] =
     [MField "float" "m_flHealth" 0 "float32"; MPad 4 12] ++
     MField "Vector3" "m_vecPos" 16 "Vector" :: []) /\
  (forall offset,
     member_offset (MField "Vector3" "m_vecPos" 16 "Vector") = Some offset ->
     parent_size_of ∅ (None : option string) +
       sum_sizes [MField "float" "m_flHealth" 0 "float32"; MPad 4 12] = offset) /\
  (forall last_offset pad_size,
     MField "Vector3" "m_vecPos" 16 "Vector" = MPad last_offset pad_size ->
     last_offset = parent_size_of ∅ (None : option string) +
       sum_sizes [MField "float" "m_flHealth" 0 "float32"; MPad 4 12] /\
     0 < pad_size /\
     exists f post', [] = f :: post' /\
       member_offset f = Some (last_offset + pad_size)).
Proof.
  assert (H1 : class_members ∅ ("C_Foo", None, [line_health; line_pos]) =
     Some ([MField "float" "m_flHealth" 0 "float32"; MPad 4 12;
            MField "Vector3" "m_vecPos" 16 "Vector"], 28))
    by (vm_compute; reflexivity).
  split; [by split|].
  exact (emitted_field_lands_at_offset ∅ ("C_Foo", None, [line_health; line_pos])
           _ [MField "float" "m_flHealth" 0 "float32"; MPad 4 12] []
           (MField "Vector3" "m_vecPos" 16 "Vector") 28 H1 eq_refl).
Defined.

Lemma health_pos_layout_witness :
  (field_of_line line_health = Some ("m_flHealth", 0, "float32") /\
   field_of_line line_pos = Some ("m_vecPos", 16, "Vector")) /\
  class_members ∅ ("C_Foo", None, [line_health; line_pos]) =
    Some ([MField "float" "m_flHealth" 0 "float32"; MPad 4 12;
           MField "Vector3" "m_vecPos" 16 "Vector"], 28) /\
  member_size <$> [MField "float" "m_flHealth" 0 "float32"; MPad 4 12;
                   MField "Vector3" "m_vecPos" 16 "Vector"] = [4; 12; 12] /\
  render <$> [MField "float" "m_flHealth" 0 "float32"; MPad 4 12;
              MField "Vector3" "m_vecPos" 16 "Vector"] =
    ["    float m_flHealth; // 0x0000 float32" +:+ NL;
     "    char pad_0004[12];" +:+ NL;
     "    Vector3 m_vecPos; // 0x0010 Vector" +:+ NL] /\
  class_size ∅ ("C_Foo", None, [line_health; line_pos]) = Some 28 /\
  compute_class_sizes [("C_Foo", None, [line_health; line_pos])] =
    Some {["C_Foo" := 28]}.
Proof.
  assert (H1 : field_of_line line_health = Some ("m_flHealth", 0, "float32"))
    by (vm_compute; reflexivity).
  assert (H2 : field_of_line line_pos = Some ("m_vecPos", 16, "Vector"))
    by (vm_compute; reflexivity).
  split; [by split|].
  exact (health_pos_layout ∅ "C_Foo" line_health line_pos H1 H2).
Defined.

Lemma ordered_has_one_record_per_name_witness :
  (forall X : gset string, elements X ≡ₚ elements X) /\
  exists ordered,
    order_classes elements (parse_classes dump_twice) = Some ordered /\
    NoDup (ordered.*1.*1) /\
    forall n op b, (n, op, b) ∈ ordered ->
      exists p l1 l2,
        parse_classes dump_twice = l1 ++ (n, p, b) :: l2 /\ n ∉ l2.*1.*1.
Proof.
  split; [exact elements_perm|].
  exact (ordered_has_one_record_per_name elements (parse_classes dump_twice)
           elements_perm).
Defined.

Lemma child_size_at_least_parent_witness :
  (forall X : gset string, elements X ≡ₚ elements X) /\
  exists ordered sizes,
    order_classes elements (parse_classes dump_family) = Some ordered /\
    compute_class_sizes ordered = Some sizes /\
    forall C P fields, (C, Some P, fields) ∈ ordered ->
      P ∈ (parse_classes dump_family).*1.*1 /\
      (exists l1 l2, ordered = l1 ++ (C, Some P, fields) :: l2 /\ P ∈ l1.*1.*1) /\
      (exists size_C size_P,
         sizes !! C = Some size_C /\ sizes !! P = Some size_P /\
         size_P <= size_C) /\
      (exists body,
         class_chunks sizes (C, Some P, fields) =
           Some (("class " +:+ C +:+ " : public " +:+ P +:+ NL +:+ "{" +:+ NL
                  +:+ "public:" +:+ NL) :: body)).
Proof.
  split; [exact elements_perm|].
  exact (child_size_at_least_parent elements dump_family elements_perm).
Defined.



(** * Further properties of the code *)

(** ** Which classes the orderer keeps *)

Lemma order_classes_kept (set_iter : gset string -> list string)
    (classes : list class_rec) (ordered : list ordered_rec) :
  (forall X, set_iter X ≡ₚ elements X) ->
  order_classes set_iter classes = Some ordered ->
  (forall n, n ∈ ordered.*1.*1 -> n ∈ classes.*1.*1) /\
  (forall n, n ∈ classes.*1.*1 ->
     (forall p, edge (name_to_class_of classes) classes n p ->
                p ∈ ordered.*1.*1) ->
     n ∈ ordered.*1.*1).
Proof.
  intros Hperm Hres.
  destruct (order_classes_inv set_iter classes Hperm) as (res' & ind & Hres' & Hinv).
  rewrite Hres in Hres'. injection Hres' as <-. split.
  - intros n Hn. apply name_to_class_dom, elem_of_dom.
    apply (inv_names _ _ _ _ _ Hinv). by rewrite app_nil_r.
  - intros n Hn Hall.
    pose proof (inv_ready _ _ _ _ _ Hinv n) as Hr. rewrite app_nil_r in Hr.
    assert (HnM : n ∈ dom (name_to_class_of classes)).
    { apply elem_of_dom. by apply name_to_class_dom. }
    apply (Hr HnM). intros p Hp. apply elem_of_done_set, Hall.
    destruct (build_deps_spec (name_to_class_of classes) classes n p) as [H1 _].
    by apply H1.
Qed.

(** A class of the dump is in the ordered sequence exactly when every
    parent it has among the classes is, and the sequence holds no other
    name than those of the dump. *)
Theorem class_kept_iff_parents_kept (set_iter : gset string -> list string)
    (classes : list class_rec) :
  (forall X, set_iter X ≡ₚ elements X) ->
  exists ordered,
    order_classes set_iter classes = Some ordered /\
    (forall n, n ∈ ordered.*1.*1 -> n ∈ classes.*1.*1) /\
    (forall n, n ∈ classes.*1.*1 ->
       (n ∈ ordered.*1.*1 <->
        forall p, edge (name_to_class_of classes) classes n p ->
                  p ∈ ordered.*1.*1)).
Proof.
  intros Hperm.
  destruct (order_classes_inv set_iter classes Hperm) as (ordered & ind & Hord & Hinv).
  exists ordered. split; [done|]. split.
  - intros n Hn. apply name_to_class_dom, elem_of_dom.
    apply (inv_names _ _ _ _ _ Hinv). by rewrite app_nil_r.
  - intros n Hn.
    pose proof (inv_ready _ _ _ _ _ Hinv n) as Hr. rewrite app_nil_r in Hr.
    assert (HnM : n ∈ dom (name_to_class_of classes)).
    { apply elem_of_dom. by apply name_to_class_dom. }
    rewrite (Hr HnM). split.
    + intros Hsub p Hp. apply elem_of_done_set, Hsub. by apply build_deps_spec.
    + intros Hall p Hp. apply elem_of_done_set, Hall.
      destruct (build_deps_spec (name_to_class_of classes) classes n p) as [H1 _].
      by apply H1.
Qed.

(** A class on a cycle of the dependency graph, a class that names itself
    as its parent among them, is never in the ordered sequence. *)
Theorem class_on_cycle_is_dropped (set_iter : gset string -> list string)
    (classes : list class_rec) (n : string) :
  (forall X, set_iter X ≡ₚ elements X) ->
  tc (edge (name_to_class_of classes) classes) n n ->
  exists ordered,
    order_classes set_iter classes = Some ordered /\ n ∉ ordered.*1.*1.
Proof.
  intros Hperm Hcycle.
  destruct (order_classes_inv set_iter classes Hperm) as (ordered & ind & Hord & _).
  exists ordered. split; [done|].
  assert (Hbefore : forall a b,
            tc (edge (name_to_class_of classes) classes) a b ->
            forall l1 x l2, ordered = l1 ++ x :: l2 -> x.1.1 = a ->
                            b ∈ l1.*1.*1).
  { intros a b Htc. induction Htc as [a b Hedge|a p b Hedge _ IH];
      intros l1 x l2 Heq Hx.
    - by eapply (order_classes_edge set_iter classes ordered).
    - pose proof (order_classes_edge set_iter classes ordered Hperm Hord
                    a p l1 x l2 Hedge Heq Hx) as Hp.
      apply elem_of_names_split in Hp as (la & y & lb & -> & Hy).
      rewrite <- app_assoc in Heq. simpl in Heq.
      pose proof (IH la y _ Heq Hy) as Hb.
      rewrite !fmap_app. apply elem_of_app. by left. }
  intros (l1 & x & l2 & Heq & Hx)%elem_of_names_split.
  pose proof (Hbefore n n Hcycle l1 x l2 Heq Hx) as Hin.
  pose proof (order_classes_NoDup set_iter classes ordered Hperm Hord) as Hnd.
  rewrite Heq, !fmap_app in Hnd. simpl in Hnd.
  apply NoDup_app in Hnd as (_ & Hd & _). apply (Hd n Hin).
  rewrite Hx. by left.
Qed.

(** When the dependency graph has no cycle (the classes can be ranked so
    that every parent ranks below its children), the orderer drops no
    class: the ordered sequence holds every name of the dump, once. *)
Theorem acyclic_dump_keeps_every_class (set_iter : gset string -> list string)
    (classes : list class_rec) (rank : string -> nat) :
  (forall X, set_iter X ≡ₚ elements X) ->
  (forall n p, edge (name_to_class_of classes) classes n p ->
               (rank p < rank n)%nat) ->
  exists ordered,
    order_classes set_iter classes = Some ordered /\
    ordered.*1.*1 ≡ₚ dict_keys (classes.*1.*1).
Proof.
  intros Hperm Hrank.
  destruct (order_classes_inv set_iter classes Hperm) as (ordered & _ & Hord & _).
  destruct (order_classes_kept set_iter classes ordered Hperm Hord) as [Hsub Hiff].
  exists ordered. split; [done|].
  assert (Hall : forall k n, (rank n < k)%nat -> n ∈ classes.*1.*1 ->
                             n ∈ ordered.*1.*1).
  { induction k as [|k IH]; intros n Hk Hn; [lia|].
    apply Hiff; [done|]. intros p Hp. apply IH.
    - specialize (Hrank n p Hp). lia.
    - destruct Hp as (_ & _ & Hp). exact (proj1 (name_to_class_dom _ _) Hp). }
  destruct (dict_keys_spec (classes.*1.*1)) as [Hk1 Hk2].
  apply NoDup_Permutation; [by eapply order_classes_NoDup|done|].
  intros n. rewrite Hk2. split; [apply Hsub|].
  intros Hn. apply (Hall (S (rank n))); [lia|done].
Qed.

(** ** The order of the classes with no parent among the classes *)

Lemma relax_all_queue (L : list string) :
  forall (st st' : gmap string Z * list string),
    relax_all st L = Some st' -> exists new, st'.2 = st.2 ++ new.
Proof.
  induction L as [|dep L IH]; intros st st'; simpl.
  - intros [= <-]. exists []. by rewrite app_nil_r.
  - unfold relax at 1. destruct (st.1 !! dep) as [d|]; simpl; [|done].
    intros (new & ->)%IH. simpl. case_bool_decide.
    + exists ([dep] ++ new). by rewrite <- app_assoc.
    + by exists new.
Qed.

Lemma order_loop_prefix (set_iter : gset string -> list string) (fuel : nat)
    (M : gmap string class_rec) (rev_deps : gmap string (gset string)) :
  forall indegree queue ordered res,
    order_loop set_iter fuel M rev_deps indegree queue ordered = Some res ->
    exists rest, res.*1.*1 = ordered.*1.*1 ++ queue ++ rest.
Proof.
  induction fuel as [|fuel IH]; intros indegree queue ordered res.
  - destruct queue; simpl; [|done]. intros [= <-]. exists []. by rewrite app_nil_r.
  - destruct queue as [|name queue]; simpl.
    { intros [= <-]. exists []. by rewrite app_nil_r. }
    destruct (M !! name) as [c|]; simpl; [|done].
    destruct (relax_all (indegree, queue) (set_iter (set_of rev_deps name)))
      as [st|] eqn:Hst; simpl; [|done].
    apply relax_all_queue in Hst as [new Hnew]. simpl in Hnew.
    intros (rest & ->)%IH. rewrite Hnew. exists (new ++ rest).
    rewrite !fmap_app. simpl. by rewrite <- !app_assoc.
Qed.

(** The ordered sequence starts with the classes that have no parent
    among the classes, in the order in which their names first occur in
    the dump. *)
Theorem roots_come_first_in_dump_order (set_iter : gset string -> list string)
    (classes : list class_rec) :
  (forall X, set_iter X ≡ₚ elements X) ->
  exists ordered rest,
    order_classes set_iter classes = Some ordered /\
    ordered.*1.*1 =
      filter (fun n => set_of (build_deps (name_to_class_of classes) classes).1 n = ∅)
             (dict_keys (classes.*1.*1)) ++ rest /\
    forall n,
      set_of (build_deps (name_to_class_of classes) classes).1 n = ∅ <->
      forall p, ~ edge (name_to_class_of classes) classes n p.
Proof.
  intros Hperm.
  destruct (order_classes_inv set_iter classes Hperm) as (ordered & _ & Hord & _).
  pose proof (build_deps_spec (name_to_class_of classes) classes) as Hspec.
  pose proof Hord as Hloop. unfold order_classes in Hloop.
  destruct (build_deps (name_to_class_of classes) classes) as [deps rev_deps].
  cbn [fst snd] in *.
  apply order_loop_prefix in Hloop as [rest Hrest]. simpl in Hrest.
  exists ordered, rest. split; [done|]. split.
  - rewrite Hrest. f_equal. apply filter_ext_in. intros n Hn.
    apply (proj1 (proj2 (dict_keys_spec _) n)) in Hn.
    rewrite indegree_of_spec. rewrite decide_True by exact Hn.
    split.
    + intros [= H]. apply leibniz_equiv, size_empty_iff. lia.
    + intros ->. by rewrite size_empty.
  - intros n. split.
    + intros Hn p Hp. apply (proj2 (proj1 (Hspec n p))) in Hp.
      rewrite Hn in Hp. set_solver.
    + intros Hno. apply leibniz_equiv. intros p. split; [|set_solver].
      intros Hp. exfalso. apply (Hno p). exact (proj1 (proj1 (Hspec n p)) Hp).
Qed.

(** ** The orderer at concrete dumps *)

Lemma dump_cycle_parsed :
  parse_classes dump_cycle =
    [("A", "B", []); ("B", "A", []); ("Root", "None", [])].
Proof. vm_compute. reflexivity. Qed.

Lemma dump_cycle_has_A : is_Some (name_to_class_of (parse_classes dump_cycle) !! "A").
Proof. vm_compute. eauto. Qed.

Lemma dump_cycle_has_B : is_Some (name_to_class_of (parse_classes dump_cycle) !! "B").
Proof. vm_compute. eauto. Qed.

Lemma dump_cycle_is_cycle :
  tc (edge (name_to_class_of (parse_classes dump_cycle)) (parse_classes dump_cycle))
     "A" "A".
Proof.
  apply tc_l with "B"; [|apply tc_once].
  - split; [|split; [done|apply dump_cycle_has_B]].
    exists []. rewrite dump_cycle_parsed. by left.
  - split; [|split; [done|apply dump_cycle_has_A]].
    exists []. rewrite dump_cycle_parsed. right. by left.
Qed.

Lemma dump_cycle_ordered :
  order_classes elements (parse_classes dump_cycle) = Some [("Root", None, [])].
Proof. vm_compute. reflexivity. Qed.

Lemma dump_family_no_None :
  name_to_class_of (parse_classes dump_family) !! "None" = None.
Proof. vm_compute. reflexivity. Qed.

Lemma dump_family_ranked (n p : string) :
  edge (name_to_class_of (parse_classes dump_family)) (parse_classes dump_family) n p ->
  ((if String.eqb p "Derived" then 1 else 0) <
   (if String.eqb n "Derived" then 1 else 0))%nat.
Proof.
  intros ([b Hb] & _ & HM).
  rewrite (proj1 dump_family_converted) in Hb.
  apply elem_of_cons in Hb as [[= -> -> _]|Hb]; [simpl; lia|].
  apply list_elem_of_singleton in Hb as [= -> -> _].
  rewrite dump_family_no_None in HM. by destruct HM.
Qed.

Lemma class_kept_iff_parents_kept_witness :
  (forall X : gset string, elements X ≡ₚ elements X) /\
  exists ordered,
    order_classes elements (parse_classes dump_cycle) = Some ordered /\
    (forall n, n ∈ ordered.*1.*1 -> n ∈ (parse_classes dump_cycle).*1.*1) /\
    (forall n, n ∈ (parse_classes dump_cycle).*1.*1 ->
       (n ∈ ordered.*1.*1 <->
        forall p, edge (name_to_class_of (parse_classes dump_cycle))
                       (parse_classes dump_cycle) n p ->
                  p ∈ ordered.*1.*1)).
Proof.
  split; [exact elements_perm|].
  exact (class_kept_iff_parents_kept elements (parse_classes dump_cycle)
           elements_perm).
Defined.

Lemma class_on_cycle_is_dropped_witness :
  ((forall X : gset string, elements X ≡ₚ elements X) /\
   tc (edge (name_to_class_of (parse_classes dump_cycle)) (parse_classes dump_cycle))
      "A" "A") /\
  exists ordered,
    order_classes elements (parse_classes dump_cycle) = Some ordered /\
    "A" ∉ ordered.*1.*1.
Proof.
  split; [split; [exact elements_perm|exact dump_cycle_is_cycle]|].
  exact (class_on_cycle_is_dropped elements (parse_classes dump_cycle) "A"
           elements_perm dump_cycle_is_cycle).
Defined.

Lemma acyclic_dump_keeps_every_class_witness :
  ((forall X : gset string, elements X ≡ₚ elements X) /\
   forall n p,
     edge (name_to_class_of (parse_classes dump_family))
          (parse_classes dump_family) n p ->
     ((if String.eqb p "Derived" then 1 else 0) <
      (if String.eqb n "Derived" then 1 else 0))%nat) /\
  exists ordered,
    order_classes elements (parse_classes dump_family) = Some ordered /\
    ordered.*1.*1 ≡ₚ dict_keys ((parse_classes dump_family).*1.*1).
Proof.
  split; [split; [exact elements_perm|exact dump_family_ranked]|].
  exact (acyclic_dump_keeps_every_class elements (parse_classes dump_family)
           (fun n => if String.eqb n "Derived" then 1%nat else 0%nat)
           elements_perm dump_family_ranked).
Defined.

Lemma roots_come_first_in_dump_order_witness :
  (forall X : gset string, elements X ≡ₚ elements X) /\
  exists ordered rest,
    order_classes elements (parse_classes dump_family) = Some ordered /\
    ordered.*1.*1 =
      filter (fun n => set_of (build_deps (name_to_class_of (parse_classes dump_family))
                                 (parse_classes dump_family)).1 n = ∅)
             (dict_keys ((parse_classes dump_family).*1.*1)) ++ rest /\
    forall n,
      set_of (build_deps (name_to_class_of (parse_classes dump_family))
                (parse_classes dump_family)).1 n = ∅ <->
      forall p, ~ edge (name_to_class_of (parse_classes dump_family))
                       (parse_classes dump_family) n p.
Proof.
  split; [exact elements_perm|].
  exact (roots_come_first_in_dump_order elements (parse_classes dump_family)
           elements_perm).
Defined.



(** ** The size table and the fields *)

Lemma size_walk_attained (fields : list string) :
  forall cur r, size_walk cur fields = Some r ->
    r = cur \/
    exists line var offset ctype nt,
      line ∈ fields /\ field_of_line line = Some (var, offset, ctype) /\
      normalize_type ctype = Some nt /\ r = offset + nt_size nt.
Proof.
  induction fields as [|l fields IH]; intros cur r; simpl.
  - intros [= ->]. by left.
  - destruct (field_of_line l) as [[[var offset] ctype]|] eqn:Hl.
    2:{ intros [->|(line & v & o & ct & nt & Hin & H)]%IH; [by left|right].
        exists line, v, o, ct, nt. split; [by right|done]. }
    destruct (normalize_type ctype) as [nt|] eqn:Hnt; simpl; [|done].
    intros [->|(line & v & o & ct & nt' & Hin & H)]%IH.
    + case_bool_decide; [right|by left].
      exists l, var, offset, ctype, nt. split; [by left|done].
    + right. exists line, v, o, ct, nt'. split; [by right|done].
Qed.

(** The size table has an entry for exactly the classes of the ordered
    sequence; the size of a class is not negative, is at least the size of
    its parent and at least the end of each of its fields, overlapping or
    not, and it is attained: it is 0, the parent's size or the end of one
    of the fields. *)
Theorem table_size_covers_every_field (set_iter : gset string -> list string)
    (text : string) :
  (forall X, set_iter X ≡ₚ elements X) ->
  exists ordered sizes,
    order_classes set_iter (parse_classes text) = Some ordered /\
    compute_class_sizes ordered = Some sizes /\
    (forall n, is_Some (sizes !! n) <-> n ∈ ordered.*1.*1) /\
    forall c, c ∈ ordered ->
      exists size,
        sizes !! c.1.1 = Some size /\
        0 <= size /\ parent_size_of sizes c.1.2 <= size /\
        (forall line var offset ctype,
           line ∈ c.2 -> field_of_line line = Some (var, offset, ctype) ->
           exists nt, normalize_type ctype = Some nt /\
                      offset + nt_size nt <= size) /\
        (size = 0 \/ size = parent_size_of sizes c.1.2 \/
         exists line var offset ctype nt,
           line ∈ c.2 /\ field_of_line line = Some (var, offset, ctype) /\
           normalize_type ctype = Some nt /\ size = offset + nt_size nt).
Proof.
  intros Hperm.
  destruct (convert_file_stages set_iter text Hperm)
    as (ordered & sizes & decls & Hord & Hsizes & _ & _ & Hwo).
  exists ordered, sizes. split; [done|]. split; [done|]. split.
  - intros n. split.
    + intros Hn. destruct (decide (n ∈ ordered.*1.*1)) as [|Hno]; [done|].
      rewrite (compute_sizes_from_frame _ _ _ _ Hsizes Hno), lookup_empty in Hn.
      by destruct Hn.
    + by eapply compute_sizes_from_dom.
  - intros c (l1 & l2 & Heq)%list_elem_of_split.
    destruct (compute_sizes_entry ordered sizes l1 l2 c Hwo Hsizes Heq)
      as (r & Hr & Hc & Hp & _).
    exists (Z.max r (parent_size_of sizes c.1.2)). split; [done|].
    pose proof (size_walk_ge _ _ _ Hr) as Hge.
    split; [lia|]. split; [lia|]. split.
    + intros line var offset ctype Hin Hline.
      destruct (normalize_type_is_Some ctype) as [nt Hnt]. exists nt.
      split; [done|].
      pose proof (size_walk_covers _ _ _ Hr line var offset ctype nt Hin Hline Hnt).
      lia.
    + destruct (Z.max_spec r (parent_size_of sizes c.1.2)) as [[_ ->]|[_ ->]];
        [by right; left|].
      apply size_walk_attained in Hr as [->|H]; [by left|]. by right; right.
Qed.

(** ** What the emitter emits *)

Lemma emit_walk_sizes (fields : list string) :
  forall cur ms last,
    emit_walk cur fields = Some (ms, last) ->
    Forall (fun m => 0 <= member_size m) ms /\ Forall member_typed ms /\
    omap member_source ms `sublist_of` omap field_of_line fields.
Proof.
  induction fields as [|line fields IH]; intros cur ms last; simpl.
  - intros [= <- <-]. split; [constructor|]. split; constructor.
  - destruct (field_of_line line) as [[[var offset] ctype]|]; [|apply IH].
    case_bool_decide as Hlt.
    { intros (H1 & H2 & H3)%IH. split; [done|]. split; [done|].
      by apply sublist_cons. }
    destruct (normalize_type ctype) as [nt|] eqn:Hnt; simpl; [|done].
    destruct (emit_walk (offset + nt_size nt) fields) as [[ms' last']|] eqn:Hw;
      simpl; [|done].
    intros [= <- <-]. destruct (IH _ _ _ Hw) as (H1 & H2 & H3).
    pose proof (nt_size_nonneg _ _ Hnt) as Hsz.
    assert (Hf : 0 <= member_size
                   match nt with
                   | NArray base_type count => MArray base_type var count offset ctype
                   | NScalar name => MField name var offset ctype
                   end) by (by rewrite member_size_of_field).
    assert (Ht : member_typed
                   match nt with
                   | NArray base_type count => MArray base_type var count offset ctype
                   | NScalar name => MField name var offset ctype
                   end) by (by destruct nt).
    assert (Hs : member_source
                   match nt with
                   | NArray base_type count => MArray base_type var count offset ctype
                   | NScalar name => MField name var offset ctype
                   end = Some (var, offset, ctype)) by (by destruct nt).
    case_bool_decide as Hgt; simpl.
    + split; [constructor; [simpl; lia|by constructor]|].
      split; [constructor; [done|by constructor]|].
      rewrite Hs. by apply sublist_skip.
    + split; [by constructor|]. split; [by constructor|].
      rewrite Hs. by apply sublist_skip.
Qed.

Lemma sum_sizes_nonneg (ms : list member) :
  Forall (fun m => 0 <= member_size m) ms -> 0 <= sum_sizes ms.
Proof.
  unfold sum_sizes. induction 1 as [|m ms Hm _ IH]; simpl; lia.
Qed.

Lemma lands_head_offset (cur : Z) (m : member) (ms : list member) (o : Z) :
  lands cur (m :: ms) -> member_offset m = Some o -> o = cur.
Proof. destruct m; simpl; [done| |]; intros [H _] ?; congruence. Qed.

(** The fields of an emitted class body never overlap and stand in the
    order of their offsets: every field, the first and the only one of a
    body too, starts at or after the parent's size and ends at or before
    the final cursor, and a field ends at or before the offset of every
    field emitted after it. *)
Theorem emitted_fields_never_overlap (sizes : gmap string Z) (c : ordered_rec)
    (members : list member) (last : Z) :
  class_members sizes c = Some (members, last) ->
  (forall pre m post o,
     members = pre ++ m :: post -> member_offset m = Some o ->
     parent_size_of sizes c.1.2 <= o /\ o + member_size m <= last) /\
  (forall pre m mid m' post o o',
     members = pre ++ m :: mid ++ m' :: post ->
     member_offset m = Some o -> member_offset m' = Some o' ->
     o + member_size m <= o' /\ o' + member_size m' <= last).
Proof.
  unfold class_members. intros Hw.
  pose proof (emit_walk_sizes _ _ _ _ Hw) as (Hnn & _ & _).
  apply emit_walk_lands in Hw as [Hl ->].
  assert (Hone : forall pre m post o,
     members = pre ++ m :: post -> member_offset m = Some o ->
     parent_size_of sizes c.1.2 + sum_sizes pre = o /\
     0 <= sum_sizes pre /\ 0 <= sum_sizes post).
  { intros pre m post o -> Hm.
    pose proof (lands_split _ _ _ _ Hl) as H1.
    apply (lands_head_offset _ _ _ _ H1) in Hm as ->.
    apply Forall_app in Hnn as [Hpre Hpost].
    apply Forall_cons in Hpost as [_ Hpost].
    split; [reflexivity|].
    split; by apply sum_sizes_nonneg. }
  split.
  - intros pre m post o E Hm. destruct (Hone _ _ _ _ E Hm) as (<- & Hpre & Hpost).
    subst members. rewrite sum_sizes_app.
    change (sum_sizes (m :: post)) with (member_size m + sum_sizes post). lia.
  - intros pre m mid m' post o o' E Hm Hm'.
    destruct (Hone _ _ _ _ E Hm) as (<- & Hpre & _).
    assert (E' : members = (pre ++ m :: mid) ++ m' :: post)
      by (by rewrite E, <- app_assoc).
    destruct (Hone _ _ _ _ E' Hm') as (<- & Hpm & Hpost).
    assert (Hmid : 0 <= sum_sizes mid).
    { apply sum_sizes_nonneg. rewrite E in Hnn.
      apply Forall_app in Hnn as [_ Hnn]. apply Forall_cons in Hnn as [_ Hnn].
      by apply Forall_app in Hnn as [Hnn _]. }
    rewrite E'. rewrite !sum_sizes_app.
    change (sum_sizes (m :: mid)) with (member_size m + sum_sizes mid).
    change (sum_sizes (m' :: post)) with (member_size m' + sum_sizes post).
    lia.
Qed.

(** The emitter invents and reorders nothing: the fields of an emitted
    body are field lines of the class, in source order, with their name,
    offset and raw type unchanged, and the type each is emitted with is
    the normalised raw type. *)
Theorem emitted_fields_come_from_field_lines (sizes : gmap string Z)
    (c : ordered_rec) (members : list member) (last : Z) :
  class_members sizes c = Some (members, last) ->
  omap member_source members `sublist_of` omap field_of_line c.2 /\
  Forall member_typed members.
Proof.
  unfold class_members. intros (_ & H1 & H2)%emit_walk_sizes. by split.
Qed.

Lemma emit_walk_in_order (fields : list string) :
  forall cur ms last,
    in_order cur fields ->
    emit_walk cur fields = Some (ms, last) ->
    omap member_source ms = omap field_of_line fields /\
    length (emitted_fields ms) = length (field_lines fields).
Proof.
  induction fields as [|line fields IH]; intros cur ms last; simpl.
  - intros _ [= <- <-]. done.
  - rewrite field_lines_cons.
    destruct (field_of_line line) as [[[var offset] ctype]|]; [|apply IH].
    intros [Hle Hrest]. rewrite bool_decide_eq_false_2 by lia.
    destruct (normalize_type ctype) as [nt|] eqn:Hnt; simpl; [|done].
    destruct (emit_walk (offset + nt_size nt) fields) as [[ms' last']|] eqn:Hw;
      simpl; [|done].
    intros [= <- <-]. destruct (IH _ _ _ (Hrest nt eq_refl) Hw) as [H1 H2].
    split.
    + assert (Hs : member_source
                   match nt with
                   | NArray base_type count => MArray base_type var count offset ctype
                   | NScalar name => MField name var offset ctype
                   end = Some (var, offset, ctype)) by (by destruct nt).
      case_bool_decide; simpl; rewrite Hs; f_equal; exact H1.
    + rewrite emitted_fields_step by (rewrite member_offset_of_field; by eexists).
      simpl. by rewrite H2.
Qed.

(** When the field lines of a class stand in order from the parent's size
    on (each starts at or after the end of the one before), the emitter
    drops none: the emitted fields are all the field lines, and the body
    ends exactly at the size of the class in the table. *)
Theorem fields_in_order_are_all_emitted (set_iter : gset string -> list string)
    (text : string) :
  (forall X, set_iter X ≡ₚ elements X) ->
  exists ordered sizes,
    order_classes set_iter (parse_classes text) = Some ordered /\
    compute_class_sizes ordered = Some sizes /\
    forall c, c ∈ ordered ->
      in_order (parent_size_of sizes c.1.2) c.2 ->
      exists members size,
        class_members sizes c = Some (members, size) /\
        sizes !! c.1.1 = Some size /\
        omap member_source members = omap field_of_line c.2.
Proof.
  intros Hperm.
  destruct (convert_file_stages set_iter text Hperm)
    as (ordered & sizes & decls & Hord & Hsizes & _ & _ & Hwo).
  exists ordered, sizes. split; [done|]. split; [done|].
  intros c (l1 & l2 & Heq)%list_elem_of_split Hin.
  destruct (compute_sizes_entry ordered sizes l1 l2 c Hwo Hsizes Heq)
    as (r & Hr & Hc & Hp & _).
  unfold class_members.
  destruct (emit_walk_is_Some c.2 (parent_size_of sizes c.1.2)) as [[ms last] Hw].
  destruct (emit_walk_in_order _ _ _ _ Hin Hw) as [Hsrc Hlen].
  exists ms, last. rewrite Hw.
  rewrite (emit_walk_full _ _ _ _ _ _ Hw Hr Hp Hlen).
  split; [done|]. split; [|done]. rewrite Hc. f_equal. lia.
Qed.

Lemma table_size_covers_every_field_witness :
  (forall X : gset string, elements X ≡ₚ elements X) /\
  exists ordered sizes,
    order_classes elements (parse_classes dump_family) = Some ordered /\
    compute_class_sizes ordered = Some sizes /\
    (forall n, is_Some (sizes !! n) <-> n ∈ ordered.*1.*1) /\
    forall c, c ∈ ordered ->
      exists size,
        sizes !! c.1.1 = Some size /\
        0 <= size /\ parent_size_of sizes c.1.2 <= size /\
        (forall line var offset ctype,
           line ∈ c.2 -> field_of_line line = Some (var, offset, ctype) ->
           exists nt, normalize_type ctype = Some nt /\
                      offset + nt_size nt <= size) /\
        (size = 0 \/ size = parent_size_of sizes c.1.2 \/
         exists line var offset ctype nt,
           line ∈ c.2 /\ field_of_line line = Some (var, offset, ctype) /\
           normalize_type ctype = Some nt /\ size = offset + nt_size nt).
Proof.
  split; [exact elements_perm|].
  exact (table_size_covers_every_field elements dump_family elements_perm).
Defined.

Lemma emitted_fields_never_overlap_witness :
  class_members ∅ ("C_Foo", None, [line_health; line_pos]) =
    Some ([MField "float" "m_flHealth" 0 "float32"; MPad 4 12;
           MField "Vector3" "m_vecPos" 16 "Vector"], 28) /\
  (forall pre m post o,
     [MField "float" "m_flHealth" 0 "float32"; MPad 4 12;
      MField "Vector3" "m_vecPos" 16 "Vector"] = pre ++ m :: post ->
     member_offset m = Some o ->
     parent_size_of ∅ (None : option string) <= o /\
     o + member_size m <= 28) /\
  (forall pre m mid m' post o o',
     [MField "float" "m_flHealth" 0 "float32"; MPad 4 12;
      MField "Vector3" "m_vecPos" 16 "Vector"] = pre ++ m :: mid ++ m' :: post ->
     member_offset m = Some o -> member_offset m' = Some o' ->
     o + member_size m <= o' /\ o' + member_size m' <= 28).
Proof.
  assert (H1 : class_members ∅ ("C_Foo", None, [line_health; line_pos]) =
     Some ([MField "float" "m_flHealth" 0 "float32"; MPad 4 12;
            MField "Vector3" "m_vecPos" 16 "Vector"], 28))
    by (vm_compute; reflexivity).
  split; [exact H1|].
  exact (emitted_fields_never_overlap ∅ ("C_Foo", None, [line_health; line_pos])
           [MField "float" "m_flHealth" 0 "float32"; MPad 4 12;
            MField "Vector3" "m_vecPos" 16 "Vector"] 28 H1).
Defined.

Lemma emitted_fields_come_from_field_lines_witness :
  class_members ∅ ("C_Bar", None, [line_a; line_b]) =
    Some ([MField "int64_t" "a" 0 "int64"], 8) /\
  omap member_source [MField "int64_t" "a" 0 "int64"]
    `sublist_of` omap field_of_line [line_a; line_b] /\
  Forall member_typed [MField "int64_t" "a" 0 "int64"].
Proof.
  assert (H1 : class_members ∅ ("C_Bar", None, [line_a; line_b]) =
     Some ([MField "int64_t" "a" 0 "int64"], 8))
    by (vm_compute; reflexivity).
  split; [exact H1|].
  exact (emitted_fields_come_from_field_lines ∅ ("C_Bar", None, [line_a; line_b])
           [MField "int64_t" "a" 0 "int64"] 8 H1).
Defined.

Lemma fields_in_order_are_all_emitted_witness :
  (forall X : gset string, elements X ≡ₚ elements X) /\
  exists ordered sizes,
    order_classes elements (parse_classes dump_health) = Some ordered /\
    compute_class_sizes ordered = Some sizes /\
    forall c, c ∈ ordered ->
      in_order (parent_size_of sizes c.1.2) c.2 ->
      exists members size,
        class_members sizes c = Some (members, size) /\
        sizes !! c.1.1 = Some size /\
        omap member_source members = omap field_of_line c.2.
Proof.
  split; [exact elements_perm|].
  exact (fields_in_order_are_all_emitted elements dump_health elements_perm).
Defined.



(** ** The names the normaliser returns *)

Lemma type_map_values (v : string) :
  in_values v type_map = true ->
  v ∈ ["bool"; "uint8_t"; "uint16_t"; "int16_t"; "int32_t"; "uint32_t";
       "int64_t"; "uint64_t"; "float"; "Vector3"; "Vector2"; "Vector4";
       "char"; "void*"].
Proof.
  unfold in_values. intros H%bool_decide_eq_true.
  apply list_elem_of_fmap in H as ([k v'] & -> & H). simpl.
  apply elem_of_map_to_list in H. apply elem_of_list_to_map_2 in H.
  repeat (apply elem_of_cons in H as [H|H];
          [injection H as _ ->; set_solver|]).
  by apply elem_of_nil in H.
Qed.

Lemma type_map_lookup_value (k v : string) :
  type_map !! k = Some v -> in_values v type_map = true.
Proof.
  intros H. unfold in_values. apply bool_decide_eq_true.
  apply list_elem_of_fmap. exists (k, v). split; [done|].
  by apply elem_of_map_to_list.
Qed.

Lemma array_map_values (k v : string) :
  array_map !! k = Some v -> in_values v type_map = true.
Proof.
  intros H. apply elem_of_list_to_map_2 in H.
  repeat (apply elem_of_cons in H as [H|H];
          [injection H as _ ->; vm_compute; reflexivity|]).
  by apply elem_of_nil in H.
Qed.

Lemma special_map_values (k : string) (e : string * Z) :
  special_map !! k = Some e -> in_values e.1 type_map = true.
Proof.
  intros H. apply elem_of_list_to_map_2 in H.
  repeat (apply elem_of_cons in H as [H|H];
          [injection H as _ ->; vm_compute; reflexivity|]).
  by apply elem_of_nil in H.
Qed.

Lemma normalize_type_value (ctype : string) (nt : ntype) :
  normalize_type ctype = Some nt -> in_values (ntype_name nt) type_map = true.
Proof.
  unfold normalize_type.
  destruct (re_match array_pattern (strip ctype)) as [[groups rest]|].
  - destruct (in_keys _ type_map) eqn:Hk.
    + apply in_keys_true in Hk as [t Ht]. rewrite Ht. simpl.
      intros [= <-]. by eapply type_map_lookup_value.
    + destruct (in_values _ type_map) eqn:Hv; intros [= <-]; [done|].
      vm_compute. reflexivity.
  - destruct (in_keys _ array_map) eqn:Ha.
    { apply in_keys_true in Ha as [t Ht]. rewrite Ht. simpl.
      intros [= <-]. by eapply array_map_values. }
    destruct (in_keys _ type_map) eqn:Hk.
    { apply in_keys_true in Hk as [t Ht]. rewrite Ht. simpl.
      intros [= <-]. by eapply type_map_lookup_value. }
    destruct (in_values _ type_map) eqn:Hv; [by intros [= <-]|].
    destruct (in_keys _ special_map) eqn:Hs.
    2:{ intros [= <-]. vm_compute. reflexivity. }
    apply in_keys_true in Hs as [e He]. rewrite He. simpl.
    intros [= <-]. by eapply special_map_values.
Qed.

Lemma canonical_name_fixed (v : string) :
  in_values v type_map = true ->
  is_Some (size_map !! v) /\ normalize_type v = Some (NScalar v).
Proof.
  intros H%type_map_values.
  repeat (apply elem_of_cons in H as [->|H];
          [split; [vm_compute; eauto|vm_compute; reflexivity]|]).
  by apply elem_of_nil in H.
Qed.

Lemma size_map_range (v : string) (size : Z) :
  size_map !! v = Some size -> size_of v = size /\ 1 <= size <= 16.
Proof.
  intros Hs. split.
  - unfold size_of. rewrite Hs. reflexivity.
  - apply elem_of_list_to_map_2 in Hs. unfold pointer_size in Hs.
    repeat (apply elem_of_cons in Hs as [Hs|Hs]; [injection Hs as _ ->; lia|]).
    by apply elem_of_nil in Hs.
Qed.

(** Whatever the raw type, the name [normalize_type] returns (the string,
    or the base type of the tuple) is one of the values of [type_map]; it
    is a key of [size_map], so that the default of [size_map.get(name, 4)]
    is never the size of a field; and normalising it again gives it back:
    the normaliser is idempotent. *)
Theorem normalised_name_is_canonical (ctype : string) (nt : ntype) :
  normalize_type ctype = Some nt ->
  in_values (ntype_name nt) type_map = true /\
  (exists size : Z, size_map !! ntype_name nt = Some size /\
                size_of (ntype_name nt) = size /\ 1 <= size <= 16) /\
  normalize_type (ntype_name nt) = Some (NScalar (ntype_name nt)).
Proof.
  intros Hv%normalize_type_value.
  destruct (canonical_name_fixed _ Hv) as [[size Hs] Hn].
  destruct (size_map_range _ _ Hs) as [H1 H2].
  exact (conj Hv (conj (ex_intro _ size (conj Hs (conj H1 H2))) Hn)).
Qed.

Lemma normalised_name_is_canonical_witness :
  normalize_type "QAngle[2]" = Some (NArray "Vector3" 2) /\
  in_values "Vector3" type_map = true /\
  (exists size : Z, size_map !! "Vector3" = Some size /\
                size_of "Vector3" = size /\ 1 <= size <= 16) /\
  normalize_type "Vector3" = Some (NScalar "Vector3").
Proof.
  assert (H : normalize_type "QAngle[2]" = Some (NArray "Vector3" 2))
    by (vm_compute; reflexivity).
  split; [exact H|].
  exact (normalised_name_is_canonical "QAngle[2]" (NArray "Vector3" 2) H).
Defined.



(** ** The numbers of the output *)

Lemma digit_val_digit_chr (d : Z) : 0 <= d < 16 -> digit_val (digit_chr d) = d.
Proof.
  intros Hd. replace d with (Z.of_nat (Z.to_nat d)) by lia.
  assert (Hn : (Z.to_nat d < 16)%nat) by lia.
  generalize dependent (Z.to_nat d). intros n Hn.
  do 16 (destruct n as [|n]; [vm_compute; reflexivity|]). lia.
Qed.

Lemma digits_go_S (fuel : nat) (base n : Z) (acc : string) :
  digits_go (S fuel) base n acc =
    if n / base =? 0 then String (digit_chr (n mod base)) acc
    else digits_go fuel base (n / base) (String (digit_chr (n mod base)) acc).
Proof. reflexivity. Qed.

Lemma int_go_String (base acc : Z) (c : ascii) (s : string) :
  int_go base acc (String c s) = int_go base (acc * base + digit_val c) s.
Proof. reflexivity. Qed.

Lemma int_go_digits_go (base : Z) :
  2 <= base <= 16 ->
  forall fuel n rest,
    0 <= n < 2 ^ Z.of_nat fuel ->
    int_go base 0 (digits_go fuel base n rest) = int_go base n rest.
Proof.
  intros Hb. induction fuel as [|fuel IH]; intros n rest Hn.
  - simpl in Hn. replace n with 0 by lia. reflexivity.
  - rewrite digits_go_S.
    pose proof (Z.div_mod n base ltac:(lia)) as Hdm.
    pose proof (Z.mod_pos_bound n base ltac:(lia)) as Hm.
    assert (Hq : 0 <= n / base) by (apply Z.div_pos; lia).
    destruct (n / base =? 0) eqn:E.
    + apply Z.eqb_eq in E. rewrite int_go_String, digit_val_digit_chr by lia.
      f_equal. rewrite E in Hdm. lia.
    + apply Z.eqb_neq in E. rewrite IH.
      * rewrite int_go_String, digit_val_digit_chr by lia. f_equal. lia.
      * split; [done|]. rewrite Nat2Z.inj_succ, Z.pow_succ_r in Hn by lia. nia.
Qed.

Lemma int_go_digits (base n : Z) :
  2 <= base <= 16 -> 0 <= n -> int_go base 0 (digits base n) = n.
Proof.
  intros Hb Hn. unfold digits. rewrite int_go_digits_go; [reflexivity|done|].
  split; [done|]. rewrite Nat2Z.inj_succ, Z2Nat.id by apply Z.log2_nonneg.
  destruct (decide (n = 0)) as [->|Hne]; [reflexivity|].
  apply Z.log2_spec. lia.
Qed.

Lemma int_go_zeros (base : Z) (k : nat) (s : string) :
  int_go base 0 (zeros k +:+ s) = int_go base 0 s.
Proof.
  induction k as [|k IH]; [reflexivity|].
  change (zeros (S k)) with (String (chr 48) (zeros k)).
  rewrite app_cons_s, int_go_String.
  replace (0 * base + digit_val (chr 48)) with 0; [exact IH|].
  change (digit_val (chr 48)) with 0. lia.
Qed.

Lemma int_hex_fmt_04X (n : Z) : 0 <= n -> int_hex ("0x" +:+ fmt_04X n) = n.
Proof.
  intros Hn. unfold fmt_04X. rewrite (proj2 (Z.ltb_ge n 0)) by lia.
  rewrite !app_cons_s, app_nil_l_s. unfold int_hex, zfill.
  rewrite int_go_zeros. apply int_go_digits; lia.
Qed.

Lemma int_dec_fmt_d (n : Z) : 0 <= n -> int_dec (fmt_d n) = n.
Proof.
  intros Hn. unfold fmt_d, int_dec. rewrite (proj2 (Z.ltb_ge n 0)) by lia.
  apply int_go_digits; lia.
Qed.

Lemma pad_name_inj (a b : Z) :
  0 <= a -> 0 <= b ->
  "pad_" +:+ fmt_04X a = "pad_" +:+ fmt_04X b -> a = b.
Proof.
  intros Ha Hb H. rewrite !app_cons_s, !app_nil_l_s in H.
  injection H as H.
  rewrite <- (int_hex_fmt_04X a Ha), <- (int_hex_fmt_04X b Hb). by rewrite H.
Qed.

Lemma normalize_type_count (ctype base : string) (count : Z) :
  normalize_type ctype = Some (NArray base count) -> 0 <= count.
Proof.
  unfold normalize_type.
  destruct (re_match array_pattern (strip ctype)) as [[groups rest]|].
  - destruct (in_keys _ type_map) eqn:Hk.
    + apply in_keys_true in Hk as [t Ht]. rewrite Ht. simpl.
      intros [= _ <-]. apply int_dec_nonneg.
    + destruct (in_values _ type_map); intros [= _ <-]; apply int_dec_nonneg.
  - destruct (in_keys _ array_map) eqn:Ha.
    { apply in_keys_true in Ha as [t Ht]. by rewrite Ht. }
    destruct (in_keys _ type_map) eqn:Hk.
    { apply in_keys_true in Hk as [t Ht]. by rewrite Ht. }
    destruct (in_values _ type_map); [done|].
    destruct (in_keys _ special_map) eqn:Hs; [|done].
    apply in_keys_true in Hs as [e He]. by rewrite He.
Qed.

Lemma emit_walk_numbers (fields : list string) :
  forall cur ms last,
    0 <= cur ->
    emit_walk cur fields = Some (ms, last) ->
    Forall reads_back ms /\
    NoDup (omap pad_name ms) /\
    forall name, name ∈ omap pad_name ms ->
      exists lo, cur <= lo /\ name = "pad_" +:+ fmt_04X lo.
Proof.
  induction fields as [|line fields IH]; intros cur ms last Hcur; simpl.
  - intros [= <- <-]. split; [constructor|]. split; [constructor|].
    intros name H. by apply elem_of_nil in H.
  - destruct (field_of_line line) as [[[var offset] ctype]|]; [|by apply IH].
    case_bool_decide as Hlt; [by apply IH|].
    destruct (normalize_type ctype) as [nt|] eqn:Hnt; simpl; [|done].
    destruct (emit_walk (offset + nt_size nt) fields) as [[ms' last']|] eqn:Hw;
      simpl; [|done].
    intros [= <- <-].
    pose proof (nt_size_nonneg _ _ Hnt) as Hsz.
    assert (Hnext : 0 <= offset + nt_size nt) by lia.
    destruct (IH _ _ _ Hnext Hw) as (Hrb & Hnd & Hnames).
    assert (Hm : reads_back
                   match nt with
                   | NArray base_type count => MArray base_type var count offset ctype
                   | NScalar name => MField name var offset ctype
                   end).
    { destruct nt as [name|base count]; simpl.
      - apply int_hex_fmt_04X. lia.
      - split; [apply int_hex_fmt_04X; lia|].
        apply int_dec_fmt_d. by eapply normalize_type_count. }
    assert (Hp : pad_name
                   match nt with
                   | NArray base_type count => MArray base_type var count offset ctype
                   | NScalar name => MField name var offset ctype
                   end = None) by (by destruct nt).
    case_bool_decide as Hgt.
    + change ([MPad cur (offset - cur)] ++ ?m :: ms')
        with (MPad cur (offset - cur) :: m :: ms').
      split.
      { constructor; [|by constructor]. split.
        - by apply int_hex_fmt_04X.
        - apply int_dec_fmt_d. lia. }
      assert (Hom : forall m, pad_name m = None ->
                omap pad_name (MPad cur (offset - cur) :: m :: ms') =
                ("pad_" +:+ fmt_04X cur) :: omap pad_name ms').
      { intros m Hmn. cbn. by rewrite Hmn. }
      rewrite (Hom _ Hp). split.
      * constructor; [|done]. intros (lo & Hlo & E)%Hnames.
        apply pad_name_inj in E; lia.
      * intros name [->|H]%elem_of_cons; [exists cur; split; [lia|done]|].
        apply Hnames in H as (lo & Hlo & ->). exists lo. split; [lia|done].
    + change ([] ++ ?m :: ms') with (m :: ms').
      split; [by constructor|].
      assert (Hom : forall m, pad_name m = None ->
                omap pad_name (m :: ms') = omap pad_name ms').
      { intros m Hmn. cbn. by rewrite Hmn. }
      rewrite (Hom _ Hp). split; [done|].
      intros name H. apply Hnames in H as (lo & Hlo & ->).
      exists lo. split; [lia|done].
Qed.

Lemma class_members_numbers (set_iter : gset string -> list string)
    (text : string) :
  (forall X, set_iter X ≡ₚ elements X) ->
  exists ordered sizes,
    order_classes set_iter (parse_classes text) = Some ordered /\
    compute_class_sizes ordered = Some sizes /\
    forall c, c ∈ ordered ->
      exists members last,
        class_members sizes c = Some (members, last) /\
        Forall reads_back members /\ NoDup (omap pad_name members).
Proof.
  intros Hperm.
  destruct (convert_file_stages set_iter text Hperm)
    as (ordered & sizes & decls & Hord & Hsizes & _ & _ & Hwo).
  exists ordered, sizes. split; [done|]. split; [done|].
  intros c (l1 & l2 & Heq)%list_elem_of_split.
  destruct (compute_sizes_entry ordered sizes l1 l2 c Hwo Hsizes Heq)
    as (r & _ & _ & Hp & _).
  unfold class_members.
  destruct (emit_walk_is_Some c.2 (parent_size_of sizes c.1.2)) as [[ms last] Hw].
  exists ms, last. split; [done|].
  destruct (emit_walk_numbers _ _ _ _ Hp Hw) as (H1 & H2 & _). by split.
Qed.

(** Every number the emitter prints in a class body reads back as the
    number it stands for: the offset of the comment of a field and the
    offset in the name of a padding member, printed with four hexadecimal
    digits at least, and the array count and the padding size, printed in
    base 10.  None of them is negative. *)
Theorem emitted_numbers_read_back (set_iter : gset string -> list string)
    (text : string) :
  (forall X, set_iter X ≡ₚ elements X) ->
  exists ordered sizes,
    order_classes set_iter (parse_classes text) = Some ordered /\
    compute_class_sizes ordered = Some sizes /\
    forall c, c ∈ ordered ->
      exists members last,
        class_members sizes c = Some (members, last) /\
        Forall reads_back members.
Proof.
  intros Hperm.
  destruct (class_members_numbers set_iter text Hperm)
    as (ordered & sizes & Hord & Hsizes & H).
  exists ordered, sizes. split; [done|]. split; [done|].
  intros c Hc. destruct (H c Hc) as (ms & last & Hm & Hrb & _).
  by exists ms, last.
Qed.

(** No two padding members of a class body have the same name: each is
    named after the byte it starts at, and the cursor only moves forward. *)
Theorem padding_names_are_distinct (set_iter : gset string -> list string)
    (text : string) :
  (forall X, set_iter X ≡ₚ elements X) ->
  exists ordered sizes,
    order_classes set_iter (parse_classes text) = Some ordered /\
    compute_class_sizes ordered = Some sizes /\
    forall c, c ∈ ordered ->
      exists members last,
        class_members sizes c = Some (members, last) /\
        NoDup (omap pad_name members).
Proof.
  intros Hperm.
  destruct (class_members_numbers set_iter text Hperm)
    as (ordered & sizes & Hord & Hsizes & H).
  exists ordered, sizes. split; [done|]. split; [done|].
  intros c Hc. destruct (H c Hc) as (ms & last & Hm & _ & Hnd).
  by exists ms, last.
Qed.

Lemma emitted_numbers_read_back_witness :
  (forall X : gset string, elements X ≡ₚ elements X) /\
  exists ordered sizes,
    order_classes elements (parse_classes dump_health) = Some ordered /\
    compute_class_sizes ordered = Some sizes /\
    forall c, c ∈ ordered ->
      exists members last,
        class_members sizes c = Some (members, last) /\
        Forall reads_back members.
Proof.
  split; [exact elements_perm|].
  exact (emitted_numbers_read_back elements dump_health elements_perm).
Defined.

Lemma padding_names_are_distinct_witness :
  (forall X : gset string, elements X ≡ₚ elements X) /\
  exists ordered sizes,
    order_classes elements (parse_classes dump_health) = Some ordered /\
    compute_class_sizes ordered = Some sizes /\
    forall c, c ∈ ordered ->
      exists members last,
        class_members sizes c = Some (members, last) /\
        NoDup (omap pad_name members).
Proof.
  split; [exact elements_perm|].
  exact (padding_names_are_distinct elements dump_health elements_perm).
Defined.



(** ** A class and its ancestors *)

Lemma parent_size_entry (ordered : list ordered_rec) (sizes : gmap string Z)
    (c : ordered_rec) (p : string) :
  well_ordered ordered ->
  compute_class_sizes ordered = Some sizes ->
  c ∈ ordered -> c.1.2 = Some p ->
  exists sc sp,
    sizes !! c.1.1 = Some sc /\ sizes !! p = Some sp /\
    parent_size_of sizes c.1.2 = sp /\ sp <= sc.
Proof.
  intros Hwo Hsizes (l1 & l2 & Heq)%list_elem_of_split Hp.
  destruct (compute_sizes_entry ordered sizes l1 l2 c Hwo Hsizes Heq)
    as (r & Hr & Hc & _ & Hsome).
  destruct (Hsome p Hp) as [sp Hsp].
  destruct c as [[n op] b]. simpl in Hp. subst op.
  destruct Hwo as [_ Hprec]. destruct (Hprec _ _ _ _ _ Heq) as [Hne _].
  assert (Hps : parent_size_of sizes (Some p) = sp).
  { unfold parent_size_of. rewrite bool_decide_eq_true_2 by exact Hne.
    rewrite Hsp. reflexivity. }
  exists (Z.max r sp), sp. cbn [fst snd] in *. rewrite Hps in Hc.
  split; [exact Hc|]. split; [exact Hsp|]. split; [exact Hps|]. lia.
Qed.

Lemma ancestor_size_le (ordered : list ordered_rec) (sizes : gmap string Z)
    (p a : string) :
  well_ordered ordered ->
  compute_class_sizes ordered = Some sizes ->
  rtc (parent_in ordered) p a ->
  forall sp, sizes !! p = Some sp ->
  exists sa, sizes !! a = Some sa /\ sa <= sp.
Proof.
  intros Hwo Hsizes. induction 1 as [x|x y z [b Hxy] _ IH]; intros sp Hsp.
  - exists sp. split; [exact Hsp|lia].
  - destruct (parent_size_entry ordered sizes (x, Some y, b) y Hwo Hsizes Hxy eq_refl)
      as (sx & sy & Hx & Hy & _ & Hle).
    cbn [fst snd] in Hx. rewrite Hsp in Hx. injection Hx as <-.
    destruct (IH sy Hy) as (sz & Hz & Hle'). exists sz. split; [exact Hz|lia].
Qed.

Lemma lands_offset_ge (ms : list member) (cur : Z) (m : member) (o : Z) :
  lands cur ms -> Forall (fun m => 0 <= member_size m) ms ->
  m ∈ ms -> member_offset m = Some o -> cur <= o.
Proof.
  intros Hl Hnn (pre & post & ->)%list_elem_of_split Ho.
  apply lands_split in Hl. apply (lands_head_offset _ _ _ _ Hl) in Ho as ->.
  apply Forall_app in Hnn as [Hpre _].
  pose proof (sum_sizes_nonneg _ Hpre). lia.
Qed.

(** An emitted field of a class starts at or after the end of every field
    line of each of its ancestors (the parent, the parent of the parent and
    so on), dropped by the emitter or not: the size of an ancestor is at
    most the size of the parent, where the cursor of the class starts. *)
Theorem child_fields_clear_of_ancestors (set_iter : gset string -> list string)
    (text : string) :
  (forall X, set_iter X ≡ₚ elements X) ->
  exists ordered sizes,
    order_classes set_iter (parse_classes text) = Some ordered /\
    compute_class_sizes ordered = Some sizes /\
    forall c p a,
      c ∈ ordered -> a ∈ ordered -> c.1.2 = Some p ->
      rtc (parent_in ordered) p a.1.1 ->
      (exists sc sa, sizes !! c.1.1 = Some sc /\ sizes !! a.1.1 = Some sa /\
                     sa <= sc) /\
      forall members last m o,
        class_members sizes c = Some (members, last) ->
        m ∈ members -> member_offset m = Some o ->
        forall line var offset ctype nt,
          line ∈ a.2 -> field_of_line line = Some (var, offset, ctype) ->
          normalize_type ctype = Some nt ->
          offset + nt_size nt <= o.
Proof.
  intros Hperm.
  destruct (convert_file_stages set_iter text Hperm)
    as (ordered & sizes & decls & Hord & Hsizes & _ & _ & Hwo).
  exists ordered, sizes. split; [exact Hord|]. split; [exact Hsizes|].
  intros c p a Hc Ha Hp Hanc.
  destruct (parent_size_entry ordered sizes c p Hwo Hsizes Hc Hp)
    as (sc & sp & Hsc & Hsp & Hps & Hle).
  destruct (ancestor_size_le ordered sizes p a.1.1 Hwo Hsizes Hanc sp Hsp)
    as (sa & Hsa & Hle').
  split; [exists sc, sa; split; [exact Hsc|]; split; [exact Hsa|lia]|].
  intros members last m o Hm Hin Ho line var offset ctype nt Hline Hf Hnt.
  apply list_elem_of_split in Ha as (l1 & l2 & Heq).
  destruct (compute_sizes_entry ordered sizes l1 l2 a Hwo Hsizes Heq)
    as (r & Hr & Hca & _ & _).
  pose proof (size_walk_covers _ _ _ Hr line var offset ctype nt Hline Hf Hnt) as Hcov.
  rewrite Hsa in Hca. injection Hca as Hca.
  unfold class_members in Hm.
  pose proof (emit_walk_sizes _ _ _ _ Hm) as (Hnn & _ & _).
  apply emit_walk_lands in Hm as [Hl _].
  pose proof (lands_offset_ge _ _ _ _ Hl Hnn Hin Ho) as Hge.
  rewrite Hps in Hge. lia.
Qed.

Lemma child_fields_clear_of_ancestors_witness :
  (forall X : gset string, elements X ≡ₚ elements X) /\
  exists ordered sizes,
    order_classes elements (parse_classes dump_family) = Some ordered /\
    compute_class_sizes ordered = Some sizes /\
    forall c p a,
      c ∈ ordered -> a ∈ ordered -> c.1.2 = Some p ->
      rtc (parent_in ordered) p a.1.1 ->
      (exists sc sa, sizes !! c.1.1 = Some sc /\ sizes !! a.1.1 = Some sa /\
                     sa <= sc) /\
      forall members last m o,
        class_members sizes c = Some (members, last) ->
        m ∈ members -> member_offset m = Some o ->
        forall line var offset ctype nt,
          line ∈ a.2 -> field_of_line line = Some (var, offset, ctype) ->
          normalize_type ctype = Some nt ->
          offset + nt_size nt <= o.
Proof.
  split; [exact elements_perm|].
  exact (child_fields_clear_of_ancestors elements dump_family elements_perm).
Defined.



(** ** Which classes are declared, and in which order *)

Lemma starts_with_app (sub post : string) : starts_with sub (sub +:+ post) = true.
Proof.
  induction sub as [|a sub IH]; [reflexivity|].
  rewrite app_cons_s. simpl. by rewrite Ascii.eqb_refl.
Qed.

Lemma occurs_b_true (sub s : string) : occurs sub s -> occurs_b sub s = true.
Proof.
  intros (pre & post & ->). induction pre as [|a pre IH].
  - rewrite app_nil_l_s. destruct (sub +:+ post) eqn:E; simpl;
      rewrite <- E, starts_with_app; reflexivity.
  - rewrite app_cons_s. simpl. rewrite IH. apply orb_true_r.
Qed.

Lemma starts_with_true (sub : string) :
  forall s, starts_with sub s = true -> exists post, s = sub +:+ post.
Proof.
  induction sub as [|a sub IH]; intros s; simpl.
  - intros _. by exists s.
  - destruct s as [|b s]; [done|].
    destruct (Ascii.eqb a b) eqn:E; [|done]. apply Ascii.eqb_eq in E as ->.
    intros [post ->]%IH. exists post. by rewrite app_cons_s.
Qed.

Lemma occurs_b_occurs (sub s : string) : occurs_b sub s = true -> occurs sub s.
Proof.
  induction s as [|b s IH]; simpl.
  - rewrite orb_false_r. intros [post ->]%starts_with_true. by exists "", post.
  - intros [H|H]%orb_true_iff.
    + apply starts_with_true in H as [post ->]. by exists "", post.
    + destruct (IH H) as (pre & post & ->). exists (String b pre), post.
      by rewrite app_cons_s.
Qed.

Lemma name_of_class (classes : list class_rec) (n p : string) (b : list string) :
  (n, p, b) ∈ classes -> n ∈ classes.*1.*1.
Proof.
  intros H. apply list_elem_of_fmap. exists (n, p). split; [done|].
  apply list_elem_of_fmap. by exists (n, p, b).
Qed.

Lemma kept_ancestry_wf (set_iter : gset string -> list string)
    (classes : list class_rec) (ordered : list ordered_rec) :
  (forall X, set_iter X ≡ₚ elements X) ->
  order_classes set_iter classes = Some ordered ->
  forall n, n ∈ ordered.*1.*1 -> ancestry_wf classes n.
Proof.
  intros Hperm Hord.
  assert (H : forall la lb, ordered = la ++ lb ->
                forall n, n ∈ la.*1.*1 -> ancestry_wf classes n).
  { induction la as [|cc la IH] using rev_ind; intros lb Heq n Hn.
    - by apply elem_of_nil in Hn.
    - rewrite <- app_assoc in Heq. simpl in Heq.
      rewrite !fmap_app in Hn. apply elem_of_app in Hn as [Hn|Hn].
      + by apply (IH (cc :: lb)).
      + apply list_elem_of_singleton in Hn. constructor. intros p Hp.
        apply (IH (cc :: lb) Heq).
        by apply (order_classes_edge set_iter classes ordered Hperm Hord
                    n p la cc lb). }
  intros n Hn. apply (H ordered []); [by rewrite app_nil_r|done].
Qed.

Lemma ancestry_wf_kept (set_iter : gset string -> list string)
    (classes : list class_rec) (ordered : list ordered_rec) :
  (forall X, set_iter X ≡ₚ elements X) ->
  order_classes set_iter classes = Some ordered ->
  forall n, ancestry_wf classes n -> n ∈ classes.*1.*1 -> n ∈ ordered.*1.*1.
Proof.
  intros Hperm Hord.
  destruct (order_classes_kept set_iter classes ordered Hperm Hord) as [_ Hkept].
  intros n Hacc. induction Hacc as [n _ IH]. intros Hn.
  apply Hkept; [done|]. intros p Hp. apply IH; [done|].
  destruct Hp as (_ & _ & Hp). exact (proj1 (name_to_class_dom _ _) Hp).
Qed.

Lemma ancestry_wf_rtc (classes : list class_rec) (n m : string) :
  rtc (edge (name_to_class_of classes) classes) n m ->
  ancestry_wf classes n -> ancestry_wf classes m.
Proof.
  induction 1 as [|n y m Hny _ IH]; [done|].
  intros Hacc. apply IH. exact (Acc_inv Hacc Hny).
Qed.

Lemma ancestry_wf_no_cycle (classes : list class_rec) (m : string) :
  ancestry_wf classes m ->
  ~ tc (edge (name_to_class_of classes) classes) m m.
Proof.
  intros Hacc. induction Hacc as [m _ IH]. intros Htc.
  inversion Htc as [? ? Hmm|? y ? Hmy Hym]; subst.
  - exact (IH m Hmm Htc).
  - apply (IH y Hmy). by eapply tc_r.
Qed.

(** C7.  For every edge of the dependency graph (a class of the dump whose
    parent name is the name of a class of the dump): the child is declared
    in the output exactly when its ancestry is well founded; a child from
    which a class on a cycle can be reached is not declared; and when the
    ancestry of the child is well founded, the parent and the child are
    both in the output, the forward declaration of the parent stands
    before the forward declaration of the child and its full declaration
    before the full declaration of the child. *)
Theorem parent_declared_before_child (set_iter : gset string -> list string)
    (text : string) :
  (forall X, set_iter X ≡ₚ elements X) ->
  exists ordered sizes out,
    order_classes set_iter (parse_classes text) = Some ordered /\
    compute_class_sizes ordered = Some sizes /\
    convert_file set_iter text = Some out /\
    forall child parent body,
      (child, parent, body) ∈ parse_classes text ->
      parent ∈ (parse_classes text).*1.*1 ->
      (child ∈ ordered.*1.*1 <-> ancestry_wf (parse_classes text) child) /\
      (forall n,
         rtc (edge (name_to_class_of (parse_classes text)) (parse_classes text))
             child n ->
         tc (edge (name_to_class_of (parse_classes text)) (parse_classes text))
            n n ->
         child ∉ ordered.*1.*1) /\
      (ancestry_wf (parse_classes text) child ->
       exists l1 cp l2 cc lb d1 dp d2 dc d3,
         ordered = (l1 ++ cp :: l2) ++ cc :: lb /\
         cp.1.1 = parent /\ cc.1.1 = child /\
         decl_chunks sizes l1 = Some d1 /\
         class_chunks sizes cp = Some (class_header cp :: dp) /\
         decl_chunks sizes l2 = Some d2 /\
         class_chunks sizes cc = Some (class_header cc :: dc) /\
         decl_chunks sizes lb = Some d3 /\
         out = join preamble +:+
               join (forward_decl <$> l1) +:+ forward_decl cp +:+
               join (forward_decl <$> l2) +:+ forward_decl cc +:+
               join (forward_decl <$> lb) +:+ NL +:+
               join d1 +:+ class_header cp +:+ join dp +:+
               join d2 +:+ class_header cc +:+ join dc +:+ join d3).
Proof.
  intros Hperm.
  destruct (declarations_in_order set_iter text Hperm)
    as (ordered & sizes & out & Hord & Hsizes & Hout & Htext).
  exists ordered, sizes, out. split; [done|]. split; [done|]. split; [done|].
  intros child parent body Hin Hpar.
  pose proof (name_of_class _ _ _ _ Hin) as Hchild.
  assert (Hiff : child ∈ ordered.*1.*1 <-> ancestry_wf (parse_classes text) child).
  { split.
    - by apply (kept_ancestry_wf set_iter (parse_classes text) ordered).
    - intros Hacc. by apply (ancestry_wf_kept set_iter (parse_classes text) ordered). }
  split; [exact Hiff|]. split.
  - intros n Hreach Hcycle Hkept. apply (proj1 Hiff) in Hkept.
    apply (ancestry_wf_no_cycle (parse_classes text) n); [|done].
    by apply (ancestry_wf_rtc _ child).
  - intros Hacc. apply (proj2 Hiff) in Hacc.
    apply elem_of_names_split in Hacc as (la & cc & lb & Heq & Hcc).
    destruct (Htext child parent body la cc lb Hin Hpar Heq Hcc)
      as (l1 & cp & l2 & d1 & dp & d2 & dc & d3 & -> & Hcp & H1 & H2 & H3 & H4 & H5 & H6).
    exists l1, cp, l2, cc, lb, d1, dp, d2, dc, d3.
    do 8 (split; [done|]). exact H6.
Qed.

Lemma dump_family_Derived_wf : ancestry_wf (parse_classes dump_family) "Derived".
Proof.
  constructor. intros p Hp. constructor. intros q Hq.
  apply dump_family_ranked in Hp. apply dump_family_ranked in Hq.
  destruct (String.eqb p "Derived"), (String.eqb q "Derived"),
    (String.eqb "Derived" "Derived"); simpl in *; lia.
Qed.

Lemma parent_declared_before_child_witness :
  ((forall X : gset string, elements X ≡ₚ elements X) /\
   ("Derived", "Base", [line_pos]) ∈ parse_classes dump_family /\
   "Base" ∈ (parse_classes dump_family).*1.*1 /\
   ancestry_wf (parse_classes dump_family) "Derived") /\
  exists ordered sizes out,
    order_classes elements (parse_classes dump_family) = Some ordered /\
    compute_class_sizes ordered = Some sizes /\
    convert_file elements dump_family = Some out /\
    forall child parent body,
      (child, parent, body) ∈ parse_classes dump_family ->
      parent ∈ (parse_classes dump_family).*1.*1 ->
      (child ∈ ordered.*1.*1 <-> ancestry_wf (parse_classes dump_family) child) /\
      (forall n,
         rtc (edge (name_to_class_of (parse_classes dump_family))
                (parse_classes dump_family)) child n ->
         tc (edge (name_to_class_of (parse_classes dump_family))
               (parse_classes dump_family)) n n ->
         child ∉ ordered.*1.*1) /\
      (ancestry_wf (parse_classes dump_family) child ->
       exists l1 cp l2 cc lb d1 dp d2 dc d3,
         ordered = (l1 ++ cp :: l2) ++ cc :: lb /\
         cp.1.1 = parent /\ cc.1.1 = child /\
         decl_chunks sizes l1 = Some d1 /\
         class_chunks sizes cp = Some (class_header cp :: dp) /\
         decl_chunks sizes l2 = Some d2 /\
         class_chunks sizes cc = Some (class_header cc :: dc) /\
         decl_chunks sizes lb = Some d3 /\
         out = join preamble +:+
               join (forward_decl <$> l1) +:+ forward_decl cp +:+
               join (forward_decl <$> l2) +:+ forward_decl cc +:+
               join (forward_decl <$> lb) +:+ NL +:+
               join d1 +:+ class_header cp +:+ join dp +:+
               join d2 +:+ class_header cc +:+ join dc +:+ join d3).
Proof.
  split.
  - split; [exact elements_perm|]. rewrite (proj1 dump_family_converted).
    split; [by left|]. split; [|exact dump_family_Derived_wf].
    simpl. right. by left.
  - exact (parent_declared_before_child elements dump_family elements_perm).
Defined.

(** On [dump_cycle] the classes [A] and [B] name each other as parent:
    [A -> B] is an edge of the dependency graph and [B] is the name of an
    extracted class, yet the output declares neither of them; its only
    class is [Root]. *)
Lemma cycle_classes_are_not_declared :
  ("A", "B", []) ∈ parse_classes dump_cycle /\
  "B" ∈ (parse_classes dump_cycle).*1.*1 /\
  order_classes elements (parse_classes dump_cycle) = Some [("Root", None, [])] /\
  exists out,
    convert_file elements dump_cycle = Some out /\
    occurs "class Root;" out /\
    ~ occurs "class A" out /\ ~ occurs "class B" out.
Proof.
  split; [rewrite dump_cycle_parsed; by left|].
  split; [rewrite dump_cycle_parsed; simpl; right; by left|].
  split; [exact dump_cycle_ordered|].
  eexists. split; [vm_compute; reflexivity|]. split.
  - apply occurs_b_occurs. vm_compute. reflexivity.
  - split; intros H%occurs_b_true; vm_compute in H; discriminate H.
Qed.



(** * The program under the digit limit *)

(** ** The array pattern and the count *)

Lemma array_pattern_inv (s : string) (groups : list string) (rest : string) :
  re_match array_pattern s = Some (groups, rest) ->
  exists base count,
    groups = [base; count] /\ s = base +:+ "[" +:+ count +:+ "]" +:+ rest /\
    base <> "" /\ str_all is_base_char base = true /\
    count <> "" /\ str_all is_digit count = true.
Proof.
  unfold re_match, array_pattern.
  intros (base & s1 & -> & Hb & Hbc & H)%match_group_plus_inv.
  apply match_char_inv in H as (s2 & -> & H).
  apply match_group_plus_inv in H as (count & s3 & -> & Hc & Hcd & H).
  apply match_char_inv in H as (s4 & -> & H).
  simpl in H. injection H as <- <-.
  exists base, count. split; [done|]. split; [|done].
  by rewrite !app_cons_s, !app_nil_l_s.
Qed.

Lemma digit_val_digit (c : ascii) : is_digit c = true -> 0 <= digit_val c <= 9.
Proof.
  unfold digit_val. intros H. rewrite H. unfold is_digit in H.
  apply in_range_spec in H. lia.
Qed.

Lemma int_go_digits_bound (s : string) :
  str_all is_digit s = true ->
  forall acc, 0 <= acc ->
    0 <= int_go 10 acc s < (acc + 1) * 10 ^ Z.of_nat (String.length s).
Proof.
  induction s as [|c s IH]; intros Hs acc Hacc.
  - simpl. lia.
  - simpl in Hs. apply andb_true_iff in Hs as [Hc Hs].
    apply digit_val_digit in Hc. rewrite int_go_String.
    change (String.length (String c s)) with (S (String.length s)).
    rewrite Nat2Z.inj_succ, Z.pow_succ_r by lia.
    specialize (IH Hs (acc * 10 + digit_val c) ltac:(lia)).
    assert (0 < 10 ^ Z.of_nat (String.length s)) by (apply Z.pow_pos_nonneg; lia).
    nia.
Qed.

Lemma int_dec_bound (s : string) :
  str_all is_digit s = true ->
  Z.of_nat (String.length s) <= max_str_digits ->
  0 <= int_dec s < 10 ^ max_str_digits.
Proof.
  intros Hs Hlen. pose proof (int_go_digits_bound s Hs 0 ltac:(lia)) as H.
  unfold int_dec.
  assert (10 ^ Z.of_nat (String.length s) <= 10 ^ max_str_digits)
    by (apply Z.pow_le_mono_r; lia).
  lia.
Qed.

(** ** The normaliser *)

Lemma subscript_in_keys {V} (d : gmap string V) (k : string) :
  in_keys k d = true -> exists v, d !! k = Some v /\ subscript d k = Ok v.
Proof.
  intros [v Hv]%in_keys_true. exists v. split; [done|].
  unfold subscript. by rewrite Hv.
Qed.

Lemma normalize_type_lim_cases (ctype : string) :
  (exists groups rest,
     re_match array_pattern (strip ctype) = Some (groups, rest) /\
     max_str_digits < Z.of_nat (String.length (group 2 groups)) /\
     normalize_type_lim ctype = Raise ValueError) \/
  (exists nt,
     normalize_type_lim ctype = Ok nt /\ normalize_type ctype = Some nt /\
     forall groups rest,
       re_match array_pattern (strip ctype) = Some (groups, rest) ->
       Z.of_nat (String.length (group 2 groups)) <= max_str_digits).
Proof.
  unfold normalize_type_lim, normalize_type.
  destruct (re_match array_pattern (strip ctype)) as [[groups rest]|].
  - unfold int_dec_lim.
    destruct (max_str_digits <? Z.of_nat (String.length (group 2 groups))) eqn:E.
    + left. exists groups, rest. apply Z.ltb_lt in E. by split.
    + right. apply Z.ltb_ge in E. cbn [mbind result_bind].
      destruct (in_keys _ type_map) eqn:Hk.
      * apply subscript_in_keys in Hk as (t & Ht & Hs). rewrite Ht, Hs.
        eexists. split; [reflexivity|]. split; [reflexivity|].
        by intros ? ? [= <- <-].
      * destruct (in_values _ type_map); eexists;
          (split; [reflexivity|]; split; [reflexivity|]; by intros ? ? [= <- <-]).
  - right.
    destruct (in_keys _ array_map) eqn:Ha.
    { apply subscript_in_keys in Ha as (t & Ht & Hs). rewrite Ht, Hs.
      eexists. split; [reflexivity|]. split; [reflexivity|]. by intros ? ? [=]. }
    destruct (in_keys _ type_map) eqn:Hk.
    { apply subscript_in_keys in Hk as (t & Ht & Hs). rewrite Ht, Hs.
      eexists. split; [reflexivity|]. split; [reflexivity|]. by intros ? ? [=]. }
    destruct (in_values _ type_map).
    { eexists. split; [reflexivity|]. split; [reflexivity|]. by intros ? ? [=]. }
    destruct (in_keys _ special_map) eqn:Hs'.
    { apply subscript_in_keys in Hs' as (t & Ht & Hs). rewrite Ht, Hs.
      eexists. split; [reflexivity|]. split; [reflexivity|]. by intros ? ? [=]. }
    eexists. split; [reflexivity|]. split; [reflexivity|]. by intros ? ? [=].
Qed.

(** C8.  [normalize_type] does not return on every string: under the digit
    limit of [int] it raises [ValueError] exactly on a string that, once
    trimmed, matches the array pattern with a count of more than 4300
    digits.  It never raises [KeyError], and on every other string it
    returns: the scalar [uint32_t] of 4 bytes for a string that matches no
    array pattern and is no key of [type_map], no value of it and no key
    of [special_map], and an array of [uint32_t], 4 bytes each, with the
    count of the pattern, for an array pattern whose base is no key and no
    value of [type_map]. *)
Theorem normalize_type_raises_only_on_long_count (ctype : string) :
  normalize_type_lim ctype <> Raise KeyError /\
  (normalize_type_lim ctype = Raise ValueError <->
   exists groups rest,
     re_match array_pattern (strip ctype) = Some (groups, rest) /\
     max_str_digits < Z.of_nat (String.length (group 2 groups))) /\
  ((forall groups rest,
      re_match array_pattern (strip ctype) = Some (groups, rest) ->
      Z.of_nat (String.length (group 2 groups)) <= max_str_digits) ->
   exists nt, normalize_type_lim ctype = Ok nt /\
     (re_match array_pattern (strip ctype) = None ->
      in_keys (strip ctype) type_map = false ->
      in_values (strip ctype) type_map = false ->
      in_keys (strip ctype) special_map = false ->
      nt = NScalar "uint32_t" /\ nt_size nt = 4) /\
     (forall groups rest,
      re_match array_pattern (strip ctype) = Some (groups, rest) ->
      in_keys (strip (group 1 groups)) type_map = false ->
      in_values (strip (group 1 groups)) type_map = false ->
      nt = NArray "uint32_t" (int_dec (group 2 groups)) /\
      nt_size nt = 4 * int_dec (group 2 groups))).
Proof.
  destruct (normalize_type_lim_cases ctype)
    as [(groups & rest & Hm & Hlen & Hr)|(nt & Hok & Hnt & Hshort)].
  - split; [by rewrite Hr|]. split.
    + split; [|done]. intros _. by exists groups, rest.
    + intros Hall. specialize (Hall groups rest Hm). lia.
  - split; [by rewrite Hok|]. split.
    + split; [by rewrite Hok|].
      intros (groups & rest & Hm & Hlen). specialize (Hshort groups rest Hm). lia.
    + intros _. exists nt. split; [done|].
      destruct (normalize_type_fallback ctype) as (nt' & Hnt' & H1 & H2).
      rewrite Hnt in Hnt'. injection Hnt' as <-. by split.
Qed.

(** The raw type [a[0...0]] with 4301 zeros as its count: [int] refuses
    the count. *)
Lemma normalize_type_raises_on_long_count :
  normalize_type_lim (long_count 4301) = Raise ValueError.
Proof. vm_compute. reflexivity. Qed.

Lemma normalize_type_lim_count (ctype base : string) (count : Z) :
  normalize_type_lim ctype = Ok (NArray base count) ->
  0 <= count < 10 ^ max_str_digits.
Proof.
  unfold normalize_type_lim.
  destruct (re_match array_pattern (strip ctype)) as [[groups rest]|] eqn:Hm.
  - apply array_pattern_inv in Hm as (b & c & -> & _ & _ & _ & _ & Hd).
    change (group 2 [b; c]) with c. unfold int_dec_lim.
    destruct (max_str_digits <? Z.of_nat (String.length c)) eqn:E; [done|].
    apply Z.ltb_ge in E. cbn [mbind result_bind].
    pose proof (int_dec_bound c Hd E) as Hb.
    destruct (in_keys _ type_map) eqn:Hk.
    + apply subscript_in_keys in Hk as (t & _ & ->). by intros [= _ <-].
    + destruct (in_values _ type_map); by intros [= _ <-].
  - destruct (in_keys _ array_map) eqn:Ha.
    { by apply subscript_in_keys in Ha as (t & _ & ->). }
    destruct (in_keys _ type_map) eqn:Hk.
    { by apply subscript_in_keys in Hk as (t & _ & ->). }
    destruct (in_values _ type_map); [done|].
    destruct (in_keys _ special_map) eqn:Hs; [|done].
    by apply subscript_in_keys in Hs as (t & _ & ->).
Qed.

(** ** The two passes *)

Lemma fmt_d_lim_cases (n : Z) :
  (fmt_d_lim n = Raise ValueError /\ 10 ^ max_str_digits <= Z.abs n) \/
  (fmt_d_lim n = Ok (fmt_d n) /\ Z.abs n < 10 ^ max_str_digits).
Proof.
  unfold fmt_d_lim. destruct (10 ^ max_str_digits <=? Z.abs n) eqn:E.
  - left. apply Z.leb_le in E. by split.
  - right. apply Z.leb_gt in E. by split.
Qed.

Lemma size_walk_lim_cases (fields : list string) :
  forall cur,
    (size_walk_lim cur fields = Raise ValueError /\
     exists line var offset ctype,
       line ∈ fields /\ field_of_line line = Some (var, offset, ctype) /\
       normalize_type_lim ctype = Raise ValueError) \/
    (exists r, size_walk_lim cur fields = Ok r /\ size_walk cur fields = Some r).
Proof.
  induction fields as [|line fields IH]; intros cur.
  - right. by exists cur.
  - cbn [size_walk_lim size_walk].
    destruct (field_of_line line) as [[[var offset] ctype]|] eqn:Hl.
    2:{ destruct (IH cur) as [(Hr & l & v & o & ct & Hin & H)|H]; [left|by right].
        split; [done|]. exists l, v, o, ct. split; [by right|done]. }
    destruct (normalize_type_lim_cases ctype)
      as [(groups & rest & _ & _ & Hr)|(nt & Hok & Hnt & _)].
    + left. rewrite Hr. split; [done|]. exists line, var, offset, ctype.
      split; [by left|done].
    + rewrite Hok, Hnt. cbn [mbind result_bind option_bind].
      destruct (IH (if bool_decide (offset + nt_size nt > cur)
                    then offset + nt_size nt else cur))
        as [(Hr & l & v & o & ct & Hin & H)|H]; [left|by right].
      split; [done|]. exists l, v, o, ct. split; [by right|done].
Qed.

Lemma compute_sizes_from_lim_cases (ordered : list ordered_rec) :
  forall sizes,
    (compute_sizes_from_lim sizes ordered = Raise ValueError /\
     exists c line var offset ctype,
       c ∈ ordered /\ line ∈ c.2 /\
       field_of_line line = Some (var, offset, ctype) /\
       normalize_type_lim ctype = Raise ValueError) \/
    (exists sizes',
       compute_sizes_from_lim sizes ordered = Ok sizes' /\
       compute_sizes_from sizes ordered = Some sizes').
Proof.
  induction ordered as [|c ordered IH]; intros sizes.
  - right. by exists sizes.
  - cbn [compute_sizes_from_lim compute_sizes_from].
    unfold class_size_lim, class_size.
    destruct (size_walk_lim_cases c.2 0)
      as [(Hr & l & v & o & ct & Hin & Hl & H)|(r & Hok & Hr)].
    + left. rewrite Hr. split; [done|]. exists c, l, v, o, ct.
      split; [by left|done].
    + rewrite Hok, Hr. cbn [mbind result_bind option_bind].
      destruct (IH (<[c.1.1 := Z.max r (size_get sizes c.1.2)]> sizes))
        as [(Hr' & c' & l & v & o & ct & Hc & H)|H]; [left|by right].
      split; [done|]. exists c', l, v, o, ct. split; [by right|done].
Qed.

Lemma pad_chunk_lim_cases (cur offset : Z) :
  0 <= cur ->
  (pad_chunk_lim cur offset = Raise ValueError /\ 10 ^ max_str_digits <= offset) \/
  pad_chunk_lim cur offset =
    Ok (render <$> (if bool_decide (offset > cur)
                    then [MPad cur (offset - cur)] else [])).
Proof.
  intros Hcur. unfold pad_chunk_lim. case_bool_decide as Hgt; [|by right].
  destruct (fmt_d_lim_cases (offset - cur)) as [[-> Hbig]|[-> _]].
  - left. split; [done|]. lia.
  - by right.
Qed.

Lemma field_chunk_lim_ok (ctype : string) (nt : ntype) (var : string) (offset : Z) :
  normalize_type_lim ctype = Ok nt ->
  field_chunk_lim nt var offset ctype =
    Ok (render match nt with
               | NArray base_type count => MArray base_type var count offset ctype
               | NScalar name => MField name var offset ctype
               end).
Proof.
  destruct nt as [name|base count]; [done|].
  intros Hb%normalize_type_lim_count. unfold field_chunk_lim.
  destruct (fmt_d_lim_cases count) as [[_ Hbig]|[-> _]]; [lia|done].
Qed.

Lemma emit_walk_lim_cases (fields : list string) :
  forall cur,
    0 <= cur ->
    (emit_walk_lim cur fields = Raise ValueError /\
     exists line var offset ctype,
       line ∈ fields /\ field_of_line line = Some (var, offset, ctype) /\
       (10 ^ max_str_digits <= offset \/
        normalize_type_lim ctype = Raise ValueError)) \/
    (exists ms last,
       emit_walk_lim cur fields = Ok (render <$> ms, last) /\
       emit_walk cur fields = Some (ms, last)).
Proof.
  induction fields as [|line fields IH]; intros cur Hcur.
  - right. by exists [], cur.
  - cbn [emit_walk_lim emit_walk].
    assert (Hskip : forall c, 0 <= c ->
      (emit_walk_lim c fields = Raise ValueError /\
       exists l v o ct,
         l ∈ line :: fields /\ field_of_line l = Some (v, o, ct) /\
         (10 ^ max_str_digits <= o \/ normalize_type_lim ct = Raise ValueError)) \/
      (exists ms last,
         emit_walk_lim c fields = Ok (render <$> ms, last) /\
         emit_walk c fields = Some (ms, last))).
    { intros c Hc. destruct (IH c Hc) as [(Hr & l & v & o & ct & Hin & H)|H];
        [left|by right].
      split; [done|]. exists l, v, o, ct. split; [by right|done]. }
    destruct (field_of_line line) as [[[var offset] ctype]|] eqn:Hl;
      [|by apply Hskip].
    case_bool_decide as Hlt; [by apply Hskip|].
    destruct (pad_chunk_lim_cases cur offset Hcur) as [[-> Hbig] | ->].
    { left. split; [done|]. exists line, var, offset, ctype.
      split; [by left|]. split; [done|by left]. }
    cbn [mbind result_bind].
    destruct (normalize_type_lim_cases ctype)
      as [(groups & rest & _ & _ & Hr)|(nt & Hok & Hnt & _)].
    { left. rewrite Hr. split; [done|]. exists line, var, offset, ctype.
      split; [by left|]. split; [done|by right]. }
    rewrite Hok, Hnt. cbn [mbind result_bind option_bind].
    rewrite (field_chunk_lim_ok ctype nt var offset Hok).
    cbn [mbind result_bind option_bind].
    pose proof (nt_size_nonneg _ _ Hnt) as Hsz.
    assert (Hnext : 0 <= offset + nt_size nt) by lia.
    destruct (Hskip (offset + nt_size nt) Hnext)
      as [[Hr H]|(ms & last & Hr & Hb)]; [left; by rewrite Hr|].
    rewrite Hr, Hb. right. cbn [mbind result_bind option_bind fst snd]. eexists _, last.
    split; [|reflexivity]. by rewrite fmap_app, fmap_cons.
Qed.

Lemma class_chunks_lim_cases (sizes : gmap string Z) (c : ordered_rec) :
  0 <= parent_size_of sizes c.1.2 ->
  (class_chunks_lim sizes c = Raise ValueError /\
   exists line var offset ctype,
     line ∈ c.2 /\ field_of_line line = Some (var, offset, ctype) /\
     (10 ^ max_str_digits <= offset \/
      normalize_type_lim ctype = Raise ValueError)) \/
  (exists d, class_chunks_lim sizes c = Ok d /\ class_chunks sizes c = Some d).
Proof.
  intros Hp. unfold class_chunks_lim, class_chunks, class_members.
  destruct (emit_walk_lim_cases c.2 _ Hp) as [[Hr H]|(ms & last & Hr & Hb)].
  - left. by rewrite Hr.
  - right. rewrite Hr, Hb. by eexists.
Qed.

Lemma decl_chunks_lim_cases (sizes : gmap string Z) (ordered : list ordered_rec) :
  (forall c, c ∈ ordered -> 0 <= parent_size_of sizes c.1.2) ->
  (decl_chunks_lim sizes ordered = Raise ValueError /\
   exists c line var offset ctype,
     c ∈ ordered /\ line ∈ c.2 /\
     field_of_line line = Some (var, offset, ctype) /\
     (10 ^ max_str_digits <= offset \/
      normalize_type_lim ctype = Raise ValueError)) \/
  (exists ds, decl_chunks_lim sizes ordered = Ok ds /\
              decl_chunks sizes ordered = Some ds).
Proof.
  induction ordered as [|c ordered IH]; intros Hp.
  - right. by exists [].
  - cbn [decl_chunks_lim decl_chunks].
    destruct (class_chunks_lim_cases sizes c (Hp c ltac:(by left)))
      as [(Hr & l & v & o & ct & Hin & H)|(d & Hr & Hb)].
    + left. rewrite Hr. split; [done|]. exists c, l, v, o, ct.
      split; [by left|done].
    + rewrite Hr, Hb. cbn [mbind result_bind option_bind].
      destruct IH as [(Hr' & c' & l & v & o & ct & Hc & H)|(ds & Hr' & Hb')].
      * intros c' Hc'. apply Hp. by right.
      * left. rewrite Hr'. split; [done|]. exists c', l, v, o, ct.
        split; [by right|done].
      * right. rewrite Hr', Hb'. by eexists.
Qed.

Lemma parent_size_of_nonneg (sizes : gmap string Z) (parent : option string) :
  (forall n z, sizes !! n = Some z -> 0 <= z) -> 0 <= parent_size_of sizes parent.
Proof.
  intros Hs. unfold parent_size_of. destruct parent as [p|]; [|done].
  case_bool_decide; [|done].
  destruct (sizes !! p) as [z|] eqn:E; simpl; [by eapply Hs|done].
Qed.

Lemma ordered_body_of_class (set_iter : gset string -> list string)
    (classes : list class_rec) (ordered : list ordered_rec) (c : ordered_rec) :
  (forall X, set_iter X ≡ₚ elements X) ->
  order_classes set_iter classes = Some ordered ->
  c ∈ ordered -> exists parent, (c.1.1, parent, c.2) ∈ classes.
Proof.
  intros Hperm Hord Hc. destruct c as [[n op] b].
  destruct (order_classes_records set_iter classes ordered Hperm Hord n op b Hc)
    as (p & Hp & _).
  apply name_to_class_last in Hp as (_ & l1 & l2 & -> & _).
  exists p. apply elem_of_app. right. by left.
Qed.

Lemma convert_file_lim_cases (set_iter : gset string -> list string)
    (text : string) :
  (forall X, set_iter X ≡ₚ elements X) ->
  (convert_file_lim set_iter text = Raise ValueError /\
   exists name parent fields line var offset ctype,
     (name, parent, fields) ∈ parse_classes text /\ line ∈ fields /\
     field_of_line line = Some (var, offset, ctype) /\
     (10 ^ max_str_digits <= offset \/
      normalize_type_lim ctype = Raise ValueError)) \/
  (exists out, convert_file_lim set_iter text = Ok out /\
               convert_file set_iter text = Some out).
Proof.
  intros Hperm. unfold convert_file_lim, convert_file.
  destruct (order_classes_inv set_iter (parse_classes text) Hperm)
    as (ordered & _ & Hord & _).
  rewrite Hord. cbn [mbind result_bind option_bind].
  assert (Hline : forall c line var offset ctype,
    c ∈ ordered -> line ∈ c.2 ->
    field_of_line line = Some (var, offset, ctype) ->
    10 ^ max_str_digits <= offset \/ normalize_type_lim ctype = Raise ValueError ->
    exists name parent fields line var offset ctype,
      (name, parent, fields) ∈ parse_classes text /\ line ∈ fields /\
      field_of_line line = Some (var, offset, ctype) /\
      (10 ^ max_str_digits <= offset \/
       normalize_type_lim ctype = Raise ValueError)).
  { intros c line var offset ctype Hc Hin Hl Hbad.
    destruct (ordered_body_of_class set_iter _ ordered c Hperm Hord Hc) as [p Hp].
    by exists c.1.1, p, c.2, line, var, offset, ctype. }
  unfold compute_class_sizes_lim, compute_class_sizes.
  destruct (compute_sizes_from_lim_cases ordered ∅)
    as [(Hr & c & l & v & o & ct & Hc & Hin & Hl & Hbad)|(sizes & Hr & Hb)].
  { left. rewrite Hr. split; [done|]. apply (Hline c l v o ct); auto. }
  rewrite Hr, Hb. cbn [mbind result_bind option_bind].
  unfold output_chunks_lim, output_chunks.
  assert (Hp : forall c, c ∈ ordered -> 0 <= parent_size_of sizes c.1.2).
  { intros c _. apply parent_size_of_nonneg.
    apply (compute_sizes_from_nonneg ordered ∅ sizes Hb).
    intros n z. by rewrite lookup_empty. }
  destruct (decl_chunks_lim_cases sizes ordered Hp)
    as [(Hr' & c & l & v & o & ct & Hc & Hin & Hl & Hbad)|(ds & Hr' & Hb')].
  { left. rewrite Hr'. split; [done|]. apply (Hline c l v o ct); auto. }
  right. rewrite Hr', Hb'. by eexists.
Qed.

(** [convert_file] never raises [KeyError] and its ordering loop ends,
    whatever the order in which the sets are iterated.  The one exception
    it raises is the [ValueError] of the digit limit, and then some field
    line of an extracted class has an offset of [10 ^ 4300] or more, or an
    array count of more than 4300 digits.  On a text whose field lines
    are all within the limit it returns the output text, and whenever it
    returns, the text is the one the program gives with the limit
    lifted. *)
Theorem convert_file_raises_only_on_digit_limit
    (set_iter : gset string -> list string) (text : string) :
  (forall X, set_iter X ≡ₚ elements X) ->
  convert_file_lim set_iter text <> Raise KeyError /\
  (forall out, convert_file_lim set_iter text = Ok out ->
               convert_file set_iter text = Some out) /\
  (convert_file_lim set_iter text = Raise ValueError ->
   exists name parent fields line var offset ctype,
     (name, parent, fields) ∈ parse_classes text /\ line ∈ fields /\
     field_of_line line = Some (var, offset, ctype) /\
     (10 ^ max_str_digits <= offset \/
      normalize_type_lim ctype = Raise ValueError)) /\
  ((forall c, c ∈ parse_classes text -> within_limit c.2) ->
   exists out, convert_file_lim set_iter text = Ok out).
Proof.
  intros Hperm.
  destruct (convert_file_lim_cases set_iter text Hperm)
    as [(Hr & n & p & fs & l & v & o & ct & Hc & Hin & Hl & Hbad)|(out & Hr & Hb)].
  - split; [by rewrite Hr|]. split; [by rewrite Hr|]. split.
    + intros _. by exists n, p, fs, l, v, o, ct.
    + intros Hall. destruct (Hall (n, p, fs) Hc l v o ct Hin Hl) as [Ho Hn].
      destruct Hbad as [Hbig|Hraise]; [lia|done].
  - split; [by rewrite Hr|]. split; [|split].
    + intros out'. rewrite Hr. by intros [= <-].
    + by rewrite Hr.
    + intros _. by exists out.
Qed.

Lemma dump_health_within_limit :
  forall c, c ∈ parse_classes dump_health -> within_limit c.2.
Proof.
  assert (Hp : parse_classes dump_health =
                 [("C_Foo", "None", [line_health; line_pos])])
    by (vm_compute; reflexivity).
  assert (H1 : field_of_line line_health = Some ("m_flHealth", 0, "float32"))
    by (vm_compute; reflexivity).
  assert (H2 : field_of_line line_pos = Some ("m_vecPos", 16, "Vector"))
    by (vm_compute; reflexivity).
  assert (N1 : normalize_type_lim "float32" = Ok (NScalar "float"))
    by (vm_compute; reflexivity).
  assert (N2 : normalize_type_lim "Vector" = Ok (NScalar "Vector3"))
    by (vm_compute; reflexivity).
  assert (Hbig : 16 < 10 ^ max_str_digits).
  { apply Z.lt_le_trans with (10 ^ 2); [reflexivity|].
    apply Z.pow_le_mono_r; unfold max_str_digits; lia. }
  intros c Hc. rewrite Hp in Hc. apply list_elem_of_singleton in Hc as ->.
  intros line var offset ctype Hin Hl. cbn [snd] in Hin.
  apply elem_of_cons in Hin as [->|Hin].
  - rewrite H1 in Hl. injection Hl as <- <- <-. split; [lia|by rewrite N1].
  - apply list_elem_of_singleton in Hin as ->.
    rewrite H2 in Hl. injection Hl as <- <- <-. split; [lia|by rewrite N2].
Qed.

Lemma convert_file_raises_only_on_digit_limit_witness :
  ((forall X : gset string, elements X ≡ₚ elements X) /\
   (forall c, c ∈ parse_classes dump_health -> within_limit c.2)) /\
  convert_file_lim elements dump_health <> Raise KeyError /\
  (forall out, convert_file_lim elements dump_health = Ok out ->
               convert_file elements dump_health = Some out) /\
  (convert_file_lim elements dump_health = Raise ValueError ->
   exists name parent fields line var offset ctype,
     (name, parent, fields) ∈ parse_classes dump_health /\ line ∈ fields /\
     field_of_line line = Some (var, offset, ctype) /\
     (10 ^ max_str_digits <= offset \/
      normalize_type_lim ctype = Raise ValueError)) /\
  ((forall c, c ∈ parse_classes dump_health -> within_limit c.2) ->
   exists out, convert_file_lim elements dump_health = Ok out).
Proof.
  split; [split; [exact elements_perm|exact dump_health_within_limit]|].
  exact (convert_file_raises_only_on_digit_limit elements dump_health elements_perm).
Defined.

(** The limit is reached: a field with an array count of 4301 digits makes
    the layout computer raise, and a field at offset [16 ^ 3600], for
    which the size table is computed, makes the emitter raise when it
    prints the size of the padding before it. *)
Lemma digit_limit_is_reached :
  convert_file_lim elements dump_long_count = Raise ValueError /\
  compute_class_sizes_lim
    [("C", None,
      ["constexpr std::ptrdiff_t b = 0x1" +:+ zeros 3600 +:+ "; // int32"])] =
    Ok {[ "C" := 16 ^ 3600 + 4 ]} /\
  convert_file_lim elements dump_far_field = Raise ValueError.
Proof. repeat split; vm_compute; reflexivity. Qed.

